(** * API rate limiter: a shallow embedding of [rate_limiter.py]

    The four in-process limiters ([TokenBucketLimiter],
    [SlidingWindowLimiter], [LeakyBucketLimiter], [FixedWindowLimiter]) and
    [RateLimiterFactory] are translated method by method.

    Modelling conventions.
    - Python [int] is [Z].  Python [float] is idealised as an exact rational
      ([Q]); rounding, overflow, [inf] and [nan] of IEEE doubles are outside
      the model.  Results that Python returns as [int] are compared with
      Leibniz equality, rationals with [Qeq].
    - [time.time()] is an effect: every call consumes the next reading of a
      scripted clock, so a method that calls it three times sees three
      readings.
    - A method is a function from the world (clock and [self]) to either a
      raised exception or a value with the new world.
    - [defaultdict] is a finite map with a factory run on a missing key;
      a [deque] is a list whose head is the left end. *)

From Stdlib Require Import ZArith QArith Qround Qminmax Lia Lqa.
From stdpp Require Import gmap strings list.

Local Open Scope Z_scope.

(** ** Python numerics *)

(** [int(x)] on a float truncates toward zero. *)
Definition py_int (x : Q) : Z :=
  if Qle_bool 0 x then Qfloor x else Qceiling x.

(** [a >= b] and [a < b] on numbers. *)
Definition py_ge (a b : Q) : bool := Qle_bool b a.
Definition py_lt (a b : Q) : bool := negb (Qle_bool b a).

(** Truthiness of [Optional[float]] and [Optional[int]]: [None] and zero are
    falsy. *)
Definition truthy_float (o : option Q) : option Q :=
  match o with
  | Some r => if Qeq_bool r 0 then None else Some r
  | None => None
  end.

Definition truthy_int (o : option Z) : option Z :=
  match o with
  | Some n => if Z.eqb n 0 then None else Some n
  | None => None
  end.

(** [len(d)] *)
Definition len {A} (d : list A) : Z := Z.of_nat (length d).

(** ** Exceptions, the clock and the method monad *)

Inductive PyExc : Type :=
  | ZeroDivisionError
  | IndexError
  | ValueError (msg : string).

Inductive result (A : Type) : Type :=
  | Ok (a : A)
  | Raise (e : PyExc).
Arguments Ok {A} a.
Arguments Raise {A} e.

(** The readings still to be returned by [time.time()], next one first. *)
Definition Clock : Type := nat -> Q.

Record World (Self : Type) : Type := mkWorld { clock : Clock; self : Self }.
Arguments mkWorld {Self} clock self.
Arguments clock {Self} w.
Arguments self {Self} w.

Definition Py (Self A : Type) : Type := World Self -> result (A * World Self).

Definition ret {Self A} (a : A) : Py Self A := fun w => Ok (a, w).

Definition bind {Self A B} (m : Py Self A) (k : A -> Py Self B) : Py Self B :=
  fun w => match m w with
           | Ok (a, w') => k a w'
           | Raise e => Raise e
           end.

Definition raise {Self A} (e : PyExc) : Py Self A := fun _ => Raise e.

Notation "'let*' x ':=' m 'in' k" := (bind m (fun x => k))
  (at level 10, x pattern, m at level 100, k at level 200).

(** The clock once its next reading has been taken. *)
Definition advance (clk : Clock) : Clock := fun n => clk (S n).

Definition time_time {Self} : Py Self Q :=
  fun w => Ok (clock w 0%nat, mkWorld (advance (clock w)) (self w)).

Definition get_self {Self} : Py Self Self := fun w => Ok (self w, w).
Definition set_self {Self} (s : Self) : Py Self unit :=
  fun w => Ok (tt, mkWorld (clock w) s).

(** [a / b] on floats (or on ints, true division). *)
Definition py_truediv {Self} (a b : Q) : Py Self Q :=
  if Qeq_bool b 0 then raise ZeroDivisionError else ret (a / b)%Q.

(** Clocks used in statements and examples. *)
Definition frozen (now : Q) : Clock := fun _ => now.
Definition scripted (l : list Q) (last : Q) : Clock := fun n => nth n l last.
Definition monotone (clk : Clock) : Prop := forall n, (clk n <= clk (S n))%Q.

(** ** Configuration and response *)

Inductive RateLimitAlgorithm : Type :=
  | TOKEN_BUCKET
  | SLIDING_WINDOW
  | LEAKY_BUCKET
  | FIXED_WINDOW
  | SLIDING_WINDOW_LOG.

Module Config.
Record RateLimitConfig : Type := mk {
  max_requests : Z;
  time_window : Z;
  algorithm : RateLimitAlgorithm;
  burst_size : option Z;
  refill_rate : option Q;
  distributed : bool;
  redis_url : string
}.

(** The dataclass defaults. *)
Definition default (max_requests time_window : Z) : RateLimitConfig :=
  mk max_requests time_window TOKEN_BUCKET None None false
     "redis://localhost:6379/0".
End Config.
Abbreviation RateLimitConfig := Config.RateLimitConfig.

Record RateLimitResponse : Type := mkResponse {
  allowed : bool;
  remaining : Z;
  reset_time : Z;
  retry_after : option Z;
  requests_in_window : Z
}.

(** ** TokenBucketLimiter *)

Module TokenBucketLimiter.

Record Bucket : Type := mkBucket {
  tokens : Q;
  last_refill : Q;
  burst_size : Z
}.

Record t : Type := mk {
  config : RateLimitConfig;
  buckets : gmap string Bucket;
  refill_rate : Q
}.

Record Status : Type := mkStatus {
  st_algorithm : string;
  st_tokens : Q;
  st_max_tokens : Z;
  st_refill_rate : Q
}.

(** [config.burst_size or config.max_requests] *)
Definition burst_or_max (cfg : RateLimitConfig) : Z :=
  match truthy_int (Config.burst_size cfg) with
  | Some b => b
  | None => Config.max_requests cfg
  end.

(** [__init__]; the division is the only step that can raise. *)
Definition init (cfg : RateLimitConfig) : result t :=
  match truthy_float (Config.refill_rate cfg) with
  | Some r => Ok (mk cfg ∅ r)
  | None =>
      if Z.eqb (Config.time_window cfg) 0 then Raise ZeroDivisionError
      else Ok (mk cfg ∅
                  (inject_Z (Config.max_requests cfg)
                   / inject_Z (Config.time_window cfg))%Q)
  end.

(** The [defaultdict] factory passed in [__init__]. *)
Definition default_bucket : Py t Bucket :=
  let* s := get_self in
  let* now := time_time in
  ret (mkBucket (inject_Z (Config.max_requests (config s))) now
                (burst_or_max (config s))).

Definition set_bucket (client_id : string) (b : Bucket) : Py t unit :=
  let* s := get_self in
  set_self (mk (config s) (<[client_id := b]> (buckets s)) (refill_rate s)).

(** [self.buckets[client_id]] *)
Definition get_bucket (client_id : string) : Py t Bucket :=
  let* s := get_self in
  match buckets s !! client_id with
  | Some b => ret b
  | None =>
      let* b := default_bucket in
      let* _ := set_bucket client_id b in
      ret b
  end.

Definition _refill (client_id : string) : Py t Q :=
  let* bucket := get_bucket client_id in
  let* now := time_time in
  let* s := get_self in
  let elapsed := (now - last_refill bucket)%Q in
  let tokens_to_add := (elapsed * refill_rate s)%Q in
  let tokens' := Qmin (tokens bucket + tokens_to_add)%Q
                      (inject_Z (burst_size bucket)) in
  let* _ := set_bucket client_id
              (mkBucket tokens' now (burst_size bucket)) in
  ret tokens'.

Definition is_allowed (client_id : string) : Py t RateLimitResponse :=
  let* _ := _refill client_id in
  let* bucket := get_bucket client_id in
  let* s := get_self in
  let cfg := config s in
  if py_ge (tokens bucket) 1 then
    let tokens' := (tokens bucket - 1)%Q in
    let* _ := set_bucket client_id
                (mkBucket tokens' (last_refill bucket) (burst_size bucket)) in
    let* now := time_time in
    let reset_time := py_int (inject_Z (Config.time_window cfg) + now)%Q in
    ret (mkResponse true (py_int tokens') reset_time None
                    (Config.max_requests cfg - py_int tokens'))
  else
    let* q := py_truediv 1 (refill_rate s) in
    let retry_after := py_int q in
    let* now := time_time in
    let reset_time := py_int (now + inject_Z retry_after)%Q in
    ret (mkResponse false 0 reset_time (Some retry_after)
                    (Config.max_requests cfg)).

Definition reset (client_id : string) : Py t unit :=
  let* s := get_self in
  let* now := time_time in
  set_bucket client_id
    (mkBucket (inject_Z (Config.max_requests (config s))) now
              (burst_or_max (config s))).

Definition get_status (client_id : string) : Py t Status :=
  let* _ := _refill client_id in
  let* bucket := get_bucket client_id in
  let* s := get_self in
  ret (mkStatus "token_bucket" (tokens bucket) (burst_size bucket)
                (refill_rate s)).

End TokenBucketLimiter.

(** ** SlidingWindowLimiter *)

Module SlidingWindowLimiter.

Record t : Type := mk {
  config : RateLimitConfig;
  windows : gmap string (list Q)
}.

Record Status : Type := mkStatus {
  st_algorithm : string;
  st_requests_in_window : Z;
  st_max_requests : Z;
  st_window_size : Z
}.

Definition init (cfg : RateLimitConfig) : result t := Ok (mk cfg ∅).

Definition set_window (client_id : string) (d : list Q) : Py t unit :=
  let* s := get_self in
  set_self (mk (config s) (<[client_id := d]> (windows s))).

(** [self.windows[client_id]] with the factory [deque]. *)
Definition get_window (client_id : string) : Py t (list Q) :=
  let* s := get_self in
  match windows s !! client_id with
  | Some d => ret d
  | None => let* _ := set_window client_id [] in ret []
  end.

(** [while window and window[0] < window_start: window.popleft()] *)
Fixpoint evict (window_start : Q) (window : list Q) : list Q :=
  match window with
  | [] => []
  | front :: rest =>
      if py_lt front window_start then evict window_start rest else window
  end.

(** [window[0]] *)
Definition front (window : list Q) : Py t Q :=
  match window with
  | [] => raise IndexError
  | x :: _ => ret x
  end.

Definition is_allowed (client_id : string) : Py t RateLimitResponse :=
  let* now := time_time in
  let* s := get_self in
  let cfg := config s in
  let window_start := (now - inject_Z (Config.time_window cfg))%Q in
  let* window := get_window client_id in
  let window := evict window_start window in
  let* _ := set_window client_id window in
  let requests_in_window := len window in
  let reset_time :=
    match window with
    | _ :: _ => py_int (inject_Z (Config.time_window cfg) + now)%Q
    | [] => py_int (now + inject_Z (Config.time_window cfg))%Q
    end in
  if requests_in_window <? Config.max_requests cfg then
    let* _ := set_window client_id (window ++ [now]) in
    ret (mkResponse true
           (Config.max_requests cfg - requests_in_window - 1)
           reset_time None (requests_in_window + 1))
  else
    let* w0 := front window in
    let retry_after := py_int (w0 - window_start + 1)%Q in
    ret (mkResponse false 0 reset_time (Some retry_after)
                    requests_in_window).

Definition reset (client_id : string) : Py t unit :=
  let* _ := get_window client_id in
  set_window client_id [].

Definition get_status (client_id : string) : Py t Status :=
  let* now := time_time in
  let* s := get_self in
  let cfg := config s in
  let window_start := (now - inject_Z (Config.time_window cfg))%Q in
  let* window := get_window client_id in
  let requests_in_window :=
    len (List.filter (fun t => py_ge t window_start) window) in
  ret (mkStatus "sliding_window" requests_in_window
                (Config.max_requests cfg) (Config.time_window cfg)).

End SlidingWindowLimiter.

(** ** LeakyBucketLimiter *)

Module LeakyBucketLimiter.

Record Bucket : Type := mkBucket {
  queue : list Q;
  last_leak_time : Q;
  total_leaked : Z
}.

Record t : Type := mk {
  config : RateLimitConfig;
  buckets : gmap string Bucket;
  leak_rate : Q
}.

Record Status : Type := mkStatus {
  st_algorithm : string;
  st_queue_size : Z;
  st_max_capacity : Z;
  st_leak_rate : Q;
  st_total_leaked : Z
}.

Definition init (cfg : RateLimitConfig) : result t :=
  if Z.eqb (Config.time_window cfg) 0 then Raise ZeroDivisionError
  else Ok (mk cfg ∅
              (inject_Z (Config.max_requests cfg)
               / inject_Z (Config.time_window cfg))%Q).

Definition default_bucket : Py t Bucket :=
  let* now := time_time in
  ret (mkBucket [] now 0).

Definition set_bucket (client_id : string) (b : Bucket) : Py t unit :=
  let* s := get_self in
  set_self (mk (config s) (<[client_id := b]> (buckets s)) (leak_rate s)).

Definition get_bucket (client_id : string) : Py t Bucket :=
  let* s := get_self in
  match buckets s !! client_id with
  | Some b => ret b
  | None =>
      let* b := default_bucket in
      let* _ := set_bucket client_id b in
      ret b
  end.

(** One iteration of the body of [for _ in range(requests_to_leak)]. *)
Definition leak_one (b : Bucket) : Bucket :=
  match queue b with
  | [] => b
  | _ :: rest => mkBucket rest (last_leak_time b) (total_leaked b + 1)
  end.

Fixpoint leak_loop (n : nat) (b : Bucket) : Bucket :=
  match n with
  | O => b
  | S n' => leak_loop n' (leak_one b)
  end.

Definition _leak (client_id : string) : Py t Z :=
  let* bucket := get_bucket client_id in
  let* now := time_time in
  let* s := get_self in
  let elapsed := (now - last_leak_time bucket)%Q in
  let requests_to_leak := py_int (elapsed * leak_rate s)%Q in
  let bucket := leak_loop (Z.to_nat requests_to_leak) bucket in
  let bucket := mkBucket (queue bucket) now (total_leaked bucket) in
  let* _ := set_bucket client_id bucket in
  ret (len (queue bucket)).

Definition is_allowed (client_id : string) : Py t RateLimitResponse :=
  let* queue_size := _leak client_id in
  let* bucket := get_bucket client_id in
  let* s := get_self in
  let cfg := config s in
  if queue_size <? Config.max_requests cfg then
    let* now := time_time in
    let* _ := set_bucket client_id
                (mkBucket (queue bucket ++ [now]) (last_leak_time bucket)
                          (total_leaked bucket)) in
    let* now' := time_time in
    let reset_time := py_int (inject_Z (Config.time_window cfg) + now')%Q in
    ret (mkResponse true (Config.max_requests cfg - queue_size - 1)
                    reset_time None (queue_size + 1))
  else
    let* q := py_truediv 1 (leak_rate s) in
    let retry_after := py_int q in
    let* now := time_time in
    ret (mkResponse false 0 (py_int (now + inject_Z retry_after)%Q)
                    (Some retry_after) queue_size).

Definition reset (client_id : string) : Py t unit :=
  let* now := time_time in
  set_bucket client_id (mkBucket [] now 0).

Definition get_status (client_id : string) : Py t Status :=
  let* queue_size := _leak client_id in
  let* s := get_self in
  let* bucket := get_bucket client_id in
  ret (mkStatus "leaky_bucket" queue_size (Config.max_requests (config s))
                (leak_rate s) (total_leaked bucket)).

End LeakyBucketLimiter.

(** ** FixedWindowLimiter *)

Module FixedWindowLimiter.

Record Window : Type := mkWindow {
  count : Z;
  window_start : Q
}.

Record t : Type := mk {
  config : RateLimitConfig;
  windows : gmap string Window
}.

Record Status : Type := mkStatus {
  st_algorithm : string;
  st_count : Z;
  st_max_requests : Z;
  st_window_reset_in : Z
}.

Definition init (cfg : RateLimitConfig) : result t := Ok (mk cfg ∅).

Definition default_window : Py t Window :=
  let* now := time_time in
  ret (mkWindow 0 now).

Definition set_window (client_id : string) (w : Window) : Py t unit :=
  let* s := get_self in
  set_self (mk (config s) (<[client_id := w]> (windows s))).

Definition get_window (client_id : string) : Py t Window :=
  let* s := get_self in
  match windows s !! client_id with
  | Some w => ret w
  | None =>
      let* w := default_window in
      let* _ := set_window client_id w in
      ret w
  end.

(** The window roll-over shared by [is_allowed] and [get_status]. *)
Definition roll (cfg : RateLimitConfig) (now : Q) (window : Window)
  : Window :=
  if py_ge (now - window_start window)%Q (inject_Z (Config.time_window cfg))
  then mkWindow 0 now
  else window.

Definition is_allowed (client_id : string) : Py t RateLimitResponse :=
  let* now := time_time in
  let* window := get_window client_id in
  let* s := get_self in
  let cfg := config s in
  let window := roll cfg now window in
  let* _ := set_window client_id window in
  let reset_time :=
    py_int (window_start window + inject_Z (Config.time_window cfg))%Q in
  if count window <? Config.max_requests cfg then
    let window := mkWindow (count window + 1) (window_start window) in
    let* _ := set_window client_id window in
    ret (mkResponse true (Config.max_requests cfg - count window)
                    reset_time None (count window))
  else
    let retry_after := py_int (inject_Z reset_time - now)%Q in
    ret (mkResponse false 0 reset_time (Some retry_after) (count window)).

Definition reset (client_id : string) : Py t unit :=
  let* now := time_time in
  set_window client_id (mkWindow 0 now).

Definition get_status (client_id : string) : Py t Status :=
  let* now := time_time in
  let* window := get_window client_id in
  let* s := get_self in
  let cfg := config s in
  let window := roll cfg now window in
  let* _ := set_window client_id window in
  ret (mkStatus "fixed_window" (count window) (Config.max_requests cfg)
         (py_int (window_start window + inject_Z (Config.time_window cfg)
                  - now)%Q)).

End FixedWindowLimiter.

(** ** The limiter interface and the factory *)

(** An instance of one of the four in-process subclasses of
    [BaseRateLimiter]. *)
Inductive Limiter : Type :=
  | TokenBucket (l : TokenBucketLimiter.t)
  | SlidingWindow (l : SlidingWindowLimiter.t)
  | LeakyBucket (l : LeakyBucketLimiter.t)
  | FixedWindow (l : FixedWindowLimiter.t).

Inductive Status : Type :=
  | TokenBucketStatus (d : TokenBucketLimiter.Status)
  | SlidingWindowStatus (d : SlidingWindowLimiter.Status)
  | LeakyBucketStatus (d : LeakyBucketLimiter.Status)
  | FixedWindowStatus (d : FixedWindowLimiter.Status).

(** Run a method of a subclass on the object [s] held in a [Limiter]. *)
Definition lift {S A B} (inj : S -> Limiter) (out : A -> B) (s : S)
    (m : Py S A) : Py Limiter B :=
  fun w => match m (mkWorld (clock w) s) with
           | Ok (a, w') => Ok (out a, mkWorld (clock w') (inj (self w')))
           | Raise e => Raise e
           end.

Definition is_allowed (client_id : string) : Py Limiter RateLimitResponse :=
  let* l := get_self in
  match l with
  | TokenBucket s =>
      lift TokenBucket id s (TokenBucketLimiter.is_allowed client_id)
  | SlidingWindow s =>
      lift SlidingWindow id s (SlidingWindowLimiter.is_allowed client_id)
  | LeakyBucket s =>
      lift LeakyBucket id s (LeakyBucketLimiter.is_allowed client_id)
  | FixedWindow s =>
      lift FixedWindow id s (FixedWindowLimiter.is_allowed client_id)
  end.

Definition reset (client_id : string) : Py Limiter unit :=
  let* l := get_self in
  match l with
  | TokenBucket s => lift TokenBucket id s (TokenBucketLimiter.reset client_id)
  | SlidingWindow s =>
      lift SlidingWindow id s (SlidingWindowLimiter.reset client_id)
  | LeakyBucket s => lift LeakyBucket id s (LeakyBucketLimiter.reset client_id)
  | FixedWindow s => lift FixedWindow id s (FixedWindowLimiter.reset client_id)
  end.

Definition get_status (client_id : string) : Py Limiter Status :=
  let* l := get_self in
  match l with
  | TokenBucket s =>
      lift TokenBucket TokenBucketStatus s
           (TokenBucketLimiter.get_status client_id)
  | SlidingWindow s =>
      lift SlidingWindow SlidingWindowStatus s
           (SlidingWindowLimiter.get_status client_id)
  | LeakyBucket s =>
      lift LeakyBucket LeakyBucketStatus s
           (LeakyBucketLimiter.get_status client_id)
  | FixedWindow s =>
      lift FixedWindow FixedWindowStatus s
           (FixedWindowLimiter.get_status client_id)
  end.

Module RateLimiterFactory.

(** What [create] returns: an in-process limiter, or a
    [DistributedRateLimiter] whose state lives in Redis and is not
    modelled. *)
Inductive Created : Type :=
  | Local (l : Limiter)
  | Distributed (cfg : RateLimitConfig).

Definition Class : Type := RateLimitConfig -> result Limiter.

Definition construct {S} (init : RateLimitConfig -> result S)
    (inj : S -> Limiter) : Class :=
  fun cfg => match init cfg with
             | Ok s => Ok (inj s)
             | Raise e => Raise e
             end.

(** The class attribute [_limiters], used as [_limiters.get(algorithm)]. *)
Definition _limiters (a : RateLimitAlgorithm) : option Class :=
  match a with
  | TOKEN_BUCKET => Some (construct TokenBucketLimiter.init TokenBucket)
  | SLIDING_WINDOW =>
      Some (construct SlidingWindowLimiter.init SlidingWindow)
  | LEAKY_BUCKET => Some (construct LeakyBucketLimiter.init LeakyBucket)
  | FIXED_WINDOW => Some (construct FixedWindowLimiter.init FixedWindow)
  | SLIDING_WINDOW_LOG => None
  end.

Definition create (cfg : RateLimitConfig) : result Created :=
  if Config.distributed cfg then Ok (Distributed cfg)
  else
    match _limiters (Config.algorithm cfg) with
    | None => Raise (ValueError "Unknown algorithm")
    | Some limiter_class =>
        match limiter_class cfg with
        | Ok l => Ok (Local l)
        | Raise e => Raise e
        end
    end.

End RateLimiterFactory.

(** ** Running calls *)

Inductive Call : Type :=
  | IsAllowed (client_id : string)
  | Reset (client_id : string)
  | GetStatus (client_id : string).

Inductive Reply : Type :=
  | Decision (r : RateLimitResponse)
  | Done
  | Info (d : Status).

Definition call (c : Call) : Py Limiter Reply :=
  match c with
  | IsAllowed client_id => let* r := is_allowed client_id in ret (Decision r)
  | Reset client_id => let* _ := reset client_id in ret Done
  | GetStatus client_id => let* d := get_status client_id in ret (Info d)
  end.

Fixpoint run (cs : list Call) : Py Limiter (list Reply) :=
  match cs with
  | [] => ret []
  | c :: cs' => let* r := call c in let* rs := run cs' in ret (r :: rs)
  end.

(** Build a limiter with the factory, then run the calls on the clock. *)
Definition session (cfg : RateLimitConfig) (clk : Clock) (cs : list Call)
  : result (list Reply) :=
  match RateLimiterFactory.create cfg with
  | Ok (RateLimiterFactory.Local l) =>
      match run cs (mkWorld clk l) with
      | Ok (rs, _) => Ok rs
      | Raise e => Raise e
      end
  | Ok (RateLimiterFactory.Distributed _) => Ok []
  | Raise e => Raise e
  end.

Definition policy (max_requests time_window : Z) (a : RateLimitAlgorithm)
  : RateLimitConfig :=
  Config.mk max_requests time_window a None None false
            "redis://localhost:6379/0".

Definition admitted (r : Reply) : bool :=
  match r with
  | Decision d => allowed d
  | _ => false
  end.

(** ** Closed forms of the methods

    What each method computes, written without the monad; the lemmas
    [*_spec] below prove the methods equal to these. *)

Module TokenBucketSteps.
Import TokenBucketLimiter.

Definition with_bucket (s : t) (c : string) (b : Bucket) : t :=
  mk (config s) (<[c := b]> (buckets s)) (refill_rate s).

(** The bucket [self.buckets[client_id]] evaluates to, and the clock left
    after the factory has run. *)
Definition fetch (c : string) (w : World t) : Bucket * Clock :=
  match buckets (self w) !! c with
  | Some b => (b, clock w)
  | None =>
      (mkBucket (inject_Z (Config.max_requests (config (self w))))
                (clock w 0%nat) (burst_or_max (config (self w))),
       advance (clock w))
  end.

Definition refilled (rate now : Q) (b : Bucket) : Bucket :=
  mkBucket (Qmin (tokens b + (now - last_refill b) * rate)%Q
                 (inject_Z (burst_size b)))
           now (burst_size b).

Definition spend (b : Bucket) : Bucket :=
  mkBucket (tokens b - 1)%Q (last_refill b) (burst_size b).

Definition admit_response (cfg : RateLimitConfig) (now : Q) (b : Bucket)
  : RateLimitResponse :=
  mkResponse true (py_int (tokens b))
             (py_int (inject_Z (Config.time_window cfg) + now)%Q) None
             (Config.max_requests cfg - py_int (tokens b)).

Definition reject_response (cfg : RateLimitConfig) (rate now : Q)
  : RateLimitResponse :=
  mkResponse false 0 (py_int (now + inject_Z (py_int (1 / rate)))%Q)
             (Some (py_int (1 / rate)%Q)) (Config.max_requests cfg).

End TokenBucketSteps.

Module SlidingWindowSteps.
Import SlidingWindowLimiter.

Definition with_window (s : t) (c : string) (d : list Q) : t :=
  mk (config s) (<[c := d]> (windows s)).

(** The log of a client; a missing key stands for the empty deque. *)
Definition log (s : t) (c : string) : list Q :=
  match windows s !! c with
  | Some d => d
  | None => []
  end.

Definition reset_of (cfg : RateLimitConfig) (now : Q) : Z :=
  py_int (inject_Z (Config.time_window cfg) + now)%Q.

End SlidingWindowSteps.

Module LeakyBucketSteps.
Import LeakyBucketLimiter.

Definition with_bucket (s : t) (c : string) (b : Bucket) : t :=
  mk (config s) (<[c := b]> (buckets s)) (leak_rate s).

Definition fetch (c : string) (w : World t) : Bucket * Clock :=
  match buckets (self w) !! c with
  | Some b => (b, clock w)
  | None => (mkBucket [] (clock w 0%nat) 0, advance (clock w))
  end.

Definition leaked (rate now : Q) (b : Bucket) : Bucket :=
  let b' :=
    leak_loop (Z.to_nat (py_int ((now - last_leak_time b) * rate)%Q)) b in
  mkBucket (queue b') now (total_leaked b').

Definition enqueue (now : Q) (b : Bucket) : Bucket :=
  mkBucket (queue b ++ [now]) (last_leak_time b) (total_leaked b).

End LeakyBucketSteps.

Module FixedWindowSteps.
Import FixedWindowLimiter.

Definition with_window (s : t) (c : string) (win : Window) : t :=
  mk (config s) (<[c := win]> (windows s)).

(** [self.windows[client_id]] evaluated after [now] has been read. *)
Definition fetch (c : string) (w : World t) : Window * Clock :=
  match windows (self w) !! c with
  | Some win => (win, advance (clock w))
  | None => (mkWindow 0 (clock w 1%nat), advance (advance (clock w)))
  end.

Definition bump (win : Window) : Window :=
  mkWindow (count win + 1) (window_start win).

End FixedWindowSteps.

(** ** Policies, well-formed limiters and worlds used in statements *)

(** What the constructors establish and every method keeps: the rates are
    not zero and the capacity is positive. *)
Definition sound (l : Limiter) : Prop :=
  match l with
  | TokenBucket s => Qeq_bool (TokenBucketLimiter.refill_rate s) 0 = false
  | SlidingWindow s => 0 < Config.max_requests (SlidingWindowLimiter.config s)
  | LeakyBucket s => Qeq_bool (LeakyBucketLimiter.leak_rate s) 0 = false
  | FixedWindow s => True
  end.

Definition valid (cfg : RateLimitConfig) : Prop :=
  0 < Config.max_requests cfg /\ 0 < Config.time_window cfg.

Definition in_process (cfg : RateLimitConfig) : Prop :=
  Config.distributed cfg = false /\
  Config.algorithm cfg <> SLIDING_WINDOW_LOG.

(** When [create] raises, and what. *)
Definition create_failure (cfg : RateLimitConfig) (e : PyExc) : Prop :=
  Config.distributed cfg = false /\
  ((e = ValueError "Unknown algorithm"
    /\ Config.algorithm cfg = SLIDING_WINDOW_LOG)
   \/ (e = ZeroDivisionError /\ Config.time_window cfg = 0
       /\ (Config.algorithm cfg = LEAKY_BUCKET
           \/ (Config.algorithm cfg = TOKEN_BUCKET
               /\ truthy_float (Config.refill_rate cfg) = None)))).

Definition drained_bucket : World TokenBucketLimiter.t :=
  mkWorld (frozen 0)
    (TokenBucketLimiter.mk (policy 2 3 TOKEN_BUCKET)
       {[ "c"%string := TokenBucketLimiter.mkBucket 0 0 2 ]}
       (inject_Z 2 / inject_Z 3)).

(** The value a method returns or the exception it raises, without the
    world it leaves. *)
Definition answer {Self A} (r : result (A * World Self)) : result A :=
  match r with
  | Ok (a, _) => Ok a
  | Raise e => Raise e
  end.

(** ** Logs and traces used in statements *)

(** A deque whose entries do not decrease from left to right. *)
Fixpoint nondecreasing (l : list Q) : bool :=
  match l with
  | [] => true
  | a :: tl =>
      match tl with
      | [] => true
      | b :: _ => Qle_bool a b && nondecreasing tl
      end
  end.

(** [lo <= x <= hi] *)
Definition within (lo hi x : Q) : bool := Qle_bool lo x && Qle_bool x hi.

(** A call of [is_allowed]: the client, the clock reading at its start and
    the response. *)
Definition Event : Type := string * Q * RateLimitResponse.

Fixpoint trace (ids : list string) : Py Limiter (list Event) :=
  match ids with
  | [] => ret []
  | c :: ids' =>
      fun w =>
        (let* r := is_allowed c in
         let* es := trace ids' in
         ret ((c, clock w 0%nat, r) :: es)) w
  end.

(** Build a limiter with the factory and record a sequence of decisions. *)
Definition decisions (cfg : RateLimitConfig) (clk : Clock)
    (ids : list string) : result (list Event) :=
  match RateLimiterFactory.create cfg with
  | Ok (RateLimiterFactory.Local l) => answer (trace ids (mkWorld clk l))
  | Ok (RateLimiterFactory.Distributed _) => Ok []
  | Raise e => Raise e
  end.

(** The clock readings of the admitted calls of one client, in call order. *)
Definition admits (c : string) (es : list Event) : list Q :=
  map (fun e : Event => snd (fst e))
      (List.filter (fun e : Event => String.eqb (fst (fst e)) c
                                     && allowed (snd e)) es).

(** How many admitted calls of the client have their reading in
    [[lo, hi]]. *)
Definition admitted_in (c : string) (lo hi : Q) (es : list Event) : Z :=
  len (List.filter (within lo hi) (admits c es)).

(** A client whose log is full at t = 5: one request at t = 0, capacity 1,
    window 10. *)
Definition full_window : World SlidingWindowLimiter.t :=
  mkWorld (frozen 5)
    (SlidingWindowLimiter.mk (policy 1 10 SLIDING_WINDOW)
       {[ "c"%string := [0%Q] ]}).

(** ** Limiters in their steady configuration *)

Definition config_of (l : Limiter) : RateLimitConfig :=
  match l with
  | TokenBucket s => TokenBucketLimiter.config s
  | SlidingWindow s => SlidingWindowLimiter.config s
  | LeakyBucket s => LeakyBucketLimiter.config s
  | FixedWindow s => FixedWindowLimiter.config s
  end.

Definition default_rate (cfg : RateLimitConfig) : Q :=
  (inject_Z (Config.max_requests cfg) / inject_Z (Config.time_window cfg))%Q.

(** A limiter of a valid policy whose rate is the default
    [max_requests / time_window] (no explicit [refill_rate]) and, for the
    fixed window, whose window for the client was not opened after [now]. *)
Definition paced (now : Q) (c : string) (l : Limiter) : Prop :=
  valid (config_of l) /\
  match l with
  | TokenBucket s =>
      (TokenBucketLimiter.refill_rate s == default_rate (config_of l))%Q
  | SlidingWindow s => True
  | LeakyBucket s =>
      (LeakyBucketLimiter.leak_rate s == default_rate (config_of l))%Q
  | FixedWindow s =>
      forall win, FixedWindowLimiter.windows s !! c = Some win ->
                  (FixedWindowLimiter.window_start win <= now)%Q
  end.

(** A fixed window opened at t = 0.5 and already full: capacity 1,
    window 1. *)
Definition spent_window : Limiter :=
  FixedWindow
    (FixedWindowLimiter.mk (policy 1 1 FIXED_WINDOW)
       {[ "c"%string := FixedWindowLimiter.mkWindow 1 0.5 ]}).

(** A token bucket policy with an explicit refill rate of one token per
    hundred seconds. *)
Definition slow_refill : RateLimitConfig :=
  Config.mk 1 10 TOKEN_BUCKET None (Some (1 # 100)%Q) false
            "redis://localhost:6379/0".

(** ** The sliding-window invariant

    The admitted readings of each client are the current log preceded by
    entries that are already older than the window. *)
Definition sw_inv (hist : list Event) (w : World SlidingWindowLimiter.t)
  : Prop :=
  let window :=
    inject_Z (Config.time_window (SlidingWindowLimiter.config (self w))) in
  forall c, exists old,
    admits c hist = old ++ SlidingWindowSteps.log (self w) c
    /\ Forall (fun x => (x < clock w 0%nat - window)%Q) old.

(** No closed interval of length [time_window] holds more than [limit]
    admitted calls of one client. *)
Definition bounded (cfg : RateLimitConfig) (limit : Z) (es : list Event)
  : Prop :=
  forall (c : string) (t0 : Q),
    admitted_in c t0 (t0 + inject_Z (Config.time_window cfg)) es <= limit.

(** How many entries are at or after [t0]. *)
Definition since (t0 : Q) (l : list Q) : Z := len (List.filter (Qle_bool t0) l).

(** ** The token-bucket invariant

    For every client with a bucket: the bucket is at most as high as the
    burst, and the admissions since any [t0] plus the tokens left are paid
    for by a full bucket and the refill since [t0]. *)
Definition tb_inv (hist : list Event) (w : World TokenBucketLimiter.t)
  : Prop :=
  let s := self w in
  let top := Z.max 0 (TokenBucketLimiter.burst_or_max
                        (TokenBucketLimiter.config s)) in
  forall c,
    match TokenBucketLimiter.buckets s !! c with
    | None => admits c hist = []
    | Some b =>
        TokenBucketLimiter.burst_size b <= top
        /\ (TokenBucketLimiter.last_refill b <= clock w 0%nat)%Q
        /\ Forall (fun x => (x <= TokenBucketLimiter.last_refill b)%Q)
                  (admits c hist)
        /\ forall t0,
             (t0 <= TokenBucketLimiter.last_refill b)%Q ->
             (inject_Z (since t0 (admits c hist))
              + TokenBucketLimiter.tokens b
              <= inject_Z top
                 + TokenBucketLimiter.refill_rate s
                   * (TokenBucketLimiter.last_refill b - t0))%Q
    end.

(** The most admissions of one client in a closed interval of length
    [time_window], by algorithm (default rates). *)
Definition admission_limit (cfg : RateLimitConfig) : Z :=
  match Config.algorithm cfg with
  | SLIDING_WINDOW => Config.max_requests cfg
  | TOKEN_BUCKET =>
      Z.max 0 (TokenBucketLimiter.burst_or_max cfg) + Config.max_requests cfg
  | _ => 2 * Config.max_requests cfg
  end.

(** ** The leaky-bucket invariant

    For every client with a bucket: the queue holds at most [max_requests]
    entries, and the admissions since any [t0] are either still queued or
    were leaked since [t0]. *)
Definition lb_inv (hist : list Event) (w : World LeakyBucketLimiter.t)
  : Prop :=
  let s := self w in
  forall c,
    match LeakyBucketLimiter.buckets s !! c with
    | None => admits c hist = []
    | Some b =>
        len (LeakyBucketLimiter.queue b)
        <= Config.max_requests (LeakyBucketLimiter.config s)
        /\ (LeakyBucketLimiter.last_leak_time b <= clock w 0%nat)%Q
        /\ Forall (fun x => (x <= LeakyBucketLimiter.last_leak_time b)%Q)
                  (admits c hist)
        /\ forall t0,
             (t0 <= LeakyBucketLimiter.last_leak_time b)%Q ->
             (inject_Z (since t0 (admits c hist))
              <= inject_Z (len (LeakyBucketLimiter.queue b))
                 + LeakyBucketLimiter.leak_rate s
                   * (LeakyBucketLimiter.last_leak_time b - t0))%Q
    end.

(** ** The fixed-window invariant

    The admitted readings of a client split into those of the current
    window (as many as its counter), those of the window before, and older
    ones that lie more than a window before the current window start. *)
Definition fw_split (cfg : RateLimitConfig) (win : FixedWindowLimiter.Window)
    (l : list Q) : Prop :=
  let window := inject_Z (Config.time_window cfg) in
  let ws := FixedWindowLimiter.window_start win in
  exists older prev cur,
    l = older ++ prev ++ cur
    /\ len cur = FixedWindowLimiter.count win
    /\ FixedWindowLimiter.count win <= Config.max_requests cfg
    /\ len prev <= Config.max_requests cfg
    /\ Forall (fun x => (x < ws - window)%Q) older
    /\ Forall (fun x => (x < ws)%Q) prev
    /\ Forall (fun x => (x < ws + window)%Q) cur.

Definition fw_inv (hist : list Event) (w : World FixedWindowLimiter.t)
  : Prop :=
  let s := self w in
  forall c,
    match FixedWindowLimiter.windows s !! c with
    | None => admits c hist = []
    | Some win =>
        fw_split (FixedWindowLimiter.config s) win (admits c hist)
        /\ (FixedWindowLimiter.window_start win <= clock w 0%nat)%Q
    end.

(** ** The invariant of a recorded session

    The clock never decreases, the limiter is the one the factory builds
    for the policy (with its default rate), its per-client state satisfies
    the invariant of its algorithm, and the events so far respect the
    admission limit. *)
Definition session_inv (cfg : RateLimitConfig) (hist : list Event)
    (w : World Limiter) : Prop :=
  monotone (clock w)
  /\ bounded cfg (admission_limit cfg) hist
  /\ match self w with
     | TokenBucket s =>
         Config.algorithm cfg = TOKEN_BUCKET
         /\ TokenBucketLimiter.config s = cfg
         /\ TokenBucketLimiter.refill_rate s = default_rate cfg
         /\ tb_inv hist (mkWorld (clock w) s)
     | SlidingWindow s =>
         Config.algorithm cfg = SLIDING_WINDOW
         /\ SlidingWindowLimiter.config s = cfg
         /\ sw_inv hist (mkWorld (clock w) s)
     | LeakyBucket s =>
         Config.algorithm cfg = LEAKY_BUCKET
         /\ LeakyBucketLimiter.config s = cfg
         /\ LeakyBucketLimiter.leak_rate s = default_rate cfg
         /\ lb_inv hist (mkWorld (clock w) s)
     | FixedWindow s =>
         Config.algorithm cfg = FIXED_WINDOW
         /\ FixedWindowLimiter.config s = cfg
         /\ fw_inv hist (mkWorld (clock w) s)
     end.

(** The token bucket runs at its default rate: no explicit [refill_rate]. *)
Definition default_paced (cfg : RateLimitConfig) : Prop :=
  Config.algorithm cfg = TOKEN_BUCKET ->
  truthy_float (Config.refill_rate cfg) = None.

(** ** Sliding-window logs in arrival order

    Every log is nondecreasing and holds no entry after the next clock
    reading. *)
Definition sw_ordered (w : World SlidingWindowLimiter.t) : Prop :=
  forall c,
    nondecreasing (SlidingWindowSteps.log (self w) c) = true
    /\ forallb (fun t => Qle_bool t (clock w 0%nat))
               (SlidingWindowSteps.log (self w) c) = true.

(** A token bucket that was last refilled at t = 0 and is inspected at
    t = 5: capacity 2, window 10. *)
Definition idle_bucket : World TokenBucketLimiter.t :=
  mkWorld (frozen 5)
    (TokenBucketLimiter.mk (policy 2 10 TOKEN_BUCKET)
       {[ "c"%string := TokenBucketLimiter.mkBucket 0 0 2 ]}
       (inject_Z 2 / inject_Z 10)).

(** ** Further statements: what a call touches

    The client a call is made for. *)
Definition client_of (k : Call) : string :=
  match k with
  | IsAllowed c | Reset c | GetStatus c => c
  end.

(** The per-client record of a limiter, whatever its algorithm. *)
Inductive ClientState : Type :=
  | TokenBucketState (b : TokenBucketLimiter.Bucket)
  | SlidingWindowState (d : list Q)
  | LeakyBucketState (b : LeakyBucketLimiter.Bucket)
  | FixedWindowState (win : FixedWindowLimiter.Window).

Definition state_of (c : string) (l : Limiter) : option ClientState :=
  match l with
  | TokenBucket s => TokenBucketState <$> TokenBucketLimiter.buckets s !! c
  | SlidingWindow s =>
      SlidingWindowState <$> SlidingWindowLimiter.windows s !! c
  | LeakyBucket s => LeakyBucketState <$> LeakyBucketLimiter.buckets s !! c
  | FixedWindow s => FixedWindowState <$> FixedWindowLimiter.windows s !! c
  end.

(** Two limiters of one class that share the policy and the record of
    client [c]. *)
Definition agree_on (c : string) (l l' : Limiter) : Prop :=
  state_of c l = state_of c l' /\
  match l, l' with
  | TokenBucket s, TokenBucket s' =>
      TokenBucketLimiter.config s = TokenBucketLimiter.config s'
      /\ TokenBucketLimiter.refill_rate s = TokenBucketLimiter.refill_rate s'
  | SlidingWindow s, SlidingWindow s' =>
      SlidingWindowLimiter.config s = SlidingWindowLimiter.config s'
  | LeakyBucket s, LeakyBucket s' =>
      LeakyBucketLimiter.config s = LeakyBucketLimiter.config s'
      /\ LeakyBucketLimiter.leak_rate s = LeakyBucketLimiter.leak_rate s'
  | FixedWindow s, FixedWindow s' =>
      FixedWindowLimiter.config s = FixedWindowLimiter.config s'
  | _, _ => False
  end.

(** ** A run of calls at one instant

    How many calls of one client are admitted while the clock stands still:
    the capacity, and for the token bucket the smaller of capacity and
    burst. *)
Definition burst_capacity (cfg : RateLimitConfig) : Z :=
  match Config.algorithm cfg with
  | TOKEN_BUCKET =>
      Z.min (Config.max_requests cfg) (TokenBucketLimiter.burst_or_max cfg)
  | _ => Config.max_requests cfg
  end.

(** The limiter of policy [cfg] in which client [c] has been admitted [j]
    times at the instant [now] and never before. *)
Definition spent (cfg : RateLimitConfig) (now : Q) (c : string) (j : Z)
    (l : Limiter) : Prop :=
  match l with
  | TokenBucket s =>
      Config.algorithm cfg = TOKEN_BUCKET
      /\ TokenBucketLimiter.config s = cfg
      /\ Qeq_bool (TokenBucketLimiter.refill_rate s) 0 = false
      /\ match TokenBucketLimiter.buckets s !! c with
         | None => j = 0
         | Some b =>
             (TokenBucketLimiter.tokens b
              == inject_Z (burst_capacity cfg - j))%Q
             /\ (TokenBucketLimiter.last_refill b == now)%Q
             /\ TokenBucketLimiter.burst_size b
                = TokenBucketLimiter.burst_or_max cfg
         end
  | SlidingWindow s =>
      Config.algorithm cfg = SLIDING_WINDOW
      /\ SlidingWindowLimiter.config s = cfg
      /\ match SlidingWindowLimiter.windows s !! c with
         | None => j = 0
         | Some d => len d = j /\ Forall (fun t => (t == now)%Q) d
         end
  | LeakyBucket s =>
      Config.algorithm cfg = LEAKY_BUCKET
      /\ LeakyBucketLimiter.config s = cfg
      /\ Qeq_bool (LeakyBucketLimiter.leak_rate s) 0 = false
      /\ match LeakyBucketLimiter.buckets s !! c with
         | None => j = 0
         | Some b =>
             len (LeakyBucketLimiter.queue b) = j
             /\ (LeakyBucketLimiter.last_leak_time b == now)%Q
         end
  | FixedWindow s =>
      Config.algorithm cfg = FIXED_WINDOW
      /\ FixedWindowLimiter.config s = cfg
      /\ match FixedWindowLimiter.windows s !! c with
         | None => j = 0
         | Some win =>
             FixedWindowLimiter.count win = j
             /\ (FixedWindowLimiter.window_start win == now)%Q
         end
  end.

(** What the [(j+1)]-th call at one instant answers. *)
Definition burst_answer (cfg : RateLimitConfig) (j : Z)
    (r : RateLimitResponse) : Prop :=
  if j <? burst_capacity cfg
  then allowed r = true /\ remaining r = burst_capacity cfg - j - 1
  else allowed r = false /\ remaining r = 0.

(** The capacity a limiter object offers at one instant, read off its own
    policy. *)
Definition capacity_of (l : Limiter) : Z :=
  match l with
  | TokenBucket s =>
      Z.min (Config.max_requests (TokenBucketLimiter.config s))
            (TokenBucketLimiter.burst_or_max (TokenBucketLimiter.config s))
  | _ => Config.max_requests (config_of l)
  end.

(** A sliding-window limiter of capacity 3 and window 10 in which client
    [c] was admitted once, at t = 1. *)
Definition idle_limiter : Limiter :=
  SlidingWindow
    (SlidingWindowLimiter.mk (policy 3 10 SLIDING_WINDOW)
       {[ "c"%string := [1%Q] ]}).

(** ** The shape of a response

    What the fields of a response of policy [cfg] satisfy: an admitted call
    carries no [retry_after] and splits [max_requests] into [remaining] and
    [requests_in_window]; a rejected one has nothing remaining, a
    [retry_after], and at least [max_requests] requests in its window. *)
Definition consistent (cfg : RateLimitConfig) (r : RateLimitResponse)
  : Prop :=
  if allowed r
  then retry_after r = None
       /\ 0 <= remaining r
       /\ remaining r + requests_in_window r = Config.max_requests cfg
  else remaining r = 0
       /\ Config.max_requests cfg <= requests_in_window r
       /\ retry_after r <> None.

(** ** What a status says about the next decision

    Read off the dictionary [get_status] returns: the call is admitted when
    a token is left, or when the count is below the reported maximum, and
    the count of the response is the reported one, plus one if admitted. *)
Definition counted (n : Z) (r : RateLimitResponse) : Prop :=
  requests_in_window r = n + (if allowed r then 1 else 0).

Definition foretells (d : Status) (r : RateLimitResponse) : Prop :=
  match d with
  | TokenBucketStatus d =>
      allowed r = py_ge (TokenBucketLimiter.st_tokens d) 1
      /\ (allowed r = true ->
          remaining r = py_int (TokenBucketLimiter.st_tokens d - 1)%Q)
  | SlidingWindowStatus d =>
      allowed r = (SlidingWindowLimiter.st_requests_in_window d
                   <? SlidingWindowLimiter.st_max_requests d)
      /\ counted (SlidingWindowLimiter.st_requests_in_window d) r
  | LeakyBucketStatus d =>
      allowed r = (LeakyBucketLimiter.st_queue_size d
                   <? LeakyBucketLimiter.st_max_capacity d)
      /\ counted (LeakyBucketLimiter.st_queue_size d) r
  | FixedWindowStatus d =>
      allowed r = (FixedWindowLimiter.st_count d
                   <? FixedWindowLimiter.st_max_requests d)
      /\ counted (FixedWindowLimiter.st_count d) r
  end.

(** The log of client [c] is in arrival order (sliding window only). *)
Definition in_order (c : string) (l : Limiter) : Prop :=
  match l with
  | SlidingWindow s => nondecreasing (SlidingWindowSteps.log s c) = true
  | _ => True
  end.

(** ** Leaky bucket: where the admitted requests are

    The requests of a client the bucket accounts for: those still queued
    and those counted in [total_leaked]. *)
Definition accounted (c : string) (l : Limiter) : Z :=
  match l with
  | LeakyBucket s =>
      match LeakyBucketLimiter.buckets s !! c with
      | Some b =>
          len (LeakyBucketLimiter.queue b) + LeakyBucketLimiter.total_leaked b
      | None => 0
      end
  | _ => 0
  end.

(** One if the call is an admitted [is_allowed] of client [c]. *)
Definition admission (c : string) (k : Call) (r : Reply) : Z :=
  match k with
  | IsAllowed c' => if String.eqb c' c && admitted r then 1 else 0
  | _ => 0
  end.

(** How many calls of the run were admitted [is_allowed] calls of [c]. *)
Fixpoint admissions (c : string) (ks : list Call) (rs : list Reply) : Z :=
  match ks, rs with
  | k :: ks', r :: rs' => admission c k r + admissions c ks' rs'
  | _, _ => 0
  end.

(** A leaky bucket of capacity 2 whose client [c] has one request queued
    since t = 0 and three leaked before. *)
Definition used_bucket : LeakyBucketLimiter.t :=
  LeakyBucketLimiter.mk (policy 2 10 LEAKY_BUCKET)
    {[ "c"%string := LeakyBucketLimiter.mkBucket [0%Q] 0 3 ]}
    (inject_Z 2 / inject_Z 10).

(** ** A client that stayed away for a window

    At [now] the last trace client [c] left in the limiter is at least one
    [time_window] old (for the sliding window: older), the rates are the
    default ones, and the record is one the methods write: tokens not
    negative, the burst of the policy, a queue within capacity. *)
Definition rested (now : Q) (c : string) (l : Limiter) : Prop :=
  let cfg := config_of l in
  let window := inject_Z (Config.time_window cfg) in
  match l with
  | TokenBucket s =>
      (TokenBucketLimiter.refill_rate s == default_rate cfg)%Q
      /\ forall b, TokenBucketLimiter.buckets s !! c = Some b ->
           (0 <= TokenBucketLimiter.tokens b)%Q
           /\ (TokenBucketLimiter.last_refill b + window <= now)%Q
           /\ TokenBucketLimiter.burst_size b
              = TokenBucketLimiter.burst_or_max cfg
  | SlidingWindow s =>
      Forall (fun t => (t + window < now)%Q) (SlidingWindowSteps.log s c)
  | LeakyBucket s =>
      (LeakyBucketLimiter.leak_rate s == default_rate cfg)%Q
      /\ forall b, LeakyBucketLimiter.buckets s !! c = Some b ->
           len (LeakyBucketLimiter.queue b) <= Config.max_requests cfg
           /\ (LeakyBucketLimiter.last_leak_time b + window <= now)%Q
  | FixedWindow s =>
      forall win, FixedWindowLimiter.windows s !! c = Some win ->
        (FixedWindowLimiter.window_start win + window <= now)%Q
  end.

(** The response a rested client gets: admitted with a full allowance.  A
    token bucket whose burst is above [max_requests] may have saved more. *)
Definition full_allowance (l : Limiter) (r : RateLimitResponse) : Prop :=
  allowed r = true /\
  match l with
  | TokenBucket _ => capacity_of l - 1 <= remaining r
  | _ => remaining r = capacity_of l - 1 /\ requests_in_window r = 1
  end.

(** ** app.py: the Flask middleware

    What the middleware reads of a request, and what it writes of a
    response. *)
Module Flask.

(** [request.headers.get('X-API-Key')], [request.headers.get('X-Admin-Key')],
    [request.remote_addr] and [request.args.get('client_id')]; each may be
    [None]. *)
Record Request : Type := mkRequest {
  x_api_key : option string;
  x_admin_key : option string;
  remote_addr : option string;
  arg_client_id : option string
}.

(** The status code and the headers.  The header values the middleware sets
    are [str] of an integer; the integer is kept.  Bodies are left out. *)
Record Response : Type := mkHttp {
  status : Z;
  headers : gmap string Z
}.

(** [jsonify(...), code] *)
Definition jsonify (code : Z) : Response := mkHttp code ∅.

End Flask.

(** Truthiness of [Optional[str]]: [None] and the empty string are falsy. *)
Definition truthy_str (o : option string) : option string :=
  match o with
  | Some EmptyString => None
  | Some s => Some s
  | None => None
  end.

Module RateLimitMiddleware.
Import Flask.

(** [g.rate_limit_info = None] *)
Definition _before_request : option RateLimitResponse := None.

Definition _after_request (rate_limit_info : option RateLimitResponse)
    (response : Response) : Response :=
  match rate_limit_info with
  | Some info =>
      let h := <["X-RateLimit-Limit"%string := requests_in_window info]>
                 (headers response) in
      let h := <["X-RateLimit-Remaining"%string := remaining info]> h in
      let h := <["X-RateLimit-Reset"%string := reset_time info]> h in
      let h := match truthy_int (retry_after info) with
               | Some n => <["Retry-After"%string := n]> h
               | None => h
               end in
      mkHttp (status response) h
  | None => response
  end.

Definition _get_default_client_id (request : Request) : string :=
  match truthy_str (x_api_key request) with
  | Some api_key => api_key
  | None =>
      match truthy_str (remote_addr request) with
      | Some addr => addr
      | None => "unknown"%string
      end
  end.

(** The limiter [limit] builds for a route:
    [RateLimitConfig(max_requests, time_window, algorithm,
    distributed=(storage == 'redis'))] given to the factory. *)
Definition limit (max_requests time_window : Z)
    (algorithm : RateLimitAlgorithm) (storage : string)
  : result RateLimiterFactory.Created :=
  RateLimiterFactory.create
    (Config.mk max_requests time_window algorithm None None
               (String.eqb storage "redis") "redis://localhost:6379/0").

(** The wrapper [limit] puts around a view [func]; [key_func] is [None] or
    a function that returns a string.  It yields the response of the view
    or the 429, and what it stored in [g.rate_limit_info]. *)
Definition wrapper (key_func : option (Request -> string))
    (func : Request -> Response) (request : Request)
  : Py Limiter (Response * option RateLimitResponse) :=
  let client_id :=
    match key_func with
    | Some f => f request
    | None => _get_default_client_id request
    end in
  let* response := is_allowed client_id in
  if negb (allowed response)
  then ret (jsonify 429, Some response)
  else ret (func request, Some response).

(** One request to a limited route: [_before_request], the wrapped view,
    [_after_request]. *)
Definition serve (key_func : option (Request -> string))
    (func : Request -> Response) (request : Request)
  : Py Limiter Response :=
  let g := _before_request in
  let* out := wrapper key_func func request in
  let g := snd out in
  ret (_after_request g (fst out)).

End RateLimitMiddleware.

(** The client id a limited route asks the limiter about. *)
Definition client_of_request (key_func : option (Flask.Request -> string))
    (request : Flask.Request) : string :=
  match key_func with
  | Some f => f request
  | None => RateLimitMiddleware._get_default_client_id request
  end.

(** What a limited route answers when the limiter answered [r]. *)
Definition answered (func : Flask.Request -> Flask.Response)
    (request : Flask.Request) (r : RateLimitResponse)
    (resp : Flask.Response) : Prop :=
  let h := Flask.headers resp in
  Flask.status resp
  = (if allowed r then Flask.status (func request) else 429)
  /\ h !! "X-RateLimit-Limit"%string = Some (requests_in_window r)
  /\ h !! "X-RateLimit-Remaining"%string = Some (remaining r)
  /\ h !! "X-RateLimit-Reset"%string = Some (reset_time r)
  /\ h !! "Retry-After"%string
     = (if allowed r
        then Flask.headers (func request) !! "Retry-After"%string
        else truthy_int (retry_after r)).

(** The token bucket of the route [/api/public] (100 requests per 60
    seconds) with the bucket of client [c] empty at t = 0. *)
Definition public_route_drained : Limiter :=
  TokenBucket
    (TokenBucketLimiter.mk (policy 100 60 TOKEN_BUCKET)
       {[ "c"%string := TokenBucketLimiter.mkBucket 0 0 100 ]}
       (inject_Z 100 / inject_Z 60)).

(** A bucket that refills, or leaks, more than one request per second. *)
Definition fast (l : Limiter) : Prop :=
  match l with
  | TokenBucket s => (1 < TokenBucketLimiter.refill_rate s)%Q
  | LeakyBucket s => (1 < LeakyBucketLimiter.leak_rate s)%Q
  | _ => False
  end.

(** ** DistributedRateLimiter.is_allowed

    The state lives in Redis and is not modelled.  The registered Lua
    script is a function of its key and arguments that returns three
    integers or raises; whatever it raises is caught by
    [except Exception], which does not look at the exception. *)
Module DistributedRateLimiter.

Definition Script : Type := string -> Z -> Z -> Z -> result (Z * Z * Z).

(** [try: body except Exception: handler], for a body that only computes:
    it has not touched the clock or the object when it raises. *)
Definition try_except {Self A} (body handler : Py Self A) : Py Self A :=
  fun w => match body w with
           | Ok x => Ok x
           | Raise _ => handler w
           end.

Definition call_script {Self} (r : result (Z * Z * Z)) : Py Self (Z * Z * Z) :=
  match r with
  | Ok t => ret t
  | Raise e => raise e
  end.

Definition fallback (cfg : RateLimitConfig) (reset_time : Z)
  : RateLimitResponse :=
  mkResponse true (Config.max_requests cfg - 1) reset_time None 0.

Definition is_allowed (lua_script : Script) (client_id : string)
  : Py RateLimitConfig RateLimitResponse :=
  let key := ("rate_limit:" ++ client_id)%string in
  let* now := time_time in
  let* cfg := get_self in
  let reset_time := py_int (now + inject_Z (Config.time_window cfg))%Q in
  try_except
    (let* result :=
       call_script (lua_script key (py_int (now * 1000)%Q)
                      (Config.time_window cfg * 1000)
                      (Config.max_requests cfg)) in
     let '(allowed, remaining, requests_in_window) := result in
     if negb (allowed =? 0) then
       ret (mkResponse true remaining reset_time None requests_in_window)
     else
       let* q := py_truediv (inject_Z (Config.time_window cfg))
                            (inject_Z requests_in_window) in
       ret (mkResponse false 0 reset_time (Some (py_int q))
                       requests_in_window))
    (ret (fallback cfg reset_time)).

End DistributedRateLimiter.

(** The call of the script [is_allowed] makes at the next clock reading. *)
Definition script_call (lua_script : DistributedRateLimiter.Script)
    (client_id : string) (w : World RateLimitConfig)
  : result (Z * Z * Z) :=
  lua_script ("rate_limit:" ++ client_id)%string
             (py_int (clock w 0%nat * 1000)%Q)
             (Config.time_window (self w) * 1000)
             (Config.max_requests (self w)).

(** The script said no, and counted at least one request. *)
Definition refused (out : result (Z * Z * Z)) : Prop :=
  exists remaining n, out = Ok (0, remaining, n) /\ n <> 0.

(** The limiter is a sliding window whose logs are all in arrival order and
    hold nothing later than the next clock reading. *)
Definition logs_in_order (w : World Limiter) : Prop :=
  match self w with
  | SlidingWindow s => sw_ordered (mkWorld (clock w) s)
  | _ => False
  end.

(** ** app.py: the reset endpoint *)
Module Routes.
Import Flask.

(** [rate_limiter.limiters]: the limiters of the routes by key, in the
    order they were created.  Only in-process limiters are held. *)
Definition Limiters : Type := list (string * Limiter).

(** [for limiter in rate_limiter.limiters.values():
        limiter.reset(client_id)] *)
Fixpoint reset_each (client_id : string) (ls : Limiters) (clk : Clock)
  : result (Limiters * Clock) :=
  match ls with
  | [] => Ok ([], clk)
  | (key, limiter) :: rest =>
      match reset client_id (mkWorld clk limiter) with
      | Ok (_, w) =>
          match reset_each client_id rest (clock w) with
          | Ok (rest', clk') => Ok ((key, self w) :: rest', clk')
          | Raise e => Raise e
          end
      | Raise e => Raise e
      end
  end.

(** [api_key != 'admin-secret-key'] *)
Definition unauthorized (request : Request) : bool :=
  match x_admin_key request with
  | Some api_key => negb (String.eqb api_key "admin-secret-key")
  | None => true
  end.

Definition reset_endpoint (request : Request) : Py Limiters Response :=
  if unauthorized request then ret (jsonify 403)
  else
    match truthy_str (arg_client_id request) with
    | None => ret (jsonify 400)
    | Some client_id =>
        fun w =>
          match reset_each client_id (self w) (clock w) with
          | Ok (ls, clk) => Ok (jsonify 200, mkWorld clk ls)
          | Raise e => Raise e
          end
    end.

End Routes.

(** The record [reset] leaves for a client: a full bucket, an empty log, an
    empty queue, a window without requests. *)
Definition cleared (c : string) (l : Limiter) : Prop :=
  match l with
  | TokenBucket s =>
      exists t,
        TokenBucketLimiter.buckets s !! c
        = Some (TokenBucketLimiter.mkBucket
                  (inject_Z (Config.max_requests (TokenBucketLimiter.config s)))
                  t
                  (TokenBucketLimiter.burst_or_max (TokenBucketLimiter.config s)))
  | SlidingWindow s => SlidingWindowLimiter.windows s !! c = Some []
  | LeakyBucket s =>
      exists t,
        LeakyBucketLimiter.buckets s !! c
        = Some (LeakyBucketLimiter.mkBucket [] t 0)
  | FixedWindow s =>
      exists t,
        FixedWindowLimiter.windows s !! c
        = Some (FixedWindowLimiter.mkWindow 0 t)
  end.

(** What a reset request did to the limiters [ls], leaving [ls']. *)
Definition reset_outcome (request : Flask.Request)
    (resp : Flask.Response) (ls ls' : Routes.Limiters) : Prop :=
  map fst ls' = map fst ls
  /\ (forall c, Flask.arg_client_id request <> Some c ->
      Forall2 (fun kl kl' => agree_on c (snd kl) (snd kl')) ls ls')
  /\ if Routes.unauthorized request
     then Flask.status resp = 403 /\ ls' = ls
     else
       match truthy_str (Flask.arg_client_id request) with
       | None => Flask.status resp = 400 /\ ls' = ls
       | Some c =>
           Flask.status resp = 200
           /\ Flask.arg_client_id request = Some c
           /\ Forall (fun kl => cleared c (snd kl)) ls'
       end.

(** ** Nothing above capacity

    What a status dictionary reports lies between zero and the maximum the
    same dictionary reports. *)
Definition status_within (d : Status) : Prop :=
  match d with
  | TokenBucketStatus d =>
      (0 <= TokenBucketLimiter.st_tokens d)%Q
      /\ (TokenBucketLimiter.st_tokens d
          <= inject_Z (TokenBucketLimiter.st_max_tokens d))%Q
  | SlidingWindowStatus d =>
      0 <= SlidingWindowLimiter.st_requests_in_window d
        <= SlidingWindowLimiter.st_max_requests d
  | LeakyBucketStatus d =>
      0 <= LeakyBucketLimiter.st_queue_size d
        <= LeakyBucketLimiter.st_max_capacity d
      /\ 0 <= LeakyBucketLimiter.st_total_leaked d
  | FixedWindowStatus d =>
      0 <= FixedWindowLimiter.st_count d
        <= FixedWindowLimiter.st_max_requests d
  end.

Definition reply_within (r : Reply) : Prop :=
  match r with
  | Info d => status_within d
  | _ => True
  end.

(** A token-bucket policy whose burst and explicit refill rate, if given,
    are not negative. *)
Definition tame (cfg : RateLimitConfig) : Prop :=
  Config.algorithm cfg = TOKEN_BUCKET ->
  0 <= TokenBucketLimiter.burst_or_max cfg
  /\ forall r, truthy_float (Config.refill_rate cfg) = Some r -> (0 <= r)%Q.

(** A bucket the token bucket may hold at a clock reading [now]. *)
Definition good_bucket (cfg : RateLimitConfig) (now : Q)
    (b : TokenBucketLimiter.Bucket) : Prop :=
  (0 <= TokenBucketLimiter.tokens b)%Q
  /\ (TokenBucketLimiter.last_refill b <= now)%Q
  /\ TokenBucketLimiter.burst_size b = TokenBucketLimiter.burst_or_max cfg.

(** The invariant: the clock does not go back, the rates and bounds are in
    range, and every record is within capacity. *)
Definition within_capacity (w : World Limiter) : Prop :=
  monotone (clock w) /\
  match self w with
  | TokenBucket s =>
      let cfg := TokenBucketLimiter.config s in
      (0 <= TokenBucketLimiter.refill_rate s)%Q
      /\ Qeq_bool (TokenBucketLimiter.refill_rate s) 0 = false
      /\ 0 <= TokenBucketLimiter.burst_or_max cfg
      /\ 0 <= Config.max_requests cfg
      /\ forall c b, TokenBucketLimiter.buckets s !! c = Some b ->
                     good_bucket cfg (clock w 0%nat) b
  | SlidingWindow s =>
      let cfg := SlidingWindowLimiter.config s in
      0 < Config.max_requests cfg
      /\ forall c, len (SlidingWindowSteps.log s c) <= Config.max_requests cfg
  | LeakyBucket s =>
      let cfg := LeakyBucketLimiter.config s in
      Qeq_bool (LeakyBucketLimiter.leak_rate s) 0 = false
      /\ 0 <= Config.max_requests cfg
      /\ forall c b, LeakyBucketLimiter.buckets s !! c = Some b ->
                     len (LeakyBucketLimiter.queue b) <= Config.max_requests cfg
                     /\ 0 <= LeakyBucketLimiter.total_leaked b
  | FixedWindow s =>
      let cfg := FixedWindowLimiter.config s in
      0 <= Config.max_requests cfg
      /\ forall c win, FixedWindowLimiter.windows s !! c = Some win ->
                       0 <= FixedWindowLimiter.count win
                         <= Config.max_requests cfg
  end.

(** ** Leaky bucket: calls that come faster than the leak

    Client [c] has a full queue, and from its last leak on, no two
    consecutive leak readings of the clock (every second reading) are far
    enough apart for one request to leak. *)
Definition hurried (clk : Clock) (c : string) (s : LeakyBucketLimiter.t)
  : Prop :=
  let rate := LeakyBucketLimiter.leak_rate s in
  (0 < rate)%Q
  /\ monotone clk
  /\ (forall i, ((clk (S (S i)) - clk i) * rate < 1)%Q)
  /\ exists b,
       LeakyBucketLimiter.buckets s !! c = Some b
       /\ Config.max_requests (LeakyBucketLimiter.config s)
          <= len (LeakyBucketLimiter.queue b)
       /\ (LeakyBucketLimiter.last_leak_time b <= clk 0%nat)%Q
       /\ ((clk 0%nat - LeakyBucketLimiter.last_leak_time b) * rate < 1)%Q.

(** A clock that reads t = 1, 3, 5, ... *)
Definition every_two_seconds : Clock :=
  fun n => inject_Z (1 + 2 * Z.of_nat n).

(** A leaky bucket of capacity 2 per 10 seconds (one request leaks every
    5 seconds) whose client [c] filled the queue at t = 0. *)
Definition full_queue : LeakyBucketLimiter.t :=
  LeakyBucketLimiter.mk (policy 2 10 LEAKY_BUCKET)
    {[ "c"%string := LeakyBucketLimiter.mkBucket [0%Q; 0%Q] 0 0 ]}
    (inject_Z 2 / inject_Z 10).

(** * Properties *)

(** ** Scenarios of the specification *)

(** Scenario E1: capacity 10, window 60, calls at t = 0. *)
Example e1_token_bucket :
  session (policy 10 60 TOKEN_BUCKET) (frozen 0)
          (replicate 12 (IsAllowed "c1"))
  = Ok (map (fun r => Decision (mkResponse true r 60 None (10 - r)))
            [9; 8; 7; 6; 5; 4; 3; 2; 1; 0]
        ++ replicate 2 (Decision (mkResponse false 0 6 (Some 6) 10))).
Proof. vm_compute. reflexivity. Qed.

(** Scenario E2: capacity 5, window 10; seven calls at t = 0, two at
    t = 11. *)
Example e2_sliding_window :
  option_map (map admitted)
    (match session (policy 5 10 SLIDING_WINDOW)
             (scripted (replicate 7 0%Q) 11)
             (replicate 9 (IsAllowed "c2")) with
     | Ok rs => Some rs | Raise _ => None end)
  = Some [true; true; true; true; true; false; false; true; true].
Proof. vm_compute. reflexivity. Qed.

(** Scenario E3: capacity 5, window 10; seven calls at t = 0, one at
    t = 2.  The new client costs one extra reading, every call two for
    [_leak] and its branch, and every admission one more for the queue. *)
Example e3_leaky_bucket :
  option_map (map admitted)
    (match session (policy 5 10 LEAKY_BUCKET)
             (scripted (replicate 20 0%Q) 2)
             (replicate 8 (IsAllowed "c3")) with
     | Ok rs => Some rs | Raise _ => None end)
  = Some [true; true; true; true; true; false; false; true].
Proof. vm_compute. reflexivity. Qed.

(** Scenario E5: capacity 10, window 5; the window is opened at t = 0 by
    a reset, ten calls at t = 4.9, ten more at t = 5. *)
Example e5_fixed_window :
  option_map (map admitted)
    (match session (policy 10 5 FIXED_WINDOW)
             (scripted (0 :: replicate 10 4.9)%Q 5)
             (Reset "c5" :: replicate 20 (IsAllowed "c5")) with
     | Ok rs => Some rs | Raise _ => None end)
  = Some (false :: replicate 20 true).
Proof. vm_compute. reflexivity. Qed.

(** ** Numerics *)

Lemma py_int_comp (x y : Q) : (x == y)%Q -> py_int x = py_int y.
Proof.
  intros H. unfold py_int.
  rewrite (Qleb_comp _ _ (Qeq_refl 0) _ _ H).
  destruct (Qle_bool 0 y).
  - now apply Qfloor_comp.
  - now apply Qceiling_comp.
Qed.

Lemma py_int_nonneg (x : Q) : (0 <= x)%Q -> py_int x = Qfloor x.
Proof.
  intros H. unfold py_int.
  apply Qle_bool_iff in H. now rewrite H.
Qed.

Lemma py_int_neg (x : Q) : (x < 0)%Q -> py_int x = Qceiling x.
Proof.
  intros H. unfold py_int.
  destruct (Qle_bool 0 x) eqn:E; [|reflexivity].
  apply Qle_bool_iff in E. lra.
Qed.

Lemma py_int_Z (z : Z) : py_int (inject_Z z) = z.
Proof.
  unfold py_int. destruct (Qle_bool 0 (inject_Z z)).
  - apply Qfloor_Z.
  - apply Qceiling_Z.
Qed.

(** Truncation moves a number by less than one. *)
Lemma py_int_lower (x : Q) : (x - 1 < inject_Z (py_int x))%Q.
Proof.
  unfold py_int. destruct (Qle_bool 0 x).
  - pose proof (Qlt_floor x) as H. rewrite inject_Z_plus in H.
    change (inject_Z 1) with 1%Q in H. lra.
  - pose proof (Qle_ceiling x). lra.
Qed.

Lemma py_int_upper (x : Q) : (inject_Z (py_int x) < x + 1)%Q.
Proof.
  unfold py_int. destruct (Qle_bool 0 x).
  - pose proof (Qfloor_le x). lra.
  - pose proof (Qceiling_lt x) as H.
    unfold Z.sub in H. rewrite inject_Z_plus, inject_Z_opp in H.
    change (inject_Z 1) with 1%Q in H. lra.
Qed.

Lemma py_int_le (x : Q) : (0 <= x)%Q -> (inject_Z (py_int x) <= x)%Q.
Proof. intros H. rewrite py_int_nonneg by exact H. apply Qfloor_le. Qed.

Lemma py_int_mono (x y : Q) :
  (0 <= x)%Q -> (x <= y)%Q -> py_int x <= py_int y.
Proof.
  intros Hx Hxy. rewrite !py_int_nonneg by lra. now apply Qfloor_resp_le.
Qed.

Lemma py_ge_true (a b : Q) : py_ge a b = true <-> (b <= a)%Q.
Proof. unfold py_ge. apply Qle_bool_iff. Qed.

Lemma py_ge_false (a b : Q) : py_ge a b = false <-> (a < b)%Q.
Proof.
  unfold py_ge. split; intros H.
  - apply Qnot_le_lt. intros H'. apply Qle_bool_iff in H'. congruence.
  - destruct (Qle_bool b a) eqn:E; [|reflexivity].
    apply Qle_bool_iff in E. lra.
Qed.

Lemma py_lt_true (a b : Q) : py_lt a b = true <-> (a < b)%Q.
Proof.
  unfold py_lt. rewrite negb_true_iff. apply py_ge_false.
Qed.

Lemma py_lt_false (a b : Q) : py_lt a b = false <-> (b <= a)%Q.
Proof.
  unfold py_lt. rewrite negb_false_iff. apply py_ge_true.
Qed.

Lemma py_ge_comp (a a' b b' : Q) :
  (a == a')%Q -> (b == b')%Q -> py_ge a b = py_ge a' b'.
Proof. intros Ha Hb. unfold py_ge. now apply Qleb_comp. Qed.

(** ** Stepping through the method monad *)

Ltac py_unfold :=
  unfold bind, ret, raise, get_self, set_self, time_time, py_truediv, lift in *.

Module TokenBucketFacts.
Import TokenBucketLimiter TokenBucketSteps.

Lemma tb_get_bucket_spec (c : string) (w : World t) :
  get_bucket c w =
  match buckets (self w) !! c with
  | Some b => Ok (b, w)
  | None =>
      Ok (fst (fetch c w),
          mkWorld (snd (fetch c w)) (with_bucket (self w) c (fst (fetch c w))))
  end.
Proof.
  unfold get_bucket, default_bucket, set_bucket, fetch. py_unfold.
  destruct (buckets (self w) !! c); reflexivity.
Qed.

Lemma tb_get_bucket_hit (c : string) (clk : Clock) (s : t) (b : Bucket) :
  get_bucket c (mkWorld clk (with_bucket s c b))
  = Ok (b, mkWorld clk (with_bucket s c b)).
Proof.
  rewrite tb_get_bucket_spec. cbn. now rewrite lookup_insert_eq.
Qed.

Lemma tb_with_bucket_twice (s : t) (c : string) (b b' : Bucket) :
  with_bucket (with_bucket s c b) c b' = with_bucket s c b'.
Proof. unfold with_bucket. cbn. now rewrite insert_insert_eq. Qed.

Lemma tb_refill_spec (c : string) (w : World t) :
  _refill c w =
  let (b, clk) := fetch c w in
  let b' := refilled (refill_rate (self w)) (clk 0%nat) b in
  Ok (tokens b', mkWorld (advance clk) (with_bucket (self w) c b')).
Proof.
  unfold _refill. unfold bind at 1. rewrite tb_get_bucket_spec.
  unfold fetch, set_bucket. py_unfold.
  destruct (buckets (self w) !! c); unfold with_bucket; cbn -[Qmin].
  - reflexivity.
  - now rewrite insert_insert_eq.
Qed.

Lemma tb_is_allowed_spec (c : string) (w : World t) :
  is_allowed c w =
  let (b, clk) := fetch c w in
  let rate := refill_rate (self w) in
  let b' := refilled rate (clk 0%nat) b in
  if py_ge (tokens b') 1 then
    Ok (admit_response (config (self w)) (clk 1%nat) (spend b'),
        mkWorld (advance (advance clk)) (with_bucket (self w) c (spend b')))
  else if Qeq_bool rate 0 then Raise ZeroDivisionError
  else
    Ok (reject_response (config (self w)) rate (clk 1%nat),
        mkWorld (advance (advance clk)) (with_bucket (self w) c b')).
Proof.
  unfold is_allowed. unfold bind at 1. rewrite tb_refill_spec.
  destruct (fetch c w) as [b clk]. cbn -[Qmin refilled].
  unfold bind at 1. rewrite tb_get_bucket_hit.
  unfold set_bucket. py_unfold. cbn -[Qmin refilled].
  destruct (py_ge _ 1).
  - unfold with_bucket. cbn -[Qmin refilled]. now rewrite insert_insert_eq.
  - destruct (Qeq_bool (refill_rate (self w)) 0); reflexivity.
Qed.

Lemma tb_reset_spec (c : string) (w : World t) :
  reset c w =
  Ok (tt, mkWorld (advance (clock w))
            (with_bucket (self w) c
               (mkBucket (inject_Z (Config.max_requests (config (self w))))
                         (clock w 0%nat) (burst_or_max (config (self w)))))).
Proof. reflexivity. Qed.

Lemma tb_get_status_spec (c : string) (w : World t) :
  get_status c w =
  let (b, clk) := fetch c w in
  let b' := refilled (refill_rate (self w)) (clk 0%nat) b in
  Ok (mkStatus "token_bucket" (tokens b') (burst_size b')
               (refill_rate (self w)),
      mkWorld (advance clk) (with_bucket (self w) c b')).
Proof.
  unfold get_status. unfold bind at 1. rewrite tb_refill_spec.
  destruct (fetch c w) as [b clk]. cbn -[Qmin refilled].
  unfold bind at 1. rewrite tb_get_bucket_hit. reflexivity.
Qed.

End TokenBucketFacts.

Module SlidingWindowFacts.
Import SlidingWindowLimiter SlidingWindowSteps.

Lemma sw_get_window_spec (c : string) (w : World t) :
  get_window c w =
  Ok (log (self w) c,
      mkWorld (clock w) (with_window (self w) c (log (self w) c))).
Proof.
  unfold get_window, set_window, log, with_window. py_unfold.
  destruct (windows (self w) !! c) as [d|] eqn:E; cbn; [|reflexivity].
  rewrite insert_id by exact E. now destruct w as [clk [cfg ws]].
Qed.

Lemma sw_reset_time_branches (cfg : RateLimitConfig) (now : Q) (l : list Q) :
  match l with
  | _ :: _ => py_int (inject_Z (Config.time_window cfg) + now)%Q
  | [] => py_int (now + inject_Z (Config.time_window cfg))%Q
  end = reset_of cfg now.
Proof.
  destruct l; [|reflexivity]. apply py_int_comp. ring.
Qed.

Lemma sw_is_allowed_spec (c : string) (w : World t) :
  is_allowed c w =
  let now := clock w 0%nat in
  let cfg := config (self w) in
  let window_start := (now - inject_Z (Config.time_window cfg))%Q in
  let l := evict window_start (log (self w) c) in
  if len l <? Config.max_requests cfg then
    Ok (mkResponse true (Config.max_requests cfg - len l - 1)
                   (reset_of cfg now) None (len l + 1),
        mkWorld (advance (clock w)) (with_window (self w) c (l ++ [now])))
  else
    match l with
    | [] => Raise IndexError
    | w0 :: _ =>
        Ok (mkResponse false 0 (reset_of cfg now)
                       (Some (py_int (w0 - window_start + 1)%Q)) (len l),
            mkWorld (advance (clock w)) (with_window (self w) c l))
    end.
Proof.
  unfold is_allowed. unfold bind at 1. cbn.
  unfold bind at 1. rewrite sw_get_window_spec.
  unfold set_window, front. py_unfold. cbn.
  rewrite sw_reset_time_branches.
  unfold with_window. cbn. rewrite !insert_insert_eq.
  destruct (len _ <? _).
  - cbn. now rewrite insert_insert_eq.
  - destruct (evict _ _); reflexivity.
Qed.

Lemma sw_reset_spec (c : string) (w : World t) :
  reset c w = Ok (tt, mkWorld (clock w) (with_window (self w) c [])).
Proof.
  unfold reset. unfold bind at 1. rewrite sw_get_window_spec.
  unfold set_window, with_window. py_unfold. cbn.
  now rewrite insert_insert_eq.
Qed.

Lemma sw_get_status_spec (c : string) (w : World t) :
  get_status c w =
  let now := clock w 0%nat in
  let cfg := config (self w) in
  let window_start := (now - inject_Z (Config.time_window cfg))%Q in
  Ok (mkStatus "sliding_window"
        (len (List.filter (fun t => py_ge t window_start)
                          (log (self w) c)))
        (Config.max_requests cfg) (Config.time_window cfg),
      mkWorld (advance (clock w))
              (with_window (self w) c (log (self w) c))).
Proof.
  unfold get_status. unfold bind at 1. cbn.
  unfold bind at 1. now rewrite sw_get_window_spec.
Qed.

End SlidingWindowFacts.

Module LeakyBucketFacts.
Import LeakyBucketLimiter LeakyBucketSteps.

Lemma lb_get_bucket_hit (c : string) (clk : Clock) (s : t) (b : Bucket) :
  get_bucket c (mkWorld clk (with_bucket s c b))
  = Ok (b, mkWorld clk (with_bucket s c b)).
Proof.
  unfold get_bucket. py_unfold. cbn. now rewrite lookup_insert_eq.
Qed.

Lemma lb_leak_spec (c : string) (w : World t) :
  _leak c w =
  let (b, clk) := fetch c w in
  let b' := leaked (leak_rate (self w)) (clk 0%nat) b in
  Ok (len (queue b'), mkWorld (advance clk) (with_bucket (self w) c b')).
Proof.
  unfold _leak, get_bucket, default_bucket, set_bucket, fetch, with_bucket.
  py_unfold.
  destruct (buckets (self w) !! c); cbn.
  - reflexivity.
  - now rewrite insert_insert_eq.
Qed.

Lemma lb_is_allowed_spec (c : string) (w : World t) :
  is_allowed c w =
  let (b, clk) := fetch c w in
  let rate := leak_rate (self w) in
  let cfg := config (self w) in
  let b' := leaked rate (clk 0%nat) b in
  let n := len (queue b') in
  if n <? Config.max_requests cfg then
    Ok (mkResponse true (Config.max_requests cfg - n - 1)
                   (py_int (inject_Z (Config.time_window cfg) + clk 2%nat)%Q)
                   None (n + 1),
        mkWorld (advance (advance (advance clk)))
                (with_bucket (self w) c (enqueue (clk 1%nat) b')))
  else if Qeq_bool rate 0 then Raise ZeroDivisionError
  else
    Ok (mkResponse false 0
                   (py_int (clk 1%nat + inject_Z (py_int (1 / rate)))%Q)
                   (Some (py_int (1 / rate)%Q)) n,
        mkWorld (advance (advance clk)) (with_bucket (self w) c b')).
Proof.
  unfold is_allowed. unfold bind at 1. rewrite lb_leak_spec.
  destruct (fetch c w) as [b clk]. cbn -[leaked].
  unfold bind at 1. rewrite lb_get_bucket_hit.
  unfold set_bucket, with_bucket. py_unfold. cbn -[leaked].
  destruct (len _ <? _).
  - cbn -[leaked]. now rewrite insert_insert_eq.
  - destruct (Qeq_bool (leak_rate (self w)) 0); reflexivity.
Qed.

Lemma lb_reset_spec (c : string) (w : World t) :
  reset c w =
  Ok (tt, mkWorld (advance (clock w))
            (with_bucket (self w) c (mkBucket [] (clock w 0%nat) 0))).
Proof. reflexivity. Qed.

Lemma lb_get_status_spec (c : string) (w : World t) :
  get_status c w =
  let (b, clk) := fetch c w in
  let b' := leaked (leak_rate (self w)) (clk 0%nat) b in
  Ok (mkStatus "leaky_bucket" (len (queue b'))
               (Config.max_requests (config (self w)))
               (leak_rate (self w)) (total_leaked b'),
      mkWorld (advance clk) (with_bucket (self w) c b')).
Proof.
  unfold get_status. unfold bind at 1. rewrite lb_leak_spec.
  destruct (fetch c w) as [b clk]. cbn -[leaked with_bucket get_bucket].
  unfold bind. now rewrite lb_get_bucket_hit.
Qed.

End LeakyBucketFacts.

Module FixedWindowFacts.
Import FixedWindowLimiter FixedWindowSteps.

Lemma fw_is_allowed_spec (c : string) (w : World t) :
  is_allowed c w =
  let now := clock w 0%nat in
  let cfg := config (self w) in
  let (win, clk) := fetch c w in
  let win' := roll cfg now win in
  let reset_time :=
    py_int (window_start win' + inject_Z (Config.time_window cfg))%Q in
  if count win' <? Config.max_requests cfg then
    Ok (mkResponse true (Config.max_requests cfg - (count win' + 1))
                   reset_time None (count win' + 1),
        mkWorld clk (with_window (self w) c (bump win')))
  else
    Ok (mkResponse false 0 reset_time
                   (Some (py_int (inject_Z reset_time - now)%Q))
                   (count win'),
        mkWorld clk (with_window (self w) c win')).
Proof.
  unfold is_allowed, get_window, default_window, set_window, fetch,
    with_window.
  py_unfold. cbn.
  destruct (windows (self w) !! c); cbn.
  - destruct (count _ <? _); cbn; now rewrite ?insert_insert_eq.
  - rewrite insert_insert_eq.
    destruct (count _ <? _); cbn; now rewrite ?insert_insert_eq.
Qed.

Lemma fw_reset_spec (c : string) (w : World t) :
  reset c w =
  Ok (tt, mkWorld (advance (clock w))
            (with_window (self w) c (mkWindow 0 (clock w 0%nat)))).
Proof. reflexivity. Qed.

Lemma fw_get_status_spec (c : string) (w : World t) :
  get_status c w =
  let now := clock w 0%nat in
  let cfg := config (self w) in
  let (win, clk) := fetch c w in
  let win' := roll cfg now win in
  Ok (mkStatus "fixed_window" (count win') (Config.max_requests cfg)
        (py_int (window_start win' + inject_Z (Config.time_window cfg)
                 - now)%Q),
      mkWorld clk (with_window (self w) c win')).
Proof.
  unfold get_status, get_window, default_window, set_window, fetch,
    with_window.
  py_unfold. cbn.
  destruct (windows (self w) !! c); cbn; now rewrite ?insert_insert_eq.
Qed.

End FixedWindowFacts.

(** ** Totality *)

Lemma ratio_nonzero (a b : Z) :
  0 < a -> 0 < b -> Qeq_bool (inject_Z a / inject_Z b) 0 = false.
Proof.
  intros Ha Hb.
  destruct (Qeq_bool (inject_Z a / inject_Z b) 0) eqn:E; [|reflexivity].
  apply Qeq_bool_iff in E.
  assert (Ha' : (0 < inject_Z a)%Q).
  { change 0%Q with (inject_Z 0). rewrite <- Zlt_Qlt. exact Ha. }
  assert (Hb' : (0 < inject_Z b)%Q).
  { change 0%Q with (inject_Z 0). rewrite <- Zlt_Qlt. exact Hb. }
  assert (H : (0 < inject_Z a / inject_Z b)%Q).
  { apply Qlt_shift_div_l; [exact Hb'|]. lra. }
  lra.
Qed.

Lemma truthy_float_nonzero (o : option Q) (r : Q) :
  truthy_float o = Some r -> Qeq_bool r 0 = false.
Proof.
  destruct o as [q|]; cbn; [|discriminate].
  destruct (Qeq_bool q 0) eqn:E; [discriminate|]. now intros [= <-].
Qed.

Lemma create_sound (cfg : RateLimitConfig) :
  valid cfg -> in_process cfg ->
  exists l, RateLimiterFactory.create cfg = Ok (RateLimiterFactory.Local l)
            /\ sound l.
Proof.
  intros [Hm Hw] [Hd Ha]. unfold RateLimiterFactory.create. rewrite Hd.
  assert (Hz : (Config.time_window cfg =? 0) = false) by lia.
  destruct (Config.algorithm cfg) eqn:E; cbn; try congruence.
  - unfold RateLimiterFactory.construct, TokenBucketLimiter.init.
    destruct (truthy_float (Config.refill_rate cfg)) as [r|] eqn:Er.
    + eexists. split; [reflexivity|]. cbn.
      now apply truthy_float_nonzero with (o := Config.refill_rate cfg).
    + rewrite Hz. eexists. split; [reflexivity|]. cbn.
      now apply ratio_nonzero.
  - eexists. split; [reflexivity|]. exact Hm.
  - unfold RateLimiterFactory.construct, LeakyBucketLimiter.init.
    rewrite Hz. eexists. split; [reflexivity|]. cbn. now apply ratio_nonzero.
  - eexists. split; [reflexivity|]. exact I.
Qed.

Lemma evict_nonempty_full (cutoff : Q) (l : list Q) (m : Z) :
  0 < m -> (len (SlidingWindowLimiter.evict cutoff l) <? m) = false ->
  SlidingWindowLimiter.evict cutoff l <> [].
Proof.
  intros Hm H E. rewrite E in H. apply Z.ltb_ge in H.
  unfold len in H. cbn in H. lia.
Qed.

Lemma is_allowed_total (c : string) (w : World Limiter) :
  sound (self w) ->
  exists r w', is_allowed c w = Ok (r, w') /\ sound (self w').
Proof.
  destruct w as [clk [s|s|s|s]]; cbn [self sound]; intros Hs;
    unfold is_allowed, lift, bind, get_self; cbn [self clock].
  - rewrite TokenBucketFacts.tb_is_allowed_spec.
    destruct (TokenBucketSteps.fetch c _) as [b clk']. cbn -[Qmin].
    rewrite Hs. destruct (py_ge _ 1); eauto.
  - rewrite SlidingWindowFacts.sw_is_allowed_spec. cbn.
    destruct (len _ <? _) eqn:E; [eauto|].
    pose proof (evict_nonempty_full _ _ _ Hs E) as Hne.
    destruct (SlidingWindowLimiter.evict _ _); [congruence|eauto].
  - rewrite LeakyBucketFacts.lb_is_allowed_spec.
    destruct (LeakyBucketSteps.fetch c _) as [b clk']. cbn.
    rewrite Hs. destruct (len _ <? _); eauto.
  - rewrite FixedWindowFacts.fw_is_allowed_spec.
    destruct (FixedWindowSteps.fetch c _) as [win clk']. cbn.
    destruct (FixedWindowLimiter.count _ <? _); eauto.
Qed.

Lemma reset_total (c : string) (w : World Limiter) :
  sound (self w) ->
  exists w', reset c w = Ok (tt, w') /\ sound (self w').
Proof.
  destruct w as [clk [s|s|s|s]]; cbn [self sound]; intros Hs;
    unfold reset, lift, bind, get_self; cbn [self clock].
  - rewrite TokenBucketFacts.tb_reset_spec. eauto.
  - rewrite SlidingWindowFacts.sw_reset_spec. eauto.
  - rewrite LeakyBucketFacts.lb_reset_spec. eauto.
  - rewrite FixedWindowFacts.fw_reset_spec. eauto.
Qed.

Lemma get_status_total (c : string) (w : World Limiter) :
  sound (self w) ->
  exists d w', get_status c w = Ok (d, w') /\ sound (self w').
Proof.
  destruct w as [clk [s|s|s|s]]; cbn [self sound]; intros Hs;
    unfold get_status, lift, bind, get_self; cbn [self clock].
  - rewrite TokenBucketFacts.tb_get_status_spec.
    destruct (TokenBucketSteps.fetch c _) as [b clk']. cbn -[Qmin]. eauto.
  - rewrite SlidingWindowFacts.sw_get_status_spec. cbn. eauto.
  - rewrite LeakyBucketFacts.lb_get_status_spec.
    destruct (LeakyBucketSteps.fetch c _) as [b clk']. cbn. eauto.
  - rewrite FixedWindowFacts.fw_get_status_spec.
    destruct (FixedWindowSteps.fetch c _) as [win clk']. cbn. eauto.
Qed.

Lemma call_total (k : Call) (w : World Limiter) :
  sound (self w) ->
  exists r w', call k w = Ok (r, w') /\ sound (self w').
Proof.
  intros Hs. destruct k as [c|c|c]; unfold call, bind, ret.
  - destruct (is_allowed_total c w Hs) as (r & w' & -> & Hs'). eauto.
  - destruct (reset_total c w Hs) as (w' & -> & Hs'). eauto.
  - destruct (get_status_total c w Hs) as (d & w' & -> & Hs'). eauto.
Qed.

Lemma run_total (cs : list Call) (w : World Limiter) :
  sound (self w) ->
  exists rs w', run cs w = Ok (rs, w') /\ length rs = length cs
                /\ sound (self w').
Proof.
  revert w. induction cs as [|k cs IH]; intros w Hs.
  - exists [], w. now split.
  - destruct (call_total k w Hs) as (r & w1 & Hk & Hs1).
    destruct (IH w1 Hs1) as (rs & w2 & Hrun & Hlen & Hs2).
    exists (r :: rs), w2. cbn [run]. unfold bind, ret.
    rewrite Hk, Hrun. cbn. auto.
Qed.


Lemma run_app (cs cs' : list Call) (w : World Limiter) :
  run (cs ++ cs') w =
  match run cs w with
  | Ok (rs, w1) =>
      match run cs' w1 with
      | Ok (rs', w2) => Ok (rs ++ rs', w2)
      | Raise e => Raise e
      end
  | Raise e => Raise e
  end.
Proof.
  revert w. induction cs as [|k cs IH]; intros w; cbn [run app].
  - unfold ret. destruct (run cs' w) as [[rs' w2]|e]; reflexivity.
  - unfold bind, ret. destruct (call k w) as [[r w1]|e]; [|reflexivity].
    rewrite IH. destruct (run cs w1) as [[rs w2]|e]; [|reflexivity].
    destruct (run cs' w2) as [[rs' w3]|e]; reflexivity.
Qed.

(** ** Token bucket: the rejected response *)




(** ** Construction and the factory *)

Lemma is_allowed_raises (c : string) (w : World Limiter) (e : PyExc) :
  is_allowed c w = Raise e -> e = ZeroDivisionError \/ e = IndexError.
Proof.
  destruct w as [clk [s|s|s|s]];
    unfold is_allowed, lift, bind, get_self; cbn [self clock].
  - rewrite TokenBucketFacts.tb_is_allowed_spec.
    destruct (TokenBucketSteps.fetch c _) as [b clk']. cbn -[Qmin].
    destruct (py_ge _ 1); [discriminate|].
    destruct (Qeq_bool _ 0); [|discriminate]. intros [= <-]. now left.
  - rewrite SlidingWindowFacts.sw_is_allowed_spec. cbn.
    destruct (len _ <? _); [discriminate|].
    destruct (SlidingWindowLimiter.evict _ _); [|discriminate].
    intros [= <-]. now right.
  - rewrite LeakyBucketFacts.lb_is_allowed_spec.
    destruct (LeakyBucketSteps.fetch c _) as [b clk']. cbn.
    destruct (len _ <? _); [discriminate|].
    destruct (Qeq_bool _ 0); [|discriminate]. intros [= <-]. now left.
  - rewrite FixedWindowFacts.fw_is_allowed_spec.
    destruct (FixedWindowSteps.fetch c _) as [win clk']. cbn.
    destruct (FixedWindowLimiter.count _ <? _); discriminate.
Qed.



(** C6 at the failing input: the fifth declared algorithm is not in
    [_limiters], so [create] raises for it. *)
Theorem sliding_window_log_is_unknown :
  RateLimiterFactory.create (policy 10 60 SLIDING_WINDOW_LOG)
  = Raise (ValueError "Unknown algorithm").
Proof. reflexivity. Qed.

(** ** Client identifiers *)


Lemma policy_valid (m tw : Z) (a : RateLimitAlgorithm) :
  0 < m -> 0 < tw -> valid (policy m tw a).
Proof. intros; split; assumption. Qed.




(** ** Inspecting before deciding *)

Lemma Qmin_settled (x b d : Q) :
  (d == 0)%Q -> (Qmin (Qmin x b + d) b == Qmin x b)%Q.
Proof.
  intros Hd. rewrite Hd, Qplus_0_r. apply Q.min_l. apply Q.le_min_r.
Qed.

Lemma tb_inspect_then_decide (s : TokenBucketLimiter.t) (now : Q)
    (c : string) :
  answer ((let* _ := TokenBucketLimiter.get_status c in
           TokenBucketLimiter.is_allowed c) (mkWorld (frozen now) s))
  = answer (TokenBucketLimiter.is_allowed c (mkWorld (frozen now) s)).
Proof.
  unfold bind. rewrite TokenBucketFacts.tb_get_status_spec.
  rewrite (TokenBucketFacts.tb_is_allowed_spec c (mkWorld (frozen now) s)).
  assert (Hfetch : exists b,
             TokenBucketSteps.fetch c (mkWorld (frozen now) s)
             = (b, frozen now)).
  { unfold TokenBucketSteps.fetch. cbn [self clock].
    destruct (TokenBucketLimiter.buckets s !! c); eauto. }
  destruct Hfetch as [b ->]. cbn [fst snd self clock].
  change (advance (frozen now)) with (frozen now).
  rewrite TokenBucketFacts.tb_is_allowed_spec.
  unfold TokenBucketSteps.fetch. cbn [self clock].
  unfold TokenBucketSteps.with_bucket at 1.
  cbn [TokenBucketLimiter.buckets]. rewrite lookup_insert_eq.
  cbn [TokenBucketLimiter.refill_rate TokenBucketLimiter.config
         TokenBucketSteps.with_bucket].
  set (rate := TokenBucketLimiter.refill_rate s).
  set (b1 := TokenBucketSteps.refilled rate (frozen now 0%nat) b).
  assert (Htk : (TokenBucketLimiter.tokens
                   (TokenBucketSteps.refilled rate (frozen now 0%nat) b1)
                 == TokenBucketLimiter.tokens b1)%Q).
  { unfold b1, TokenBucketSteps.refilled.
    cbn [TokenBucketLimiter.tokens TokenBucketLimiter.last_refill
           TokenBucketLimiter.burst_size].
    apply Qmin_settled. ring. }
  rewrite (py_ge_comp _ _ 1 1 Htk (Qeq_refl 1)).
  destruct (py_ge (TokenBucketLimiter.tokens b1) 1).
  - cbn [answer]. f_equal. unfold TokenBucketSteps.admit_response.
    assert (Hint : py_int (TokenBucketLimiter.tokens
                     (TokenBucketSteps.spend
                        (TokenBucketSteps.refilled rate (frozen now 0%nat)
                           b1)))
                   = py_int (TokenBucketLimiter.tokens
                               (TokenBucketSteps.spend b1))).
    { apply py_int_comp. unfold TokenBucketSteps.spend.
      cbn [TokenBucketLimiter.tokens]. now rewrite Htk. }
    now rewrite Hint.
  - destruct (Qeq_bool rate 0); reflexivity.
Qed.

Lemma sw_inspect_then_decide (s : SlidingWindowLimiter.t) (now : Q)
    (c : string) :
  answer ((let* _ := SlidingWindowLimiter.get_status c in
           SlidingWindowLimiter.is_allowed c) (mkWorld (frozen now) s))
  = answer (SlidingWindowLimiter.is_allowed c (mkWorld (frozen now) s)).
Proof.
  unfold bind. rewrite SlidingWindowFacts.sw_get_status_spec.
  cbn zeta. rewrite !SlidingWindowFacts.sw_is_allowed_spec.
  cbn [self clock]. change (advance (frozen now)) with (frozen now).
  assert (Hlog : SlidingWindowSteps.log
                   (SlidingWindowSteps.with_window s c
                      (SlidingWindowSteps.log s c)) c
                 = SlidingWindowSteps.log s c).
  { unfold SlidingWindowSteps.log at 1, SlidingWindowSteps.with_window.
    cbn [SlidingWindowLimiter.windows]. now rewrite lookup_insert_eq. }
  rewrite Hlog. cbn [SlidingWindowSteps.with_window SlidingWindowLimiter.config].
  destruct (len _ <? _); [reflexivity|].
  destruct (SlidingWindowLimiter.evict _ _); reflexivity.
Qed.

Lemma py_int_zero (x : Q) : (x == 0)%Q -> py_int x = 0.
Proof. intros H. now rewrite (py_int_comp x 0 H). Qed.

Lemma leaked_twice (rate now : Q) (b : LeakyBucketLimiter.Bucket) :
  LeakyBucketSteps.leaked rate now (LeakyBucketSteps.leaked rate now b)
  = LeakyBucketSteps.leaked rate now b.
Proof.
  unfold LeakyBucketSteps.leaked. cbn zeta.
  cbn [LeakyBucketLimiter.last_leak_time].
  rewrite (py_int_zero ((now - now) * rate)) by ring.
  reflexivity.
Qed.

Lemma lb_inspect_then_decide (s : LeakyBucketLimiter.t) (now : Q)
    (c : string) :
  answer ((let* _ := LeakyBucketLimiter.get_status c in
           LeakyBucketLimiter.is_allowed c) (mkWorld (frozen now) s))
  = answer (LeakyBucketLimiter.is_allowed c (mkWorld (frozen now) s)).
Proof.
  unfold bind. rewrite LeakyBucketFacts.lb_get_status_spec.
  rewrite (LeakyBucketFacts.lb_is_allowed_spec c (mkWorld (frozen now) s)).
  assert (Hfetch : exists b,
             LeakyBucketSteps.fetch c (mkWorld (frozen now) s)
             = (b, frozen now)).
  { unfold LeakyBucketSteps.fetch. cbn [self clock].
    destruct (LeakyBucketLimiter.buckets s !! c); eauto. }
  destruct Hfetch as [b ->]. cbn [fst snd self clock].
  change (advance (frozen now)) with (frozen now).
  rewrite LeakyBucketFacts.lb_is_allowed_spec.
  unfold LeakyBucketSteps.fetch. cbn [self clock].
  unfold LeakyBucketSteps.with_bucket at 1.
  cbn [LeakyBucketLimiter.buckets]. rewrite lookup_insert_eq.
  cbn [LeakyBucketLimiter.leak_rate LeakyBucketLimiter.config
         LeakyBucketSteps.with_bucket].
  set (rate := LeakyBucketLimiter.leak_rate s).
  rewrite leaked_twice.
  destruct (len _ <? _); [reflexivity|].
  destruct (Qeq_bool rate 0); reflexivity.
Qed.

Lemma roll_twice (cfg : RateLimitConfig) (now : Q)
    (win : FixedWindowLimiter.Window) :
  FixedWindowLimiter.roll cfg now (FixedWindowLimiter.roll cfg now win)
  = FixedWindowLimiter.roll cfg now win.
Proof.
  unfold FixedWindowLimiter.roll.
  destruct (py_ge (now - FixedWindowLimiter.window_start win) _) eqn:E;
    cbn [FixedWindowLimiter.window_start].
  - destruct (py_ge (now - now) _); reflexivity.
  - now rewrite E.
Qed.

Lemma fw_inspect_then_decide (s : FixedWindowLimiter.t) (now : Q)
    (c : string) :
  answer ((let* _ := FixedWindowLimiter.get_status c in
           FixedWindowLimiter.is_allowed c) (mkWorld (frozen now) s))
  = answer (FixedWindowLimiter.is_allowed c (mkWorld (frozen now) s)).
Proof.
  unfold bind. rewrite FixedWindowFacts.fw_get_status_spec.
  rewrite (FixedWindowFacts.fw_is_allowed_spec c (mkWorld (frozen now) s)).
  assert (Hfetch : exists win,
             FixedWindowSteps.fetch c (mkWorld (frozen now) s)
             = (win, frozen now)).
  { unfold FixedWindowSteps.fetch. cbn [self clock].
    destruct (FixedWindowLimiter.windows s !! c); eauto. }
  destruct Hfetch as [win ->]. cbn [fst snd self clock].
  rewrite FixedWindowFacts.fw_is_allowed_spec.
  unfold FixedWindowSteps.fetch. cbn [self clock].
  unfold FixedWindowSteps.with_window at 1.
  cbn [FixedWindowLimiter.windows]. rewrite lookup_insert_eq.
  cbn [FixedWindowLimiter.config FixedWindowSteps.with_window].
  rewrite roll_twice.
  destruct (FixedWindowLimiter.count _ <? _); reflexivity.
Qed.

(** C10.  At a fixed clock reading, [get_status] followed by [is_allowed]
    returns the same response (or raises the same exception) as
    [is_allowed] alone, for each of the four limiters and every state,
    although [get_status] refills, leaks or rolls the window. *)
Theorem inspect_then_decide (l : Limiter) (now : Q) (client_id : string) :
  answer ((let* _ := get_status client_id in is_allowed client_id)
            (mkWorld (frozen now) l))
  = answer (is_allowed client_id (mkWorld (frozen now) l)).
Proof.
  destruct l as [s|s|s|s];
    [ pose proof (tb_inspect_then_decide s now client_id) as H
    | pose proof (sw_inspect_then_decide s now client_id) as H
    | pose proof (lb_inspect_then_decide s now client_id) as H
    | pose proof (fw_inspect_then_decide s now client_id) as H ];
    revert H; unfold get_status, is_allowed, lift, bind, get_self, id;
    cbn [self clock];
    repeat match goal with
           | |- context [match ?m with Ok _ => _ | Raise _ => _ end] =>
               destruct m as [[? [? ?]]|?]; cbn [self clock answer]
           end;
    congruence.
Qed.

(** ** Sliding window: eviction, admission and the rejected response *)

Lemma evict_front (cutoff w0 : Q) (l rest : list Q) :
  SlidingWindowLimiter.evict cutoff l = w0 :: rest -> (cutoff <= w0)%Q.
Proof.
  induction l as [|a l IH]; cbn; [discriminate|].
  destruct (py_lt a cutoff) eqn:E; [exact IH|].
  intros [= -> _]. now apply py_lt_false.
Qed.

(** Eviction drops a prefix whose entries are all below the cutoff. *)
Lemma evict_split (cutoff : Q) (l : list Q) :
  exists old, l = old ++ SlidingWindowLimiter.evict cutoff l
              /\ Forall (fun x => (x < cutoff)%Q) old.
Proof.
  induction l as [|a l (old & Hl & Hold)]; cbn.
  - exists []. now split.
  - destruct (py_lt a cutoff) eqn:E.
    + exists (a :: old). split; [cbn; congruence|].
      constructor; [now apply py_lt_true|exact Hold].
    + exists []. now split.
Qed.

Lemma nondecreasing_tail (a : Q) (l : list Q) :
  nondecreasing (a :: l) = true -> nondecreasing l = true.
Proof.
  cbn. destruct l as [|b l]; [reflexivity|].
  intros H. now apply andb_true_iff in H.
Qed.

Lemma nondecreasing_above (a : Q) (l : list Q) :
  nondecreasing (a :: l) = true -> Forall (fun x => (a <= x)%Q) l.
Proof.
  revert a. induction l as [|b l IH]; intros a H; [constructor|].
  cbn in H. apply andb_true_iff in H. destruct H as [Hab Hl].
  apply Qle_bool_iff in Hab. constructor; [exact Hab|].
  specialize (IH b Hl). eapply Forall_impl; [exact IH|].
  cbn. intros x Hx. lra.
Qed.

(** On a nondecreasing log the loop keeps exactly the entries that are not
    below the cutoff; an entry equal to the cutoff stays. *)
Lemma evict_sorted (cutoff : Q) (l : list Q) :
  nondecreasing l = true ->
  SlidingWindowLimiter.evict cutoff l
  = List.filter (fun t => py_ge t cutoff) l.
Proof.
  induction l as [|a l IH]; intros Hs; [reflexivity|].
  cbn [SlidingWindowLimiter.evict List.filter]. unfold py_lt, py_ge.
  destruct (Qle_bool cutoff a) eqn:E; cbn [negb].
  - f_equal. apply Qle_bool_iff in E.
    pose proof (nondecreasing_above a l Hs) as Hab.
    clear IH Hs. induction Hab as [|b l Hb _ IH]; [reflexivity|].
    cbn. assert (Hc : Qle_bool cutoff b = true)
      by (apply Qle_bool_iff; lra).
    rewrite Hc. now f_equal.
  - apply IH. now apply nondecreasing_tail with (a := a).
Qed.

Lemma floor_ceiling (x : Q) :
  Qceiling x = Qfloor x + 1 \/ (inject_Z (Qfloor x) == x)%Q.
Proof.
  pose proof (Qle_floor_ceiling x) as Hfc.
  pose proof (Qceiling_lt x) as Hc. pose proof (Qlt_floor x) as Hf.
  pose proof (Qfloor_le x) as Hf'. pose proof (Qle_ceiling x) as Hc'.
  assert (Hlt : (inject_Z (Qceiling x - 1) < inject_Z (Qfloor x + 1))%Q)
    by (eapply Qlt_trans; eassumption).
  rewrite <- Zlt_Qlt in Hlt. rewrite <- Zle_Qle in Hfc.
  destruct (Z.eq_dec (Qceiling x) (Qfloor x)) as [E|NE].
  - right. rewrite E in Hc'. lra.
  - left. lia.
Qed.

(** C3, amended.  For a positive capacity [is_allowed] returns a response;
    when the log is empty after eviction its [reset_time] is
    [int(now + window)]; when the call is rejected the log has a front
    [w0] and [retry_after = floor(w0 + window - now) + 1], which is at least
    1 and is the ceiling of [w0 + window - now] unless that difference is an
    integer. *)
Theorem sliding_window_retry_after (c : string)
    (w : World SlidingWindowLimiter.t) :
  let cfg := SlidingWindowLimiter.config (self w) in
  let now := clock w 0%nat in
  let window := inject_Z (Config.time_window cfg) in
  let l := SlidingWindowLimiter.evict (now - window)
             (SlidingWindowSteps.log (self w) c) in
  0 < Config.max_requests cfg ->
  exists r w',
    SlidingWindowLimiter.is_allowed c w = Ok (r, w')
    /\ (l = [] -> reset_time r = py_int (now + window))
    /\ (allowed r = false ->
        exists w0 rest (x : Q),
          l = w0 :: rest /\ (x == w0 + window - now)%Q
          /\ retry_after r = Some (Qfloor x + 1)
          /\ 1 <= Qfloor x + 1
          /\ (Qfloor x + 1 = Qceiling x \/ (inject_Z (Qfloor x) == x)%Q)).
Proof.
  intros cfg now window l Hm.
  rewrite SlidingWindowFacts.sw_is_allowed_spec. cbn zeta.
  fold cfg now window l.
  destruct (len l <? Config.max_requests cfg) eqn:E.
  - eexists _, _. split; [reflexivity|]. cbn [allowed reset_time].
    split; [|discriminate].
    intros _. unfold SlidingWindowSteps.reset_of. apply py_int_comp.
    fold window. ring.
  - destruct l as [|w0 rest] eqn:El.
    { apply Z.ltb_ge in E. unfold len in E. cbn in E. lia. }
    eexists _, _. split; [reflexivity|]. cbn [allowed retry_after].
    split; [discriminate|]. intros _.
    exists w0, rest, (w0 - (now - window))%Q.
    assert (Hx : (0 <= w0 - (now - window))%Q).
    { pose proof (evict_front _ _ _ _ El). lra. }
    split; [reflexivity|]. split; [ring|]. split.
    + f_equal. rewrite py_int_nonneg by lra.
      pose proof (Qfloor_le (w0 - (now - window) + 1)) as H1.
      pose proof (Qlt_floor (w0 - (now - window) + 1)) as H2.
      pose proof (Qfloor_le (w0 - (now - window))) as H3.
      pose proof (Qlt_floor (w0 - (now - window))) as H4.
      rewrite inject_Z_plus in H2, H4.
      change (inject_Z 1) with 1%Q in H2, H4.
      assert (Ha : (inject_Z (Qfloor (w0 - (now - window) + 1))
                    < inject_Z (Qfloor (w0 - (now - window)) + 1 + 1))%Q).
      { rewrite !inject_Z_plus. change (inject_Z 1) with 1%Q. lra. }
      assert (Hb : (inject_Z (Qfloor (w0 - (now - window)) + 1)
                    < inject_Z (Qfloor (w0 - (now - window) + 1) + 1))%Q).
      { rewrite !inject_Z_plus. change (inject_Z 1) with 1%Q. lra. }
      rewrite <- Zlt_Qlt in Ha, Hb. lia.
    + split.
      * assert (H0 : Qfloor 0 <= Qfloor (w0 - (now - window)))
          by now apply Qfloor_resp_le.
        change (Qfloor 0) with 0 in H0. lia.
      * destruct (floor_ceiling (w0 - (now - window))) as [H|H];
          [left; lia|right; exact H].
Qed.

Lemma sliding_window_retry_after_witness :
  exists r w',
    SlidingWindowLimiter.is_allowed "c" full_window = Ok (r, w')
    /\ retry_after r = Some 6.
Proof.
  destruct (sliding_window_retry_after "c" full_window)
    as (r & w' & Hr & _ & Hrej); [cbn; lia|].
  exists r, w'. split; [exact Hr|].
  rewrite SlidingWindowFacts.sw_is_allowed_spec in Hr.
  vm_compute in Hr. injection Hr as <- _. reflexivity.
Defined.

(** C3 as stated fails.  Capacity 2, window 10, calls at t = 0, 5, 5: the
    second call is admitted on the non-empty log [0] with [reset_time = 15],
    not [0 + 10]; the third is rejected with [reset_time = 15] and
    [retry_after = 6], not [10] and [ceil(0 + 10 - 5) = 5]. *)
Lemma sliding_window_reset_is_now_plus_window :
  session (policy 2 10 SLIDING_WINDOW) (scripted [0%Q] 5)
          (replicate 3 (IsAllowed "c"))
  = Ok [Decision (mkResponse true 1 10 None 1);
        Decision (mkResponse true 0 15 None 2);
        Decision (mkResponse false 0 15 (Some 6) 2)]
  /\ 15 <> Qfloor (0 + inject_Z 10)
  /\ 6 <> Z.max 1 (Qceiling (0 + inject_Z 10 - 5)).
Proof.
  split; [vm_compute; reflexivity|]. split; vm_compute; discriminate.
Qed.

Lemma log_with_window (s : SlidingWindowLimiter.t) (c : string) (l : list Q) :
  SlidingWindowSteps.log (SlidingWindowSteps.with_window s c l) c = l.
Proof.
  unfold SlidingWindowSteps.log, SlidingWindowSteps.with_window.
  cbn [SlidingWindowLimiter.windows]. now rewrite lookup_insert_eq.
Qed.

Lemma log_with_window_ne (s : SlidingWindowLimiter.t) (c c' : string)
    (l : list Q) :
  c <> c' ->
  SlidingWindowSteps.log (SlidingWindowSteps.with_window s c l) c'
  = SlidingWindowSteps.log s c'.
Proof.
  intros Hne. unfold SlidingWindowSteps.log, SlidingWindowSteps.with_window.
  cbn [SlidingWindowLimiter.windows]. now rewrite lookup_insert_ne.
Qed.

Lemma filter_within_bounded (cutoff now : Q) (l : list Q) :
  forallb (fun t => Qle_bool t now) l = true ->
  List.filter (fun t => py_ge t cutoff) l
  = List.filter (within cutoff now) l.
Proof.
  induction l as [|a l IH]; [reflexivity|]. cbn [forallb List.filter].
  intros H. apply andb_true_iff in H. destruct H as [Ha Hl].
  unfold within at 1, py_ge at 1. rewrite Ha, andb_true_r.
  rewrite (IH Hl). reflexivity.
Qed.

(** C8, amended.  On a nondecreasing log whose entries are not after [now],
    the loop evicts exactly the timestamps strictly below [now - window]
    (one equal to the cutoff stays), the request is admitted if and only if
    the number of timestamps in the closed interval [[now - window, now]] is
    below the capacity, and the log becomes those timestamps, followed by
    [now] when admitted. *)
Theorem sliding_window_admission (c : string)
    (w : World SlidingWindowLimiter.t) :
  let cfg := SlidingWindowLimiter.config (self w) in
  let now := clock w 0%nat in
  let cutoff := (now - inject_Z (Config.time_window cfg))%Q in
  let l := SlidingWindowSteps.log (self w) c in
  let kept := List.filter (within cutoff now) l in
  0 < Config.max_requests cfg ->
  nondecreasing l = true ->
  forallb (fun t => Qle_bool t now) l = true ->
  exists r w',
    SlidingWindowLimiter.is_allowed c w = Ok (r, w')
    /\ SlidingWindowLimiter.evict cutoff l = kept
    /\ (allowed r = true <-> len kept < Config.max_requests cfg)
    /\ SlidingWindowSteps.log (self w') c
       = kept ++ (if allowed r then [now] else []).
Proof.
  intros cfg now cutoff l kept Hm Hs Hb.
  assert (Hk : SlidingWindowLimiter.evict cutoff l = kept).
  { unfold kept. rewrite evict_sorted by exact Hs.
    now apply filter_within_bounded. }
  rewrite SlidingWindowFacts.sw_is_allowed_spec. cbn zeta.
  fold cfg now cutoff l. rewrite Hk.
  destruct (len kept <? Config.max_requests cfg) eqn:E.
  - eexists _, _. split; [reflexivity|]. split; [reflexivity|].
    cbn [allowed self]. rewrite log_with_window.
    split; [|reflexivity]. apply Z.ltb_lt in E. tauto.
  - destruct kept as [|w0 rest] eqn:Ek.
    { apply Z.ltb_ge in E. unfold len in E. cbn in E. lia. }
    eexists _, _. split; [reflexivity|]. split; [reflexivity|].
    cbn [allowed self]. rewrite log_with_window, app_nil_r.
    split; [|reflexivity]. apply Z.ltb_ge in E.
    split; [discriminate|lia].
Qed.

Lemma sliding_window_admission_witness :
  exists r w',
    SlidingWindowLimiter.is_allowed "c" full_window = Ok (r, w')
    /\ allowed r = false.
Proof.
  destruct (sliding_window_admission "c" full_window)
    as (r & w' & Hr & _ & Hadm & _);
    [cbn; lia|reflexivity|reflexivity|].
  exists r, w'. split; [exact Hr|].
  destruct (allowed r); [|reflexivity].
  destruct Hadm as [Hadm _]. specialize (Hadm eq_refl).
  vm_compute in Hadm. discriminate.
Defined.

(** C8 as stated fails.  Capacity 1, window 10: the request at t = 0 is
    still counted at t = 10, where the cutoff is 0, so the second call is
    rejected; evicting timestamps [<= cutoff] would admit it. *)
Lemma sliding_window_keeps_the_cutoff :
  session (policy 1 10 SLIDING_WINDOW) (scripted [0%Q] 10)
          (replicate 2 (IsAllowed "c"))
  = Ok [Decision (mkResponse true 0 10 None 1);
        Decision (mkResponse false 0 20 (Some 1) 1)]
  /\ SlidingWindowLimiter.evict (10 - inject_Z 10) [0%Q] = [0%Q]
  /\ List.filter (fun t => negb (Qle_bool t (10 - inject_Z 10))) [0%Q] = [].
Proof.
  split; [vm_compute; reflexivity|]. split; reflexivity.
Qed.

(** ** Rejections: where [reset_time] lies *)

Lemma inject_Z_pos (z : Z) : 0 < z -> (0 < inject_Z z)%Q.
Proof.
  intros H. change 0%Q with (inject_Z 0). now rewrite <- Zlt_Qlt.
Qed.

Lemma inject_Z_ge1 (z : Z) : 0 < z -> (1 <= inject_Z z)%Q.
Proof.
  intros H. change 1%Q with (inject_Z 1). rewrite <- Zle_Qle. lia.
Qed.

(** With the default rate, [int(1 / rate)] is between 0 and the window. *)
Lemma default_retry_bounds (cfg : RateLimitConfig) (rate : Q) :
  valid cfg -> (rate == default_rate cfg)%Q ->
  (0 <= inject_Z (py_int (1 / rate)))%Q
  /\ (inject_Z (py_int (1 / rate)) <= inject_Z (Config.time_window cfg))%Q.
Proof.
  intros [Hm Hw] Hr. unfold default_rate in Hr.
  pose proof (inject_Z_pos _ Hm) as Hm'. pose proof (inject_Z_pos _ Hw) as Hw'.
  pose proof (inject_Z_ge1 _ Hm) as Hm1.
  set (m := inject_Z (Config.max_requests cfg)) in *.
  set (tw := inject_Z (Config.time_window cfg)) in *.
  assert (Hinv : (1 / rate == tw / m)%Q).
  { rewrite Hr. field. split; lra. }
  rewrite (py_int_comp _ _ Hinv).
  assert (Hpos : (0 < tw / m)%Q) by (apply Qlt_shift_div_l; lra).
  assert (Hle : (tw / m <= tw)%Q).
  { apply Qle_shift_div_r; [lra|]. nra. }
  rewrite py_int_nonneg by lra. split.
  - change 0%Q with (inject_Z 0). rewrite <- Zle_Qle.
    change 0 with (Qfloor 0). apply Qfloor_resp_le. lra.
  - pose proof (Qfloor_le (tw / m)). lra.
Qed.




(** ** Sliding window: the admission bound *)

Lemma admits_snoc (c c' : string) (t : Q) (r : RateLimitResponse)
    (hist : list Event) :
  admits c' (hist ++ [(c, t, r)])
  = admits c' hist ++ (if String.eqb c c' && allowed r then [t] else []).
Proof.
  unfold admits. rewrite List.filter_app, map_app. cbn [List.filter fst snd].
  destruct (String.eqb c c' && allowed r); reflexivity.
Qed.

Lemma filter_all_below (lo hi : Q) (l : list Q) :
  Forall (fun x => (x < lo)%Q) l -> List.filter (within lo hi) l = [].
Proof.
  induction 1 as [|x l Hx _ IH]; [reflexivity|]. cbn [List.filter].
  unfold within at 1.
  assert (E : Qle_bool lo x = false).
  { destruct (Qle_bool lo x) eqn:E; [|reflexivity].
    apply Qle_bool_iff in E. lra. }
  rewrite E. exact IH.
Qed.

Lemma len_filter_le {A} (f : A -> bool) (l : list A) :
  len (List.filter f l) <= len l.
Proof.
  unfold len. apply inj_le.
  induction l as [|a l IH]; cbn; [lia|]. destruct (f a); cbn; lia.
Qed.

Lemma len_app {A} (l l' : list A) : len (l ++ l') = len l + len l'.
Proof. unfold len. rewrite length_app. lia. Qed.

Lemma Forall_below_weaken (a b : Q) (l : list Q) :
  (a <= b)%Q -> Forall (fun x => (x < a)%Q) l ->
  Forall (fun x => (x < b)%Q) l.
Proof.
  intros Hab H. eapply Forall_impl; [exact H|]. cbn. intros x Hx. lra.
Qed.

Lemma sw_step (cfg : RateLimitConfig) (hist : list Event) (c : string)
    (w : World SlidingWindowLimiter.t) :
  SlidingWindowLimiter.config (self w) = cfg ->
  0 < Config.max_requests cfg ->
  (clock w 0%nat <= clock w 1%nat)%Q ->
  sw_inv hist w -> bounded cfg (Config.max_requests cfg) hist ->
  exists r w',
    SlidingWindowLimiter.is_allowed c w = Ok (r, w')
    /\ SlidingWindowLimiter.config (self w') = cfg
    /\ clock w' = advance (clock w)
    /\ sw_inv (hist ++ [(c, clock w 0%nat, r)]) w'
    /\ bounded cfg (Config.max_requests cfg)
               (hist ++ [(c, clock w 0%nat, r)]).
Proof.
  intros <- Hm Hclk Hinv Hb.
  rewrite SlidingWindowFacts.sw_is_allowed_spec. cbn zeta.
  unfold sw_inv in *.
  set (cfg := SlidingWindowLimiter.config (self w)) in *.
  set (now := clock w 0%nat) in *.
  set (window := inject_Z (Config.time_window cfg)) in *.
  set (l0 := SlidingWindowSteps.log (self w) c).
  destruct (evict_split (now - window) l0) as (ev & Hl0 & Hev).
  set (l := SlidingWindowLimiter.evict (now - window) l0) in *.
  destruct (Hinv c) as (old & Hold & Holdlt). fold l0 in Hold.
  assert (Hother : forall (r : RateLimitResponse) (l' : list Q) c',
             c <> c' ->
             exists old',
               admits c' (hist ++ [(c, now, r)])
               = old' ++ SlidingWindowSteps.log
                           (SlidingWindowSteps.with_window (self w) c l') c'
               /\ Forall (fun x => (x < clock w 1%nat - window)%Q) old').
  { intros r l' c' Hne. destruct (Hinv c') as (old' & Ho & Holt).
    exists old'. rewrite admits_snoc, log_with_window_ne by exact Hne.
    assert (E : String.eqb c c' = false) by now apply String.eqb_neq.
    rewrite E. cbn [andb]. rewrite app_nil_r. split; [exact Ho|].
    eapply Forall_below_weaken; [|exact Holt]. lra. }
  assert (Hsame : forall (r : RateLimitResponse) c' t0,
             String.eqb c c' && allowed r = false ->
             admitted_in c' t0 (t0 + window) (hist ++ [(c, now, r)])
             <= Config.max_requests cfg).
  { intros r c' t0 E. unfold admitted_in. rewrite admits_snoc, E, app_nil_r.
    apply Hb. }
  destruct (len l <? Config.max_requests cfg) eqn:E.
  - apply Z.ltb_lt in E. eexists _, _. split; [reflexivity|].
    cbn [self clock SlidingWindowSteps.with_window SlidingWindowLimiter.config].
    split; [reflexivity|]. fold cfg window. split; [reflexivity|]. split.
    + intros c'. destruct (decide (c = c')) as [<-|Hne].
      * exists (old ++ ev).
        rewrite admits_snoc, String.eqb_refl. cbn [andb allowed].
        fold (SlidingWindowSteps.with_window (self w) c (l ++ [now])).
        rewrite log_with_window, Hold, Hl0, <- !app_assoc.
        split; [reflexivity|]. apply Forall_app. split.
        -- eapply Forall_below_weaken; [|exact Holdlt].
           unfold advance. lra.
        -- eapply Forall_below_weaken; [|exact Hev]. unfold advance. lra.
      * fold (SlidingWindowSteps.with_window (self w) c (l ++ [now])).
        now apply Hother.
    + intros c' t0. destruct (decide (c = c')) as [<-|Hne].
      2:{ apply Hsame. apply String.eqb_neq in Hne. now rewrite Hne. }
      unfold admitted_in. rewrite admits_snoc, String.eqb_refl.
      cbn [andb allowed]. rewrite List.filter_app. cbn [List.filter].
      fold window.
      destruct (within t0 (t0 + window) now) eqn:Ein.
      2:{ rewrite app_nil_r. apply Hb. }
      unfold within in Ein. apply andb_true_iff in Ein.
      destruct Ein as [_ Ehi]. apply Qle_bool_iff in Ehi.
      rewrite Hold, Hl0, !List.filter_app.
      rewrite (filter_all_below t0 (t0 + window) old)
        by (eapply Forall_below_weaken; [|exact Holdlt]; lra).
      rewrite (filter_all_below t0 (t0 + window) ev)
        by (eapply Forall_below_weaken; [|exact Hev]; lra).
      cbn [app]. rewrite len_app.
      pose proof (len_filter_le (within t0 (t0 + window)) l).
      unfold len at 2. cbn. lia.
  - destruct l as [|w0 rest] eqn:El.
    { apply Z.ltb_ge in E. unfold len in E. cbn in E. lia. }
    eexists _, _. split; [reflexivity|].
    cbn [self clock SlidingWindowSteps.with_window SlidingWindowLimiter.config].
    split; [reflexivity|]. fold cfg window. split; [reflexivity|]. split.
    + intros c'. destruct (decide (c = c')) as [<-|Hne].
      * exists (old ++ ev).
        rewrite admits_snoc. rewrite andb_false_r, app_nil_r.
        fold (SlidingWindowSteps.with_window (self w) c (w0 :: rest)).
        rewrite log_with_window, Hold, Hl0, <- !app_assoc.
        split; [reflexivity|]. apply Forall_app. split.
        -- eapply Forall_below_weaken; [|exact Holdlt].
           unfold advance. lra.
        -- eapply Forall_below_weaken; [|exact Hev]. unfold advance. lra.
      * fold (SlidingWindowSteps.with_window (self w) c (w0 :: rest)).
        now apply Hother.
    + intros c' t0. apply Hsame. apply andb_false_r.
Qed.

Lemma monotone_advance (clk : Clock) : monotone clk -> monotone (advance clk).
Proof. intros H n. apply (H (S n)). Qed.

Lemma monotone_le (clk : Clock) (i j : nat) :
  monotone clk -> (i <= j)%nat -> (clk i <= clk j)%Q.
Proof.
  intros H Hij. induction Hij as [|j _ IH]; [apply Qle_refl|].
  eapply Qle_trans; [exact IH|apply H].
Qed.

(** ** Counting admissions *)

Lemma since_snoc (t0 x : Q) (l : list Q) :
  since t0 (l ++ [x]) = since t0 l + (if Qle_bool t0 x then 1 else 0).
Proof.
  unfold since. rewrite List.filter_app, len_app. cbn [List.filter].
  destruct (Qle_bool t0 x); unfold len; cbn; lia.
Qed.

Lemma since_nonneg (t0 : Q) (l : list Q) : 0 <= since t0 l.
Proof. unfold since, len. lia. Qed.

Lemma since_le_len (t0 : Q) (l : list Q) : since t0 l <= len l.
Proof. apply len_filter_le. Qed.

Lemma since_zero (t0 lr : Q) (l : list Q) :
  Forall (fun x => (x <= lr)%Q) l -> (lr < t0)%Q -> since t0 l = 0.
Proof.
  intros H Hlt. unfold since.
  induction H as [|x l Hx _ IH]; [reflexivity|]. cbn [List.filter].
  assert (E : Qle_bool t0 x = false).
  { destruct (Qle_bool t0 x) eqn:E; [|reflexivity].
    apply Qle_bool_iff in E. lra. }
  now rewrite E.
Qed.

Lemma within_le_since (lo hi : Q) (l : list Q) :
  len (List.filter (within lo hi) l) <= since lo l.
Proof.
  unfold since, len. apply inj_le.
  induction l as [|x l IH]; [reflexivity|]. cbn [List.filter].
  unfold within at 1. destruct (Qle_bool lo x); cbn [andb].
  - destruct (Qle_bool x hi); cbn [length]; lia.
  - exact IH.
Qed.

Lemma Forall_le_weaken (a b : Q) (l : list Q) :
  (a <= b)%Q -> Forall (fun x => (x <= a)%Q) l ->
  Forall (fun x => (x <= b)%Q) l.
Proof.
  intros Hab H. eapply Forall_impl; [exact H|]. cbn. intros x Hx. lra.
Qed.

(** An event of another client, or a rejection, changes no count. *)
Lemma bounded_skip (cfg : RateLimitConfig) (limit : Z) (hist : list Event)
    (c : string) (t : Q) (r : RateLimitResponse) :
  bounded cfg limit hist -> allowed r = false ->
  bounded cfg limit (hist ++ [(c, t, r)]).
Proof.
  intros Hb Hr c' t0. unfold admitted_in.
  rewrite admits_snoc, Hr, andb_false_r, app_nil_r. apply Hb.
Qed.

(** Adding an admitted event of [c]: other clients keep their counts, and
    for [c] it is enough to bound the intervals that contain the event. *)
Lemma bounded_grant (cfg : RateLimitConfig) (limit : Z) (hist : list Event)
    (c : string) (t : Q) (r : RateLimitResponse) :
  bounded cfg limit hist ->
  (forall t0,
     (t0 <= t)%Q -> (t <= t0 + inject_Z (Config.time_window cfg))%Q ->
     since t0 (admits c hist) + 1 <= limit) ->
  bounded cfg limit (hist ++ [(c, t, r)]).
Proof.
  intros Hb Hin c' t0. unfold admitted_in. rewrite admits_snoc.
  destruct (String.eqb c c' && allowed r) eqn:E.
  2:{ rewrite app_nil_r. apply Hb. }
  apply andb_true_iff in E. destruct E as [Ec _].
  apply String.eqb_eq in Ec. subst c'.
  rewrite List.filter_app. cbn [List.filter].
  destruct (within t0 _ t) eqn:Ein.
  2:{ rewrite app_nil_r. apply Hb. }
  unfold within in Ein. apply andb_true_iff in Ein.
  destruct Ein as [Elo Ehi]. apply Qle_bool_iff in Elo, Ehi.
  rewrite len_app. unfold len at 2. cbn [length].
  pose proof (within_le_since t0 (t0 + inject_Z (Config.time_window cfg))
                (admits c hist)).
  specialize (Hin t0 Elo Ehi). lia.
Qed.

(** ** Token bucket: the admission bound *)

Lemma scaled_nonneg (rate d : Q) : (0 <= rate)%Q -> (0 <= d)%Q ->
  (0 <= rate * d)%Q.
Proof. intros. now apply Qmult_le_0_compat. Qed.

Lemma scaled_le (rate a b : Q) : (0 <= rate)%Q -> (a <= b)%Q ->
  (rate * a <= rate * b)%Q.
Proof.
  intros Hr Hab. rewrite !(Qmult_comm rate). now apply Qmult_le_compat_r.
Qed.

Lemma tb_refill_potential (top : Z) (rate now : Q)
    (b : TokenBucketLimiter.Bucket) (l : list Q) :
  (0 <= rate)%Q ->
  TokenBucketLimiter.burst_size b <= top ->
  Forall (fun x => (x <= TokenBucketLimiter.last_refill b)%Q) l ->
  (forall t0, (t0 <= TokenBucketLimiter.last_refill b)%Q ->
     (inject_Z (since t0 l) + TokenBucketLimiter.tokens b
      <= inject_Z top + rate * (TokenBucketLimiter.last_refill b - t0))%Q) ->
  (TokenBucketLimiter.last_refill b <= now)%Q ->
  forall t0, (t0 <= now)%Q ->
    (inject_Z (since t0 l)
     + TokenBucketLimiter.tokens (TokenBucketSteps.refilled rate now b)
     <= inject_Z top + rate * (now - t0))%Q.
Proof.
  intros Hrate Hburst Hl Hpot Hnow t0 Ht0.
  unfold TokenBucketSteps.refilled. cbn [TokenBucketLimiter.tokens].
  set (lr := TokenBucketLimiter.last_refill b) in *.
  set (tk := TokenBucketLimiter.tokens b) in *.
  set (m := Qmin (tk + (now - lr) * rate)
                 (inject_Z (TokenBucketLimiter.burst_size b))).
  assert (Hm1 : (m <= tk + (now - lr) * rate)%Q) by apply Q.le_min_l.
  assert (Hm2 : (m <= inject_Z top)%Q).
  { eapply Qle_trans; [apply Q.le_min_r|]. now rewrite <- Zle_Qle. }
  destruct (Qlt_le_dec lr t0) as [Hlt|Hle].
  - rewrite (since_zero t0 lr l Hl Hlt).
    pose proof (scaled_nonneg rate (now - t0) Hrate ltac:(lra)).
    change (inject_Z 0) with 0%Q. lra.
  - specialize (Hpot t0 Hle). lra.
Qed.

Lemma tb_inv_update (hist : list Event) (w : World TokenBucketLimiter.t)
    (c : string) (t : Q) (r : RateLimitResponse) (clk' : Clock)
    (b' : TokenBucketLimiter.Bucket) :
  let s := self w in
  let top := Z.max 0 (TokenBucketLimiter.burst_or_max
                        (TokenBucketLimiter.config s)) in
  let hist' := hist ++ [(c, t, r)] in
  tb_inv hist w ->
  (clock w 0%nat <= clk' 0%nat)%Q ->
  TokenBucketLimiter.burst_size b' <= top ->
  (TokenBucketLimiter.last_refill b' <= clk' 0%nat)%Q ->
  Forall (fun x => (x <= TokenBucketLimiter.last_refill b')%Q)
         (admits c hist') ->
  (forall t0,
     (t0 <= TokenBucketLimiter.last_refill b')%Q ->
     (inject_Z (since t0 (admits c hist')) + TokenBucketLimiter.tokens b'
      <= inject_Z top
         + TokenBucketLimiter.refill_rate s
           * (TokenBucketLimiter.last_refill b' - t0))%Q) ->
  tb_inv hist' (mkWorld clk' (TokenBucketSteps.with_bucket s c b')).
Proof.
  intros s top hist' Hinv Hclk Hb Hlr Hall Hpot c'.
  cbn [self clock TokenBucketSteps.with_bucket TokenBucketLimiter.buckets
         TokenBucketLimiter.config TokenBucketLimiter.refill_rate].
  destruct (decide (c = c')) as [<-|Hne].
  - rewrite lookup_insert_eq. auto.
  - rewrite lookup_insert_ne by exact Hne. specialize (Hinv c').
    cbn zeta in Hinv. fold s in Hinv.
    unfold hist'. rewrite admits_snoc.
    assert (E : String.eqb c c' = false) by now apply String.eqb_neq.
    rewrite E. cbn [andb]. rewrite app_nil_r.
    destruct (TokenBucketLimiter.buckets s !! c') as [b|]; [|exact Hinv].
    destruct Hinv as (H1 & H2 & H3 & H4). repeat split; auto. lra.
Qed.

Lemma refilled_le_burst (rate now : Q) (b : TokenBucketLimiter.Bucket) :
  (TokenBucketLimiter.tokens (TokenBucketSteps.refilled rate now b)
   <= inject_Z (TokenBucketLimiter.burst_size b))%Q.
Proof. unfold TokenBucketSteps.refilled. cbn. apply Q.le_min_r. Qed.

Lemma tb_step (hist : list Event) (c : string)
    (w : World TokenBucketLimiter.t) :
  let cfg := TokenBucketLimiter.config (self w) in
  let rate := TokenBucketLimiter.refill_rate (self w) in
  let limit := Z.max 0 (TokenBucketLimiter.burst_or_max cfg)
               + Config.max_requests cfg in
  0 < Config.max_requests cfg ->
  (0 <= rate)%Q -> Qeq_bool rate 0 = false ->
  (rate * inject_Z (Config.time_window cfg)
   <= inject_Z (Config.max_requests cfg))%Q ->
  monotone (clock w) ->
  tb_inv hist w -> bounded cfg limit hist ->
  exists r w',
    TokenBucketLimiter.is_allowed c w = Ok (r, w')
    /\ TokenBucketLimiter.config (self w') = cfg
    /\ TokenBucketLimiter.refill_rate (self w') = rate
    /\ monotone (clock w')
    /\ tb_inv (hist ++ [(c, clock w 0%nat, r)]) w'
    /\ bounded cfg limit (hist ++ [(c, clock w 0%nat, r)]).
Proof.
  intros cfg rate limit Hm Hrate Hnz HrW Hmono Hinv Hb.
  rewrite TokenBucketFacts.tb_is_allowed_spec.
  set (top := Z.max 0 (TokenBucketLimiter.burst_or_max cfg)) in *.
  set (te := clock w 0%nat).
  (* the bucket that is refilled, and what is known once it is *)
  assert (Hfetch : exists b clk,
    TokenBucketSteps.fetch c w = (b, clk)
    /\ monotone clk /\ (te <= clk 0%nat)%Q
    /\ TokenBucketLimiter.burst_size b <= top
    /\ Forall (fun x => (x <= clk 0%nat)%Q) (admits c hist)
    /\ (forall t0, (t0 <= clk 0%nat)%Q ->
          (inject_Z (since t0 (admits c hist))
           + TokenBucketLimiter.tokens
               (TokenBucketSteps.refilled rate (clk 0%nat) b)
           <= inject_Z top + rate * (clk 0%nat - t0))%Q)
    /\ (te = clk 0%nat \/ admits c hist = [])).
  { unfold TokenBucketSteps.fetch. specialize (Hinv c). cbn zeta in Hinv.
    fold cfg top rate in Hinv.
    destruct (TokenBucketLimiter.buckets (self w) !! c) as [b|].
    - destruct Hinv as (H1 & H2 & H3 & H4).
      exists b, (clock w). split; [reflexivity|].
      split; [exact Hmono|]. split; [apply Qle_refl|].
      split; [exact H1|].
      split; [eapply Forall_le_weaken; [exact H2|exact H3]|].
      split; [|now left].
      now apply tb_refill_potential.
    - eexists _, _. split; [reflexivity|]. fold cfg. rewrite Hinv.
      split; [now apply monotone_advance|].
      split; [apply (Hmono 0%nat)|].
      split; [cbn; unfold top; lia|].
      split; [constructor|].
      split; [|now right].
      intros t0 Ht0.
      match goal with
      | |- context [TokenBucketSteps.refilled ?r ?n ?b] =>
          pose proof (refilled_le_burst r n b) as Hle
      end.
      cbn [TokenBucketLimiter.burst_size] in Hle.
      assert (Htop : (inject_Z (TokenBucketLimiter.burst_or_max cfg)
                      <= inject_Z top)%Q)
        by (rewrite <- Zle_Qle; unfold top; lia).
      pose proof (scaled_nonneg rate (advance (clock w) 0%nat - t0) Hrate
                    ltac:(lra)).
      unfold since, len. cbn [List.filter length].
      change (inject_Z (Z.of_nat 0)) with 0%Q. lra. }
  destruct Hfetch as (b & clk & -> & Hmclk & Hte & Hburst & Hall & Hpot & Hcase).
  cbn zeta. fold rate cfg.
  set (now := clk 0%nat) in *.
  set (b' := TokenBucketSteps.refilled rate now b) in *.
  assert (Hnext : (now <= advance (advance clk) 0%nat)%Q)
    by (apply (monotone_le clk 0 2 Hmclk); lia).
  assert (Hw0 : (clock w 0%nat <= advance (advance clk) 0%nat)%Q)
    by (fold te; lra).
  assert (Hmono2 : monotone (advance (advance clk)))
    by now do 2 apply monotone_advance.
  destruct (py_ge (TokenBucketLimiter.tokens b') 1) eqn:Etk.
  - (* admitted *)
    apply py_ge_true in Etk.
    eexists _, _. split; [reflexivity|].
    cbn [self clock]. split; [reflexivity|]. split; [reflexivity|].
    split; [exact Hmono2|]. split.
    + apply tb_inv_update;
        [exact Hinv|exact Hw0|exact Hburst|exact Hnext| |].
      * rewrite admits_snoc, String.eqb_refl. cbn [andb allowed
          TokenBucketSteps.admit_response]. apply Forall_app. split.
        -- exact Hall.
        -- repeat constructor. exact Hte.
      * intros t0 Ht0. cbn [TokenBucketSteps.spend TokenBucketLimiter.tokens
          TokenBucketLimiter.last_refill TokenBucketSteps.refilled b'] in *.
        rewrite admits_snoc, String.eqb_refl. cbn [andb allowed
          TokenBucketSteps.admit_response]. rewrite since_snoc.
        specialize (Hpot t0 Ht0). rewrite inject_Z_plus.
        assert (Hone : (inject_Z (if Qle_bool t0 te then 1 else 0) <= 1)%Q)
          by (destruct (Qle_bool t0 te);
              [change (inject_Z 1) with 1%Q|change (inject_Z 0) with 0%Q];
              lra).
        unfold b' in Hpot. cbn [TokenBucketLimiter.tokens
          TokenBucketSteps.refilled] in Hpot.
        fold cfg. fold top. fold rate. lra.
    + apply bounded_grant; [exact Hb|]. intros t0 Hlo Hhi. fold te in Hlo, Hhi.
      destruct Hcase as [Heq|Hnil].
      * assert (Heq' : (te == now)%Q) by (rewrite Heq; reflexivity).
        assert (Ht0 : (t0 <= now)%Q) by lra.
        specialize (Hpot t0 Ht0).
        assert (Hspan : (rate * (now - t0)
                         <= inject_Z (Config.max_requests cfg))%Q).
        { eapply Qle_trans; [|exact HrW].
          apply scaled_le; [exact Hrate|]. fold cfg. lra. }
        assert (Hq : (inject_Z (since t0 (admits c hist) + 1)
                      <= inject_Z limit)%Q).
        { unfold limit. rewrite !inject_Z_plus.
          change (inject_Z 1) with 1%Q. fold top. lra. }
        now rewrite <- Zle_Qle in Hq.
      * rewrite Hnil. unfold since, len, limit. cbn. fold top.
        unfold top. lia.
  - (* rejected *)
    rewrite Hnz.
    eexists _, _. split; [reflexivity|].
    cbn [self clock]. split; [reflexivity|]. split; [reflexivity|].
    split; [exact Hmono2|]. split.
    + apply tb_inv_update;
        [exact Hinv|exact Hw0|exact Hburst|exact Hnext| |].
      * rewrite admits_snoc. cbn [allowed TokenBucketSteps.reject_response].
        rewrite andb_false_r, app_nil_r. exact Hall.
      * intros t0 Ht0. rewrite admits_snoc.
        cbn [allowed TokenBucketSteps.reject_response].
        rewrite andb_false_r, app_nil_r. fold cfg. fold top. fold rate.
        apply Hpot. exact Ht0.
    + apply bounded_skip; [exact Hb|reflexivity].
Qed.

(** ** Leaky bucket: the admission bound *)

Lemma leak_loop_facts (k : nat) (b : LeakyBucketLimiter.Bucket) :
  let b' := LeakyBucketLimiter.leak_loop k b in
  LeakyBucketLimiter.last_leak_time b' = LeakyBucketLimiter.last_leak_time b
  /\ len (LeakyBucketLimiter.queue b') <= len (LeakyBucketLimiter.queue b)
  /\ len (LeakyBucketLimiter.queue b)
     <= len (LeakyBucketLimiter.queue b') + Z.of_nat k.
Proof.
  revert b. induction k as [|k IH]; intros b; cbn zeta.
  - cbn. repeat split; lia.
  - cbn [LeakyBucketLimiter.leak_loop].
    destruct (IH (LeakyBucketLimiter.leak_one b)) as (H1 & H2 & H3).
    unfold LeakyBucketLimiter.leak_one in *.
    destruct (LeakyBucketLimiter.queue b) as [|x q] eqn:Eq.
    + rewrite Eq in *. repeat split; [exact H1|exact H2|lia].
    + cbn [LeakyBucketLimiter.queue LeakyBucketLimiter.last_leak_time] in *.
      unfold len in *. cbn [length] in *. repeat split; [exact H1|lia|lia].
Qed.

Lemma to_leak_le (x : Q) : (0 <= x)%Q ->
  (inject_Z (Z.of_nat (Z.to_nat (py_int x))) <= x)%Q.
Proof.
  intros Hx. rewrite py_int_nonneg by exact Hx.
  assert (H0 : 0 <= Qfloor x).
  { change 0 with (Qfloor 0). now apply Qfloor_resp_le. }
  rewrite Z2Nat.id by exact H0. apply Qfloor_le.
Qed.

Lemma leaked_facts (rate now : Q) (b : LeakyBucketLimiter.Bucket) :
  (0 <= rate)%Q -> (LeakyBucketLimiter.last_leak_time b <= now)%Q ->
  let b' := LeakyBucketSteps.leaked rate now b in
  LeakyBucketLimiter.last_leak_time b' = now
  /\ len (LeakyBucketLimiter.queue b') <= len (LeakyBucketLimiter.queue b)
  /\ (inject_Z (len (LeakyBucketLimiter.queue b))
      <= inject_Z (len (LeakyBucketLimiter.queue b'))
         + rate * (now - LeakyBucketLimiter.last_leak_time b))%Q.
Proof.
  intros Hrate Hnow. cbn zeta. unfold LeakyBucketSteps.leaked.
  cbn [LeakyBucketLimiter.queue LeakyBucketLimiter.last_leak_time].
  set (x := ((now - LeakyBucketLimiter.last_leak_time b) * rate)%Q).
  destruct (leak_loop_facts (Z.to_nat (py_int x)) b) as (_ & H2 & H3).
  split; [reflexivity|]. split; [exact H2|].
  assert (Hx : (0 <= x)%Q).
  { unfold x. rewrite Qmult_comm. apply scaled_nonneg; lra. }
  pose proof (to_leak_le x Hx) as Hk.
  rewrite Zle_Qle, inject_Z_plus in H3. unfold x in *. lra.
Qed.

Lemma lb_inv_update (hist : list Event) (w : World LeakyBucketLimiter.t)
    (c : string) (t : Q) (r : RateLimitResponse) (clk' : Clock)
    (b' : LeakyBucketLimiter.Bucket) :
  let s := self w in
  let hist' := hist ++ [(c, t, r)] in
  lb_inv hist w ->
  (clock w 0%nat <= clk' 0%nat)%Q ->
  len (LeakyBucketLimiter.queue b')
  <= Config.max_requests (LeakyBucketLimiter.config s) ->
  (LeakyBucketLimiter.last_leak_time b' <= clk' 0%nat)%Q ->
  Forall (fun x => (x <= LeakyBucketLimiter.last_leak_time b')%Q)
         (admits c hist') ->
  (forall t0,
     (t0 <= LeakyBucketLimiter.last_leak_time b')%Q ->
     (inject_Z (since t0 (admits c hist'))
      <= inject_Z (len (LeakyBucketLimiter.queue b'))
         + LeakyBucketLimiter.leak_rate s
           * (LeakyBucketLimiter.last_leak_time b' - t0))%Q) ->
  lb_inv hist' (mkWorld clk' (LeakyBucketSteps.with_bucket s c b')).
Proof.
  intros s hist' Hinv Hclk Hb Hlr Hall Hpot c'.
  cbn [self clock LeakyBucketSteps.with_bucket LeakyBucketLimiter.buckets
         LeakyBucketLimiter.config LeakyBucketLimiter.leak_rate].
  destruct (decide (c = c')) as [<-|Hne].
  - rewrite lookup_insert_eq. auto.
  - rewrite lookup_insert_ne by exact Hne. specialize (Hinv c').
    cbn zeta in Hinv. fold s in Hinv.
    unfold hist'. rewrite admits_snoc.
    assert (E : String.eqb c c' = false) by now apply String.eqb_neq.
    rewrite E. cbn [andb]. rewrite app_nil_r.
    destruct (LeakyBucketLimiter.buckets s !! c') as [b|]; [|exact Hinv].
    destruct Hinv as (H1 & H2 & H3 & H4). repeat split; auto. lra.
Qed.

Lemma lb_step (hist : list Event) (c : string)
    (w : World LeakyBucketLimiter.t) :
  let cfg := LeakyBucketLimiter.config (self w) in
  let rate := LeakyBucketLimiter.leak_rate (self w) in
  let limit := 2 * Config.max_requests cfg in
  0 < Config.max_requests cfg ->
  (0 <= rate)%Q -> Qeq_bool rate 0 = false ->
  (rate * inject_Z (Config.time_window cfg)
   <= inject_Z (Config.max_requests cfg))%Q ->
  monotone (clock w) ->
  lb_inv hist w -> bounded cfg limit hist ->
  exists r w',
    LeakyBucketLimiter.is_allowed c w = Ok (r, w')
    /\ LeakyBucketLimiter.config (self w') = cfg
    /\ LeakyBucketLimiter.leak_rate (self w') = rate
    /\ monotone (clock w')
    /\ lb_inv (hist ++ [(c, clock w 0%nat, r)]) w'
    /\ bounded cfg limit (hist ++ [(c, clock w 0%nat, r)]).
Proof.
  intros cfg rate limit Hm Hrate Hnz HrW Hmono Hinv Hb.
  rewrite LeakyBucketFacts.lb_is_allowed_spec.
  set (te := clock w 0%nat).
  assert (Hfetch : exists b clk,
    LeakyBucketSteps.fetch c w = (b, clk)
    /\ monotone clk /\ (te <= clk 0%nat)%Q
    /\ len (LeakyBucketLimiter.queue (LeakyBucketSteps.leaked rate
                                        (clk 0%nat) b))
       <= Config.max_requests cfg
    /\ Forall (fun x => (x <= clk 0%nat)%Q) (admits c hist)
    /\ (forall t0, (t0 <= clk 0%nat)%Q ->
          (inject_Z (since t0 (admits c hist))
           <= inject_Z (len (LeakyBucketLimiter.queue
                               (LeakyBucketSteps.leaked rate (clk 0%nat) b)))
              + rate * (clk 0%nat - t0))%Q)
    /\ (te = clk 0%nat \/ admits c hist = [])).
  { unfold LeakyBucketSteps.fetch. specialize (Hinv c). cbn zeta in Hinv.
    fold cfg rate in Hinv.
    destruct (LeakyBucketLimiter.buckets (self w) !! c) as [b|].
    - destruct Hinv as (H1 & H2 & H3 & H4).
      destruct (leaked_facts rate (clock w 0%nat) b Hrate H2)
        as (L1 & L2 & L3).
      exists b, (clock w). split; [reflexivity|].
      split; [exact Hmono|]. split; [apply Qle_refl|].
      split; [lia|].
      split; [eapply Forall_le_weaken; [exact H2|exact H3]|].
      split; [|now left].
      intros t0 Ht0.
      destruct (Qlt_le_dec (LeakyBucketLimiter.last_leak_time b) t0)
        as [Hlt|Hle].
      + rewrite (since_zero t0 _ _ H3 Hlt).
        pose proof (scaled_nonneg rate (clock w 0%nat - t0) Hrate
                      ltac:(lra)).
        assert (H0 : (0 <= inject_Z (len (LeakyBucketLimiter.queue
                        (LeakyBucketSteps.leaked rate (clock w 0%nat) b))))%Q).
        { change 0%Q with (inject_Z 0). rewrite <- Zle_Qle.
          unfold len. lia. }
        change (inject_Z 0) with 0%Q. lra.
      + specialize (H4 t0 Hle). lra.
    - eexists _, _. split; [reflexivity|]. rewrite Hinv.
      split; [now apply monotone_advance|].
      split; [apply (Hmono 0%nat)|].
      destruct (leaked_facts rate (advance (clock w) 0%nat)
                  (LeakyBucketLimiter.mkBucket [] (clock w 0%nat) 0)
                  Hrate (Hmono 0%nat)) as (L1 & L2 & L3).
      cbn [LeakyBucketLimiter.queue] in L2.
      split; [unfold len in *; cbn [length] in L2; lia|].
      split; [constructor|].
      split; [|now right].
      intros t0 Ht0.
      pose proof (scaled_nonneg rate (advance (clock w) 0%nat - t0) Hrate
                    ltac:(lra)).
      match goal with
      | |- (_ <= inject_Z (len ?q) + _)%Q =>
          assert (H0 : (0 <= inject_Z (len q))%Q)
            by (change 0%Q with (inject_Z 0); rewrite <- Zle_Qle;
                unfold len; lia)
      end.
      unfold since, len at 1. cbn [List.filter length].
      change (inject_Z (Z.of_nat 0)) with 0%Q. lra. }
  destruct Hfetch as (b & clk & -> & Hmclk & Hte & Hlen & Hall & Hpot & Hcase).
  cbn zeta. fold rate cfg.
  set (now := clk 0%nat) in *.
  set (b' := LeakyBucketSteps.leaked rate now b) in *.
  assert (Hlast : LeakyBucketLimiter.last_leak_time b' = now) by reflexivity.
  assert (Hmono2 : monotone (advance (advance clk)))
    by now do 2 apply monotone_advance.
  destruct (len (LeakyBucketLimiter.queue b') <? Config.max_requests cfg)
    eqn:En.
  - (* admitted *)
    apply Z.ltb_lt in En.
    assert (Hnext : (now <= advance (advance (advance clk)) 0%nat)%Q)
      by (apply (monotone_le clk 0 3 Hmclk); lia).
    eexists _, _. split; [reflexivity|].
    cbn [self clock]. split; [reflexivity|]. split; [reflexivity|].
    split; [now apply monotone_advance|]. split.
    + apply lb_inv_update; [exact Hinv|fold te; lra| |exact Hnext| |].
      * cbn [LeakyBucketSteps.enqueue LeakyBucketLimiter.queue].
        rewrite len_app. fold cfg. unfold len at 2. cbn [length]. lia.
      * rewrite admits_snoc, String.eqb_refl. cbn [andb allowed].
        apply Forall_app. split; [exact Hall|]. repeat constructor. exact Hte.
      * intros t0 Ht0.
        cbn [LeakyBucketSteps.enqueue LeakyBucketLimiter.queue
               LeakyBucketLimiter.last_leak_time] in *.
        rewrite Hlast in *.
        rewrite admits_snoc, String.eqb_refl. cbn [andb allowed].
        rewrite since_snoc, len_app. specialize (Hpot t0 Ht0).
        rewrite !inject_Z_plus.
        assert (Hone : (inject_Z (if Qle_bool t0 te then 1 else 0) <= 1)%Q)
          by (destruct (Qle_bool t0 te);
              [change (inject_Z 1) with 1%Q|change (inject_Z 0) with 0%Q];
              lra).
        unfold len at 2. cbn [length]. change (inject_Z (Z.of_nat 1)) with 1%Q.
        fold rate. lra.
    + apply bounded_grant; [exact Hb|]. intros t0 Hlo Hhi. fold te in Hlo, Hhi.
      destruct Hcase as [Heq|Hnil].
      * assert (Heq' : (te == now)%Q) by (rewrite Heq; reflexivity).
        assert (Ht0 : (t0 <= now)%Q) by lra.
        specialize (Hpot t0 Ht0).
        assert (Hspan : (rate * (now - t0)
                         <= inject_Z (Config.max_requests cfg))%Q).
        { eapply Qle_trans; [|exact HrW].
          apply scaled_le; [exact Hrate|]. fold cfg. lra. }
        assert (Hq : (inject_Z (since t0 (admits c hist) + 1)
                      <= inject_Z limit)%Q).
        { unfold limit. rewrite inject_Z_plus, inject_Z_mult.
          change (inject_Z 1) with 1%Q. change (inject_Z 2) with 2%Q.
          assert (Hn : (inject_Z (len (LeakyBucketLimiter.queue b')) + 1
                        <= inject_Z (Config.max_requests cfg))%Q).
          { change 1%Q with (inject_Z 1). rewrite <- inject_Z_plus.
            rewrite <- Zle_Qle. lia. }
          lra. }
        now rewrite <- Zle_Qle in Hq.
      * rewrite Hnil. unfold since, len, limit. cbn. lia.
  - (* rejected *)
    rewrite Hnz.
    assert (Hnext : (now <= advance (advance clk) 0%nat)%Q)
      by (apply (monotone_le clk 0 2 Hmclk); lia).
    eexists _, _. split; [reflexivity|].
    cbn [self clock]. split; [reflexivity|]. split; [reflexivity|].
    split; [exact Hmono2|]. split.
    + apply lb_inv_update; [exact Hinv|fold te; lra|exact Hlen|exact Hnext| |].
      * rewrite admits_snoc. cbn [allowed].
        rewrite andb_false_r, app_nil_r. exact Hall.
      * intros t0 Ht0. rewrite admits_snoc. cbn [allowed].
        rewrite andb_false_r, app_nil_r. fold rate. apply Hpot. exact Ht0.
    + apply bounded_skip; [exact Hb|reflexivity].
Qed.

(** ** Fixed window: the admission bound *)

Lemma len_nonneg {A} (l : list A) : 0 <= len l.
Proof. unfold len. lia. Qed.

Lemma since_app (t0 : Q) (l l' : list Q) :
  since t0 (l ++ l') = since t0 l + since t0 l'.
Proof. unfold since. now rewrite List.filter_app, len_app. Qed.

Lemma since_none_below (t0 a : Q) (l : list Q) :
  Forall (fun x => (x < a)%Q) l -> (a <= t0)%Q -> since t0 l = 0.
Proof.
  intros H Ha. unfold since.
  induction H as [|x l Hx _ IH]; [reflexivity|]. cbn [List.filter].
  assert (E : Qle_bool t0 x = false).
  { destruct (Qle_bool t0 x) eqn:E; [|reflexivity].
    apply Qle_bool_iff in E. lra. }
  now rewrite E.
Qed.

Lemma fw_roll_split (cfg : RateLimitConfig) (now : Q)
    (win : FixedWindowLimiter.Window) (l : list Q) :
  0 < Config.time_window cfg ->
  fw_split cfg win l ->
  let win' := FixedWindowLimiter.roll cfg now win in
  fw_split cfg win' l
  /\ (now < FixedWindowLimiter.window_start win'
            + inject_Z (Config.time_window cfg))%Q
  /\ (FixedWindowLimiter.window_start win'
      = FixedWindowLimiter.window_start win
      \/ FixedWindowLimiter.window_start win' = now).
Proof.
  intros Hw Hs. cbn zeta. unfold FixedWindowLimiter.roll.
  pose proof (inject_Z_pos _ Hw) as Hw'.
  destruct (py_ge _ _) eqn:E.
  - apply py_ge_true in E.
    cbn [FixedWindowLimiter.window_start]. split; [|split; [lra|now right]].
    destruct Hs as (older & prev & cur & Hl & Hc & Hcm & Hp & Ho & Hpr & Hcu).
    exists (older ++ prev), cur, [].
    cbn [FixedWindowLimiter.window_start FixedWindowLimiter.count].
    pose proof (len_nonneg cur).
    split; [now rewrite app_nil_r, <- app_assoc|].
    split; [reflexivity|]. split; [lia|]. split; [lia|].
    split; [|split; [|constructor]].
    + apply Forall_app. split.
      * eapply Forall_below_weaken; [|exact Ho]. lra.
      * eapply Forall_below_weaken; [|exact Hpr]. lra.
    + eapply Forall_below_weaken; [|exact Hcu]. lra.
  - apply py_ge_false in E. split; [exact Hs|]. split; [lra|now left].
Qed.

Lemma fw_grant_split (cfg : RateLimitConfig) (now : Q)
    (win : FixedWindowLimiter.Window) (l : list Q) :
  fw_split cfg win l ->
  FixedWindowLimiter.count win < Config.max_requests cfg ->
  (now < FixedWindowLimiter.window_start win
         + inject_Z (Config.time_window cfg))%Q ->
  fw_split cfg (FixedWindowSteps.bump win) (l ++ [now]).
Proof.
  intros (older & prev & cur & Hl & Hc & Hcm & Hp & Ho & Hpr & Hcu) Hlt Hnow.
  exists older, prev, (cur ++ [now]).
  cbn [FixedWindowSteps.bump FixedWindowLimiter.window_start
         FixedWindowLimiter.count].
  split; [now rewrite Hl, <- !app_assoc|].
  split; [rewrite len_app; unfold len at 2; cbn [length]; lia|].
  split; [lia|]. split; [exact Hp|]. split; [exact Ho|].
  split; [exact Hpr|]. apply Forall_app. split; [exact Hcu|].
  repeat constructor. exact Hnow.
Qed.

Lemma fw_split_since (cfg : RateLimitConfig)
    (win : FixedWindowLimiter.Window) (l : list Q) (t0 : Q) :
  fw_split cfg win l ->
  (FixedWindowLimiter.window_start win - inject_Z (Config.time_window cfg)
   <= t0)%Q ->
  since t0 l <= Config.max_requests cfg + FixedWindowLimiter.count win.
Proof.
  intros (older & prev & cur & Hl & Hc & Hcm & Hp & Ho & Hpr & Hcu) Ht0.
  rewrite Hl, !since_app, (since_none_below t0 _ older Ho Ht0).
  pose proof (since_le_len t0 prev). pose proof (since_le_len t0 cur). lia.
Qed.

Lemma fw_inv_update (hist : list Event) (w : World FixedWindowLimiter.t)
    (c : string) (t : Q) (r : RateLimitResponse) (clk' : Clock)
    (win' : FixedWindowLimiter.Window) :
  let s := self w in
  let hist' := hist ++ [(c, t, r)] in
  fw_inv hist w ->
  (clock w 0%nat <= clk' 0%nat)%Q ->
  fw_split (FixedWindowLimiter.config s) win' (admits c hist') ->
  (FixedWindowLimiter.window_start win' <= clk' 0%nat)%Q ->
  fw_inv hist' (mkWorld clk' (FixedWindowSteps.with_window s c win')).
Proof.
  intros s hist' Hinv Hclk Hsplit Hws c'.
  cbn [self clock FixedWindowSteps.with_window FixedWindowLimiter.windows
         FixedWindowLimiter.config].
  destruct (decide (c = c')) as [<-|Hne].
  - rewrite lookup_insert_eq. auto.
  - rewrite lookup_insert_ne by exact Hne. specialize (Hinv c').
    cbn zeta in Hinv. fold s in Hinv.
    unfold hist'. rewrite admits_snoc.
    assert (E : String.eqb c c' = false) by now apply String.eqb_neq.
    rewrite E. cbn [andb]. rewrite app_nil_r.
    destruct (FixedWindowLimiter.windows s !! c') as [win|]; [|exact Hinv].
    destruct Hinv as (H1 & H2). split; [exact H1|lra].
Qed.

Lemma fw_step (hist : list Event) (c : string)
    (w : World FixedWindowLimiter.t) :
  let cfg := FixedWindowLimiter.config (self w) in
  let limit := 2 * Config.max_requests cfg in
  0 < Config.max_requests cfg -> 0 < Config.time_window cfg ->
  monotone (clock w) ->
  fw_inv hist w -> bounded cfg limit hist ->
  exists r w',
    FixedWindowLimiter.is_allowed c w = Ok (r, w')
    /\ FixedWindowLimiter.config (self w') = cfg
    /\ monotone (clock w')
    /\ fw_inv (hist ++ [(c, clock w 0%nat, r)]) w'
    /\ bounded cfg limit (hist ++ [(c, clock w 0%nat, r)]).
Proof.
  intros cfg limit Hm Hw Hmono Hinv Hb.
  rewrite FixedWindowFacts.fw_is_allowed_spec. cbn zeta. fold cfg.
  set (now := clock w 0%nat).
  set (window := inject_Z (Config.time_window cfg)).
  assert (Hfetch : exists win clk,
    FixedWindowSteps.fetch c w = (win, clk)
    /\ monotone clk /\ (now <= clk 0%nat)%Q
    /\ fw_split cfg win (admits c hist)
    /\ (FixedWindowLimiter.window_start win <= clk 0%nat)%Q
    /\ ((FixedWindowLimiter.window_start win <= now)%Q
        \/ admits c hist = [])).
  { unfold FixedWindowSteps.fetch. specialize (Hinv c). cbn zeta in Hinv.
    fold cfg in Hinv.
    destruct (FixedWindowLimiter.windows (self w) !! c) as [win|].
    - destruct Hinv as (H1 & H2). exists win, (advance (clock w)).
      split; [reflexivity|]. split; [now apply monotone_advance|].
      pose proof (Hmono 0%nat) as H01. fold now in H01, H2.
      split; [exact H01|].
      split; [exact H1|]. split; [unfold advance; lra|now left].
    - eexists _, _. split; [reflexivity|].
      split; [now do 2 apply monotone_advance|].
      split; [apply (monotone_le _ 0 2 Hmono); lia|].
      rewrite Hinv. split.
      + exists [], [], []. cbn [FixedWindowLimiter.count app].
        unfold len. cbn [length]. repeat split; try constructor; lia.
      + split; [apply (Hmono 1%nat)|now right]. }
  destruct Hfetch as (win & clk & -> & Hmclk & Hclk & Hsplit & Hws & Hcase).
  destruct (fw_roll_split cfg now win _ Hw Hsplit) as (Hsplit' & Hnow & Hws').
  set (win' := FixedWindowLimiter.roll cfg now win) in *.
  assert (Hws2 : (FixedWindowLimiter.window_start win' <= clk 0%nat)%Q).
  { destruct Hws' as [->| ->]; [exact Hws|exact Hclk]. }
  destruct (FixedWindowLimiter.count win' <? Config.max_requests cfg) eqn:En.
  - apply Z.ltb_lt in En.
    eexists _, _. split; [reflexivity|]. cbn [self clock].
    split; [reflexivity|]. split; [exact Hmclk|]. split.
    + apply fw_inv_update; [exact Hinv|exact Hclk| |exact Hws2].
      rewrite admits_snoc, String.eqb_refl. cbn [andb allowed]. fold cfg.
      now apply fw_grant_split.
    + apply bounded_grant; [exact Hb|]. fold now window.
      intros t0 Hlo Hhi. unfold limit.
      destruct Hcase as [Hle|Hnil].
      * assert (Hws3 : (FixedWindowLimiter.window_start win' <= now)%Q).
        { destruct Hws' as [->| ->]; [exact Hle|apply Qle_refl]. }
        pose proof (fw_split_since cfg win' _ t0 Hsplit') as Hs.
        fold window in Hs. specialize (Hs ltac:(lra)). lia.
      * rewrite Hnil. unfold since, len. cbn. lia.
  - eexists _, _. split; [reflexivity|]. cbn [self clock].
    split; [reflexivity|]. split; [exact Hmclk|]. split.
    + apply fw_inv_update; [exact Hinv|exact Hclk| |exact Hws2].
      rewrite admits_snoc. cbn [allowed].
      rewrite andb_false_r, app_nil_r. exact Hsplit'.
    + apply bounded_skip; [exact Hb|reflexivity].
Qed.

(** ** The admission bound of a session *)

Lemma sw_inv_fresh (cfg : RateLimitConfig) (clk : Clock) :
  sw_inv [] (mkWorld clk (SlidingWindowLimiter.mk cfg ∅)).
Proof.
  intros c. exists []. split; [|constructor].
  unfold SlidingWindowSteps.log. cbn. now rewrite lookup_empty.
Qed.

Lemma default_rate_facts (cfg : RateLimitConfig) :
  valid cfg ->
  (0 <= default_rate cfg)%Q
  /\ Qeq_bool (default_rate cfg) 0 = false
  /\ (default_rate cfg * inject_Z (Config.time_window cfg)
      <= inject_Z (Config.max_requests cfg))%Q.
Proof.
  intros [Hm Hw]. unfold default_rate.
  pose proof (inject_Z_pos _ Hm) as Hm'. pose proof (inject_Z_pos _ Hw) as Hw'.
  split; [|split].
  - apply Qlt_le_weak. apply Qlt_shift_div_l; lra.
  - now apply ratio_nonzero.
  - apply Qle_lteq. right. field. lra.
Qed.

Lemma session_step (cfg : RateLimitConfig) (hist : list Event) (c : string)
    (w : World Limiter) :
  valid cfg -> session_inv cfg hist w ->
  exists r w',
    is_allowed c w = Ok (r, w')
    /\ session_inv cfg (hist ++ [(c, clock w 0%nat, r)]) w'.
Proof.
  intros Hv (Hmono & Hb & Hs). pose proof Hv as [Hm Hw].
  destruct (default_rate_facts cfg Hv) as (Hr0 & Hrnz & HrW).
  destruct w as [clk [s|s|s|s]]; cbn [self clock] in *;
    unfold is_allowed, lift, bind, get_self, id; cbn [self clock];
    unfold admission_limit in Hb.
  - destruct Hs as (Ha & Hcfg & Hrate & Hinv). rewrite Ha in Hb.
    destruct (tb_step hist c (mkWorld clk s)) as
      (r & [clk' s'] & -> & Hcfg' & Hrate' & Hmono' & Hinv' & Hb');
      cbn [self clock]; rewrite ?Hcfg, ?Hrate; auto.
    cbn [self clock] in *. rewrite Hcfg in *. rewrite Hrate in Hrate'.
    exists r, (mkWorld clk' (TokenBucket s')). split; [reflexivity|].
    unfold session_inv, admission_limit. cbn [self clock]. rewrite Ha. auto 10.
  - destruct Hs as (Ha & Hcfg & Hinv). rewrite Ha in Hb.
    destruct (sw_step cfg hist c (mkWorld clk s) Hcfg Hm (Hmono 0%nat) Hinv Hb)
      as (r & [clk' s'] & -> & Hcfg' & Hclk' & Hinv' & Hb').
    cbn [self clock] in *. subst clk'.
    exists r, (mkWorld (advance clk) (SlidingWindow s')).
    split; [reflexivity|].
    unfold session_inv, admission_limit. cbn [self clock]. rewrite Ha.
    split; [now apply monotone_advance|]. auto.
  - destruct Hs as (Ha & Hcfg & Hrate & Hinv). rewrite Ha in Hb.
    destruct (lb_step hist c (mkWorld clk s)) as
      (r & [clk' s'] & -> & Hcfg' & Hrate' & Hmono' & Hinv' & Hb');
      cbn [self clock]; rewrite ?Hcfg, ?Hrate; auto.
    cbn [self clock] in *. rewrite Hcfg in *. rewrite Hrate in Hrate'.
    exists r, (mkWorld clk' (LeakyBucket s')). split; [reflexivity|].
    unfold session_inv, admission_limit. cbn [self clock]. rewrite Ha. auto 10.
  - destruct Hs as (Ha & Hcfg & Hinv). rewrite Ha in Hb.
    destruct (fw_step hist c (mkWorld clk s)) as
      (r & [clk' s'] & -> & Hcfg' & Hmono' & Hinv' & Hb');
      cbn [self clock]; rewrite ?Hcfg; auto.
    cbn [self clock] in *. rewrite Hcfg in *.
    exists r, (mkWorld clk' (FixedWindow s')). split; [reflexivity|].
    unfold session_inv, admission_limit. cbn [self clock]. rewrite Ha. auto 10.
Qed.

Lemma trace_invariant (cfg : RateLimitConfig) (ids : list string) :
  valid cfg ->
  forall (hist : list Event) (w : World Limiter),
    session_inv cfg hist w ->
    exists es w',
      trace ids w = Ok (es, w')
      /\ map (fun e : Event => fst (fst e)) es = ids
      /\ session_inv cfg (hist ++ es) w'.
Proof.
  intros Hv. induction ids as [|c ids IH]; intros hist w Hinv.
  - exists [], w. rewrite app_nil_r. auto.
  - destruct (session_step cfg hist c w Hv Hinv) as (r & w1 & Hr & Hinv1).
    destruct (IH _ w1 Hinv1) as (es & w2 & Hes & Hids & Hinv2).
    exists ((c, clock w 0%nat, r) :: es), w2. split; [|split].
    + cbn [trace]. unfold bind, ret. now rewrite Hr, Hes.
    + cbn. now rewrite Hids.
    + now rewrite <- app_assoc in Hinv2.
Qed.

Lemma bounded_nil (cfg : RateLimitConfig) (limit : Z) :
  0 <= limit -> bounded cfg limit [].
Proof. intros H c t0. unfold admitted_in, admits, len. cbn. exact H. Qed.

Lemma admission_limit_nonneg (cfg : RateLimitConfig) :
  valid cfg -> 0 <= admission_limit cfg.
Proof.
  intros [Hm _]. unfold admission_limit.
  destruct (Config.algorithm cfg); lia.
Qed.

Lemma create_session_inv (cfg : RateLimitConfig) (clk : Clock) :
  valid cfg -> in_process cfg -> default_paced cfg -> monotone clk ->
  exists l, RateLimiterFactory.create cfg = Ok (RateLimiterFactory.Local l)
            /\ session_inv cfg [] (mkWorld clk l).
Proof.
  intros Hv [Hd Ha] Hp Hmono. pose proof Hv as [Hm Hw].
  pose proof (bounded_nil cfg _ (admission_limit_nonneg cfg Hv)) as Hb.
  assert (Hz : (Config.time_window cfg =? 0) = false) by lia.
  unfold RateLimiterFactory.create. rewrite Hd.
  unfold default_paced in Hp.
  destruct (Config.algorithm cfg) eqn:E; cbn; try congruence.
  - unfold RateLimiterFactory.construct, TokenBucketLimiter.init.
    rewrite (Hp eq_refl), Hz. eexists. split; [reflexivity|].
    unfold session_inv. cbn [self clock]. rewrite E.
    repeat split; auto; intros c; cbn; now rewrite lookup_empty.
  - eexists. split; [reflexivity|].
    unfold session_inv. cbn [self clock]. rewrite E.
    repeat split; auto; apply sw_inv_fresh.
  - unfold RateLimiterFactory.construct, LeakyBucketLimiter.init.
    rewrite Hz. eexists. split; [reflexivity|].
    unfold session_inv. cbn [self clock]. rewrite E.
    repeat split; auto; intros c; cbn; now rewrite lookup_empty.
  - eexists. split; [reflexivity|].
    unfold session_inv. cbn [self clock]. rewrite E.
    repeat split; auto; intros c; cbn; now rewrite lookup_empty.
Qed.

(** C1, amended.  For a valid policy (the token bucket at its default
    rate) and a clock whose readings never decrease, a sequence of
    [is_allowed] calls on a freshly built in-process limiter returns a
    response for every call, and for every client and every [t0] the number
    of admitted calls whose reading lies in the closed interval
    [[t0, t0 + time_window]] is at most [admission_limit]: [max_requests]
    for the sliding window, twice that for the leaky bucket and the fixed
    window, and burst plus [max_requests] for the token bucket. *)
Theorem admission_bound (cfg : RateLimitConfig) (clk : Clock)
    (ids : list string) (c : string) (t0 : Q) :
  valid cfg -> in_process cfg -> default_paced cfg -> monotone clk ->
  exists es,
    decisions cfg clk ids = Ok es
    /\ map (fun e : Event => fst (fst e)) es = ids
    /\ admitted_in c t0 (t0 + inject_Z (Config.time_window cfg)) es
       <= admission_limit cfg.
Proof.
  intros Hv Hp Hd Hmono. unfold decisions.
  destruct (create_session_inv cfg clk Hv Hp Hd Hmono) as (l & -> & Hinv).
  destruct (trace_invariant cfg ids Hv [] _ Hinv)
    as (es & w' & -> & Hids & _ & Hb & _).
  exists es. split; [reflexivity|]. split; [exact Hids|]. apply Hb.
Qed.

Lemma scripted_monotone (n : nat) (a b : Q) :
  (a <= b)%Q -> monotone (scripted (replicate n a) b).
Proof.
  intros Hab k. unfold scripted. revert k.
  induction n as [|n IH]; intros k.
  - destruct k as [|[|k]]; cbn; lra.
  - destruct k as [|k]; [|apply IH]. cbn [replicate nth].
    destruct n; cbn; lra.
Qed.

Lemma admission_bound_witness :
  exists es,
    decisions (policy 2 10 SLIDING_WINDOW) (scripted (replicate 3 0%Q) 5)
              (replicate 5 "c"%string) = Ok es
    /\ map (fun e : Event => fst (fst e)) es = replicate 5 "c"%string
    /\ admitted_in "c" 0 (0 + inject_Z 10) es <= 2.
Proof.
  apply (admission_bound (policy 2 10 SLIDING_WINDOW)
           (scripted (replicate 3 0%Q) 5) (replicate 5 "c"%string) "c" 0).
  - apply policy_valid; lia.
  - split; [reflexivity|discriminate].
  - discriminate.
  - apply scripted_monotone. lra.
Defined.

(** C1 as stated fails for the token bucket and the leaky bucket.  With
    capacity 2 and window 10, two calls at t = 0 and one at t = 5 are all
    admitted: three admitted readings in [[0, 10]].  It also fails for the
    sliding window when the scripted clock steps backwards: the readings
    15, 10, 25.5, 20 are all admitted, three of them in [[10, 20]]. *)
Lemma buckets_exceed_capacity :
  option_map (admitted_in "c" 0 (0 + inject_Z 10))
    (match decisions (policy 2 10 TOKEN_BUCKET)
             (scripted (replicate 5 0%Q) 5) (replicate 3 "c"%string) with
     | Ok es => Some es | Raise _ => None end) = Some 3
  /\ option_map (admitted_in "c" 0 (0 + inject_Z 10))
       (match decisions (policy 2 10 LEAKY_BUCKET)
                (scripted (replicate 7 0%Q) 5) (replicate 3 "c"%string) with
        | Ok es => Some es | Raise _ => None end) = Some 3
  /\ option_map (admitted_in "c" 10 (10 + inject_Z 10))
       (match decisions (policy 2 10 SLIDING_WINDOW)
                (scripted [15; 10; 25.5]%Q 20) (replicate 4 "c"%string) with
        | Ok es => Some es | Raise _ => None end) = Some 3
  /\ ~ 3 <= 2.
Proof.
  split; [vm_compute; reflexivity|]. split; [vm_compute; reflexivity|].
  split; [vm_compute; reflexivity|]. lia.
Qed.

(** The limits are reached.  Capacity 2: a fixed window of 5 s opened at
    t = 4 admits two calls at t = 4 and two at t = 9; the buckets, with a
    window of 10 s, admit two calls at t = 0, one at t = 5 and one at
    t = 10. *)
Example limits_are_reached :
  option_map (admitted_in "c" 4 (4 + inject_Z 5))
    (match decisions (policy 2 5 FIXED_WINDOW)
             (scripted (replicate 3 4%Q) 9) (replicate 4 "c"%string) with
     | Ok es => Some es | Raise _ => None end)
  = Some (admission_limit (policy 2 5 FIXED_WINDOW))
  /\ option_map (admitted_in "c" 0 (0 + inject_Z 10))
       (match decisions (policy 2 10 TOKEN_BUCKET)
                (scripted (replicate 5 0 ++ replicate 2 5)%Q 10)
                (replicate 4 "c"%string) with
        | Ok es => Some es | Raise _ => None end)
     = Some (admission_limit (policy 2 10 TOKEN_BUCKET))
  /\ option_map (admitted_in "c" 0 (0 + inject_Z 10))
       (match decisions (policy 2 10 LEAKY_BUCKET)
                (scripted (replicate 7 0 ++ replicate 3 5)%Q 10)
                (replicate 4 "c"%string) with
        | Ok es => Some es | Raise _ => None end)
     = Some (admission_limit (policy 2 10 LEAKY_BUCKET)).
Proof. repeat split; vm_compute; reflexivity. Qed.

(** ** Supporting facts: the hypotheses of the per-call theorems hold in
    sessions *)

Lemma nondecreasing_suffix (a b : list Q) :
  nondecreasing (a ++ b) = true -> nondecreasing b = true.
Proof.
  induction a as [|x a IH]; [auto|]. intros H. apply IH.
  now apply nondecreasing_tail with (a := x).
Qed.

Lemma nondecreasing_snoc (l : list Q) (x : Q) :
  nondecreasing l = true -> forallb (fun t => Qle_bool t x) l = true ->
  nondecreasing (l ++ [x]) = true.
Proof.
  induction l as [|a l IH]; [reflexivity|]. intros Hs Hb.
  cbn [forallb] in Hb. apply andb_true_iff in Hb. destruct Hb as [Ha Hl].
  specialize (IH (nondecreasing_tail _ _ Hs) Hl).
  destruct l as [|b l]; cbn [app nondecreasing] in *.
  - now rewrite Ha.
  - apply andb_true_iff in Hs. destruct Hs as [Hab _]. now rewrite Hab, IH.
Qed.

Lemma forallb_le_weaken (a b : Q) (l : list Q) :
  (a <= b)%Q -> forallb (fun t => Qle_bool t a) l = true ->
  forallb (fun t => Qle_bool t b) l = true.
Proof.
  intros Hab H. rewrite forallb_forall in *. intros x Hx.
  specialize (H x Hx). apply Qle_bool_iff in H. apply Qle_bool_iff. lra.
Qed.

Lemma sw_ordered_update (w : World SlidingWindowLimiter.t) (c : string)
    (l : list Q) (clk' : Clock) :
  sw_ordered w -> (clock w 0%nat <= clk' 0%nat)%Q ->
  nondecreasing l = true ->
  forallb (fun t => Qle_bool t (clk' 0%nat)) l = true ->
  sw_ordered (mkWorld clk' (SlidingWindowSteps.with_window (self w) c l)).
Proof.
  intros Ho Hclk Hs Hb c'. cbn [self clock].
  destruct (decide (c = c')) as [<-|Hne].
  - rewrite log_with_window. now split.
  - rewrite log_with_window_ne by exact Hne. destruct (Ho c') as [H1 H2].
    split; [exact H1|]. eapply forallb_le_weaken; eassumption.
Qed.

(** On a clock that never decreases the three methods keep every log in
    arrival order, so the hypotheses of [sliding_window_admission] hold at
    every call of a session. *)
Lemma sw_ordered_is_allowed (c : string) (w w' : World SlidingWindowLimiter.t)
    (r : RateLimitResponse) :
  monotone (clock w) -> sw_ordered w ->
  SlidingWindowLimiter.is_allowed c w = Ok (r, w') ->
  monotone (clock w') /\ sw_ordered w'.
Proof.
  intros Hmono Ho. rewrite SlidingWindowFacts.sw_is_allowed_spec. cbn zeta.
  set (now := clock w 0%nat).
  set (cutoff := (now - _)%Q).
  destruct (Ho c) as [Hs Hb]. fold now in Hb.
  destruct (evict_split cutoff (SlidingWindowSteps.log (self w) c))
    as (old & Hl & _).
  set (l := SlidingWindowLimiter.evict cutoff _) in *.
  assert (Hs' : nondecreasing l = true).
  { rewrite Hl in Hs. now apply nondecreasing_suffix in Hs. }
  assert (Hb' : forallb (fun t => Qle_bool t now) l = true).
  { rewrite Hl, forallb_app in Hb. now apply andb_true_iff in Hb. }
  pose proof (Hmono 0%nat) as Hnext. fold now in Hnext.
  destruct (len l <? _).
  - intros [= _ <-]. split; [now apply monotone_advance|].
    apply sw_ordered_update; [exact Ho|exact Hnext| |].
    + now apply nondecreasing_snoc.
    + rewrite forallb_app. apply andb_true_iff. split.
      * eapply forallb_le_weaken; eassumption.
      * cbn. rewrite andb_true_r. apply Qle_bool_iff. exact Hnext.
  - destruct l as [|w0 rest] eqn:El; [discriminate|].
    intros [= _ <-]. split; [now apply monotone_advance|].
    apply sw_ordered_update; [exact Ho|exact Hnext|exact Hs'|].
    eapply forallb_le_weaken; eassumption.
Qed.

Lemma sw_ordered_reset (c : string) (w w' : World SlidingWindowLimiter.t) :
  monotone (clock w) -> sw_ordered w ->
  SlidingWindowLimiter.reset c w = Ok (tt, w') ->
  monotone (clock w') /\ sw_ordered w'.
Proof.
  intros Hmono Ho. rewrite SlidingWindowFacts.sw_reset_spec.
  intros [= <-]. split; [exact Hmono|].
  apply sw_ordered_update; [exact Ho|apply Qle_refl|reflexivity|reflexivity].
Qed.

Lemma sw_ordered_get_status (c : string)
    (w w' : World SlidingWindowLimiter.t) (d : SlidingWindowLimiter.Status) :
  monotone (clock w) -> sw_ordered w ->
  SlidingWindowLimiter.get_status c w = Ok (d, w') ->
  monotone (clock w') /\ sw_ordered w'.
Proof.
  intros Hmono Ho. rewrite SlidingWindowFacts.sw_get_status_spec. cbn zeta.
  intros [= _ <-]. split; [now apply monotone_advance|].
  destruct (Ho c) as [Hs Hb].
  apply sw_ordered_update; [exact Ho|apply (Hmono 0%nat)|exact Hs|].
  eapply forallb_le_weaken; [apply (Hmono 0%nat)|exact Hb].
Qed.

Lemma sw_ordered_fresh (cfg : RateLimitConfig) (clk : Clock) :
  sw_ordered (mkWorld clk (SlidingWindowLimiter.mk cfg ∅)).
Proof.
  intros c. unfold SlidingWindowSteps.log. cbn. now rewrite lookup_empty.
Qed.

(** In a recorded session the limiter is [paced] at the next reading, the
    hypothesis of [rejection_reset_window]. *)
Lemma session_inv_paced (cfg : RateLimitConfig) (hist : list Event)
    (w : World Limiter) (c : string) :
  valid cfg -> session_inv cfg hist w -> paced (clock w 0%nat) c (self w).
Proof.
  intros Hv (_ & _ & Hs). unfold paced.
  destruct (self w) as [s|s|s|s]; cbn [config_of].
  - destruct Hs as (_ & -> & -> & _). split; [exact Hv|reflexivity].
  - destruct Hs as (_ & -> & _). now split.
  - destruct Hs as (_ & -> & -> & _). split; [exact Hv|reflexivity].
  - destruct Hs as (_ & Hcfg & Hinv). rewrite Hcfg. split; [exact Hv|].
    intros win Hwin. specialize (Hinv c). cbn [self clock] in Hinv.
    rewrite Hwin in Hinv. apply Hinv.
Qed.

(** [get_status] does change the state that [is_allowed] then reads: the
    idle bucket is refilled to one token and its [last_refill] moves from
    0 to 5. *)
Example get_status_mutates :
  match TokenBucketLimiter.get_status "c" idle_bucket with
  | Ok (d, w') =>
      option_map (fun b => (TokenBucketLimiter.last_refill b,
                            TokenBucketLimiter.st_tokens d))
                 (TokenBucketLimiter.buckets (self w') !! "c"%string)
  | Raise _ => None
  end = Some (5%Q, Qmin (0 + (5 - 0) * (inject_Z 2 / inject_Z 10)) (inject_Z 2))
  /\ (Qmin (0 + (5 - 0) * (inject_Z 2 / inject_Z 10)) (inject_Z 2) == 1)%Q.
Proof. split; reflexivity. Qed.

(** * Further properties of the limiters *)

(** ** Clients are independent *)

Lemma fmap_Some_inj {A B} (f : A -> B) (o o' : option A) :
  (forall x y, f x = f y -> x = y) -> f <$> o = f <$> o' -> o = o'.
Proof.
  intros Hf. destruct o, o'; cbn; intros H; try discriminate; [|reflexivity].
  f_equal. apply Hf. congruence.
Qed.

(** The response of [is_allowed] depends only on the clock, the policy and
    the record of the client it is called for. *)
Lemma is_allowed_agree (c : string) (clk : Clock) (l l' : Limiter) :
  agree_on c l l' ->
  answer (is_allowed c (mkWorld clk l)) = answer (is_allowed c (mkWorld clk l')).
Proof.
  intros [Hst Hpol].
  destruct l as [s|s|s|s], l' as [s'|s'|s'|s']; try contradiction;
    cbn [state_of] in Hst;
    unfold is_allowed, lift, bind, get_self, id; cbn [self clock].
  - destruct Hpol as [Hc Hr].
    apply fmap_Some_inj in Hst; [|congruence].
    rewrite !TokenBucketFacts.tb_is_allowed_spec.
    unfold TokenBucketSteps.fetch. cbn [self clock]. rewrite <- Hst, <- Hc, <- Hr.
    destruct (TokenBucketLimiter.buckets s !! c); cbn zeta;
      (destruct (py_ge _ 1); [reflexivity|]);
      destruct (Qeq_bool _ 0); reflexivity.
  - apply fmap_Some_inj in Hst; [|congruence].
    rewrite !SlidingWindowFacts.sw_is_allowed_spec. cbn zeta.
    unfold SlidingWindowSteps.log. cbn [self clock]. rewrite <- Hst, <- Hpol.
    destruct (len _ <? _); [reflexivity|].
    destruct (SlidingWindowLimiter.evict _ _); reflexivity.
  - destruct Hpol as [Hc Hr].
    apply fmap_Some_inj in Hst; [|congruence].
    rewrite !LeakyBucketFacts.lb_is_allowed_spec.
    unfold LeakyBucketSteps.fetch. cbn [self clock]. rewrite <- Hst, <- Hc, <- Hr.
    destruct (LeakyBucketLimiter.buckets s !! c); cbn zeta;
      (destruct (len _ <? _); [reflexivity|]);
      destruct (Qeq_bool _ 0); reflexivity.
  - apply fmap_Some_inj in Hst; [|congruence].
    rewrite !FixedWindowFacts.fw_is_allowed_spec. cbn zeta.
    unfold FixedWindowSteps.fetch. cbn [self clock]. rewrite <- Hst, <- Hpol.
    destruct (FixedWindowLimiter.windows s !! c); cbn zeta;
      destruct (FixedWindowLimiter.count _ <? _); reflexivity.
Qed.

Ltac frame_solve :=
  intros c' Hne; split;
  [ cbn [state_of self TokenBucketSteps.with_bucket
           SlidingWindowSteps.with_window LeakyBucketSteps.with_bucket
           FixedWindowSteps.with_window TokenBucketLimiter.buckets
           SlidingWindowLimiter.windows LeakyBucketLimiter.buckets
           FixedWindowLimiter.windows];
    now rewrite lookup_insert_ne by exact Hne
  | cbn; auto ].

(** A call made for one client, with the clock held still, leaves the clock
    still and every other client's record and the policy as they were. *)
Lemma call_touches (k : Call) (l : Limiter) (now : Q) (r : Reply)
    (w' : World Limiter) :
  call k (mkWorld (frozen now) l) = Ok (r, w') ->
  clock w' = frozen now
  /\ forall c', client_of k <> c' -> agree_on c' l (self w').
Proof.
  destruct l as [s|s|s|s], k as [c|c|c]; cbn [client_of call];
    unfold is_allowed, reset, get_status, lift, bind, ret, get_self, id;
    cbn [self clock].
  - rewrite TokenBucketFacts.tb_is_allowed_spec.
    unfold TokenBucketSteps.fetch. cbn [self clock].
    destruct (TokenBucketLimiter.buckets s !! c); cbn zeta;
      (destruct (py_ge _ 1);
       [|destruct (Qeq_bool _ 0); [discriminate|]]);
      intros [= _ <-]; (split; [reflexivity|frame_solve]).
  - rewrite TokenBucketFacts.tb_reset_spec. intros [= _ <-].
    split; [reflexivity|frame_solve].
  - rewrite TokenBucketFacts.tb_get_status_spec.
    unfold TokenBucketSteps.fetch. cbn [self clock].
    destruct (TokenBucketLimiter.buckets s !! c); cbn zeta;
      intros [= _ <-]; (split; [reflexivity|frame_solve]).
  - rewrite SlidingWindowFacts.sw_is_allowed_spec. cbn zeta.
    destruct (len _ <? _);
      [|destruct (SlidingWindowLimiter.evict _ _); [discriminate|]];
      intros [= _ <-]; (split; [reflexivity|frame_solve]).
  - rewrite SlidingWindowFacts.sw_reset_spec. intros [= _ <-].
    split; [reflexivity|frame_solve].
  - rewrite SlidingWindowFacts.sw_get_status_spec. cbn zeta.
    intros [= _ <-]. split; [reflexivity|frame_solve].
  - rewrite LeakyBucketFacts.lb_is_allowed_spec.
    unfold LeakyBucketSteps.fetch. cbn [self clock].
    destruct (LeakyBucketLimiter.buckets s !! c); cbn zeta;
      (destruct (len _ <? _);
       [|destruct (Qeq_bool _ 0); [discriminate|]]);
      intros [= _ <-]; (split; [reflexivity|frame_solve]).
  - rewrite LeakyBucketFacts.lb_reset_spec. intros [= _ <-].
    split; [reflexivity|frame_solve].
  - rewrite LeakyBucketFacts.lb_get_status_spec.
    unfold LeakyBucketSteps.fetch. cbn [self clock].
    destruct (LeakyBucketLimiter.buckets s !! c); cbn zeta;
      intros [= _ <-]; (split; [reflexivity|frame_solve]).
  - rewrite FixedWindowFacts.fw_is_allowed_spec. cbn zeta.
    unfold FixedWindowSteps.fetch. cbn [self clock].
    destruct (FixedWindowLimiter.windows s !! c); cbn zeta;
      destruct (FixedWindowLimiter.count _ <? _);
      intros [= _ <-]; (split; [reflexivity|frame_solve]).
  - rewrite FixedWindowFacts.fw_reset_spec. intros [= _ <-].
    split; [reflexivity|frame_solve].
  - rewrite FixedWindowFacts.fw_get_status_spec. cbn zeta.
    unfold FixedWindowSteps.fetch. cbn [self clock].
    destruct (FixedWindowLimiter.windows s !! c); cbn zeta;
      intros [= _ <-]; (split; [reflexivity|frame_solve]).
Qed.

(** X1.  Clients are independent: with the clock held still, after any
    sequence of calls made for other clients the record of client [c] is
    untouched and [is_allowed c] answers what it would have answered before
    them. *)
Theorem other_clients_are_invisible (ks : list Call) (l : Limiter) (now : Q)
    (c : string) (rs : list Reply) (w' : World Limiter) :
  Forall (fun k => client_of k <> c) ks ->
  run ks (mkWorld (frozen now) l) = Ok (rs, w') ->
  state_of c (self w') = state_of c l
  /\ answer (is_allowed c w')
     = answer (is_allowed c (mkWorld (frozen now) l)).
Proof.
  intros Hks. revert l rs w'.
  induction Hks as [|k ks Hk _ IH]; intros l rs w'; cbn [run].
  - intros [= _ <-]. split; reflexivity.
  - unfold bind, ret.
    destruct (call k (mkWorld (frozen now) l)) as [[r [clk1 l1]]|e] eqn:Ek;
      [|discriminate].
    destruct (call_touches k l now r _ Ek) as [Hclk Hagree].
    cbn [self clock] in *. subst clk1.
    destruct (run ks (mkWorld (frozen now) l1)) as [[rs1 w2]|e] eqn:Er;
      [|discriminate].
    intros [= _ <-]. destruct (IH l1 rs1 w2 Er) as [Hst Hans].
    specialize (Hagree c Hk). split.
    + rewrite Hst. symmetry. apply Hagree.
    + rewrite Hans. symmetry. now apply is_allowed_agree.
Qed.

Lemma other_clients_are_invisible_witness :
  match run (replicate 3 (IsAllowed "a")) (mkWorld (frozen 0) spent_window)
  with
  | Ok (rs, w') =>
      state_of "c" (self w') = state_of "c" spent_window
      /\ answer (is_allowed "c" w')
         = answer (is_allowed "c" (mkWorld (frozen 0) spent_window))
  | Raise _ => False
  end.
Proof.
  destruct (run (replicate 3 (IsAllowed "a")) (mkWorld (frozen 0) spent_window))
    as [[rs w']|e] eqn:E.
  - apply (other_clients_are_invisible (replicate 3 (IsAllowed "a"%string))
             spent_window 0 "c" rs w'); [|exact E].
    repeat constructor; discriminate.
  - vm_compute in E. discriminate.
Defined.

(** ** A run of calls at one instant *)

Lemma Qmin_inject (a b : Z) :
  (Qmin (inject_Z a) (inject_Z b) == inject_Z (Z.min a b))%Q.
Proof.
  destruct (Z.le_ge_cases a b) as [H|H].
  - rewrite Z.min_l by exact H. apply Q.min_l. now rewrite <- Zle_Qle.
  - rewrite Z.min_r by lia. apply Q.min_r. rewrite <- Zle_Qle. lia.
Qed.

Lemma evict_all_now (now cutoff : Q) (d : list Q) :
  (cutoff <= now)%Q -> Forall (fun t => (t == now)%Q) d ->
  SlidingWindowLimiter.evict cutoff d = d.
Proof.
  intros Hc Hd. destruct Hd as [|x d Hx _]; [reflexivity|]. cbn.
  assert (E : py_lt x cutoff = false) by (apply py_lt_false; lra).
  now rewrite E.
Qed.

Lemma Qeq_refl_eq_Z (a b : Z) : a = b -> (inject_Z a == inject_Z b)%Q.
Proof. intros ->. reflexivity. Qed.

Lemma Qmin_eq_inject (x y : Q) (a b : Z) :
  (x == inject_Z a)%Q -> (y == inject_Z b)%Q ->
  (Qmin x y == inject_Z (Z.min a b))%Q.
Proof.
  intros Hx Hy. rewrite <- Qmin_inject. now apply Q.min_compat.
Qed.

Lemma still_adds_nothing (x now lr rate : Q) (a : Z) :
  (x == inject_Z a)%Q -> (lr == now)%Q ->
  (x + (now - lr) * rate == inject_Z a)%Q.
Proof. intros Hx Hlr. rewrite Hx, Hlr. ring. Qed.

Lemma tb_burst_step (cfg : RateLimitConfig) (now : Q) (c : string) (j : Z)
    (s : TokenBucketLimiter.t) :
  0 <= j -> spent cfg now c j (TokenBucket s) ->
  exists r s',
    TokenBucketLimiter.is_allowed c (mkWorld (frozen now) s)
    = Ok (r, mkWorld (frozen now) s')
    /\ burst_answer cfg j r
    /\ spent cfg now c (if allowed r then j + 1 else j) (TokenBucket s').
Proof.
  intros Hj (Ha & Hcfg & Hnz & Hb).
  rewrite TokenBucketFacts.tb_is_allowed_spec.
  assert (Hcap : burst_capacity cfg
                 = Z.min (Config.max_requests cfg)
                         (TokenBucketLimiter.burst_or_max cfg))
    by (unfold burst_capacity; now rewrite Ha).
  set (cap := burst_capacity cfg) in *.
  assert (Hfetch : exists b,
    TokenBucketSteps.fetch c (mkWorld (frozen now) s) = (b, frozen now)
    /\ TokenBucketLimiter.burst_size b = TokenBucketLimiter.burst_or_max cfg
    /\ (TokenBucketLimiter.tokens
          (TokenBucketSteps.refilled (TokenBucketLimiter.refill_rate s) now b)
        == inject_Z (cap - j))%Q).
  { unfold TokenBucketSteps.fetch. cbn [self clock].
    destruct (TokenBucketLimiter.buckets s !! c) as [b|].
    - destruct Hb as (Htk & Hlr & Hbs). exists b.
      split; [reflexivity|]. split; [exact Hbs|].
      unfold TokenBucketSteps.refilled. cbn [TokenBucketLimiter.tokens].
      rewrite Hbs.
      eapply Qeq_trans;
        [apply (Qmin_eq_inject _ _ (cap - j)
                  (TokenBucketLimiter.burst_or_max cfg));
         [now apply still_adds_nothing|reflexivity]
        |apply Qeq_refl_eq_Z; lia].
    - subst j. eexists. split; [reflexivity|]. rewrite Hcfg.
      split; [reflexivity|].
      unfold TokenBucketSteps.refilled.
      cbn [TokenBucketLimiter.tokens TokenBucketLimiter.last_refill
             TokenBucketLimiter.burst_size].
      rewrite Z.sub_0_r, Hcap.
      apply Qmin_eq_inject; [|reflexivity].
      apply still_adds_nothing; reflexivity. }
  destruct Hfetch as (b & -> & Hbs & Htk). cbn zeta. cbn [self clock].
  change (frozen now 0%nat) with now. change (frozen now 1%nat) with now.
  change (advance (advance (frozen now))) with (frozen now).
  set (b' := TokenBucketSteps.refilled (TokenBucketLimiter.refill_rate s)
               now b) in *.
  unfold burst_answer. fold cap.
  destruct (py_ge (TokenBucketLimiter.tokens b') 1) eqn:E.
  - apply py_ge_true in E. rewrite Htk in E.
    change 1%Q with (inject_Z 1) in E. rewrite <- Zle_Qle in E.
    assert (Hlt : (j <? cap) = true) by (apply Z.ltb_lt; lia).
    rewrite Hlt. eexists _, _. split; [reflexivity|].
    cbn [allowed remaining TokenBucketSteps.admit_response
           TokenBucketSteps.spend TokenBucketLimiter.tokens].
    assert (Hsp : (TokenBucketLimiter.tokens b' - 1
                   == inject_Z (cap - j - 1))%Q).
    { rewrite Htk. unfold Z.sub. rewrite !inject_Z_plus, !inject_Z_opp.
      reflexivity. }
    split; [split; [reflexivity|]|].
    + rewrite (py_int_comp _ _ Hsp). apply py_int_Z.
    + cbn [spent TokenBucketSteps.with_bucket TokenBucketLimiter.config
             TokenBucketLimiter.refill_rate TokenBucketLimiter.buckets].
      rewrite lookup_insert_eq.
      cbn [TokenBucketLimiter.tokens TokenBucketLimiter.last_refill
             TokenBucketLimiter.burst_size TokenBucketSteps.refilled b'].
      repeat split; auto; try reflexivity.
      fold b'. rewrite Hsp. apply Qeq_refl_eq_Z. lia.
  - apply py_ge_false in E. rewrite Htk in E.
    change 1%Q with (inject_Z 1) in E. rewrite <- Zlt_Qlt in E.
    assert (Hlt : (j <? cap) = false) by (apply Z.ltb_ge; lia).
    rewrite Hlt, Hnz. eexists _, _. split; [reflexivity|].
    cbn [allowed remaining TokenBucketSteps.reject_response].
    split; [split; reflexivity|].
    cbn [spent TokenBucketSteps.with_bucket TokenBucketLimiter.config
           TokenBucketLimiter.refill_rate TokenBucketLimiter.buckets].
    rewrite lookup_insert_eq.
    repeat split; auto; try reflexivity.
Qed.

Lemma sw_burst_step (cfg : RateLimitConfig) (now : Q) (c : string) (j : Z)
    (s : SlidingWindowLimiter.t) :
  valid cfg -> spent cfg now c j (SlidingWindow s) ->
  exists r s',
    SlidingWindowLimiter.is_allowed c (mkWorld (frozen now) s)
    = Ok (r, mkWorld (frozen now) s')
    /\ burst_answer cfg j r
    /\ spent cfg now c (if allowed r then j + 1 else j) (SlidingWindow s').
Proof.
  intros [Hm Hw] (Ha & Hcfg & Hd).
  rewrite SlidingWindowFacts.sw_is_allowed_spec. cbn zeta. cbn [self clock].
  change (frozen now 0%nat) with now.
  change (advance (frozen now)) with (frozen now).
  assert (Hcap : burst_capacity cfg = Config.max_requests cfg)
    by (unfold burst_capacity; now rewrite Ha).
  unfold burst_answer. rewrite Hcap, Hcfg.
  pose proof (inject_Z_pos _ Hw) as Hw'.
  assert (Hlog : len (SlidingWindowSteps.log s c) = j
                 /\ Forall (fun t => (t == now)%Q)
                           (SlidingWindowSteps.log s c)).
  { unfold SlidingWindowSteps.log.
    destruct (SlidingWindowLimiter.windows s !! c); [exact Hd|].
    subst j. split; [reflexivity|constructor]. }
  destruct Hlog as [Hlen Hall].
  rewrite (evict_all_now now) by (try exact Hall; lra).
  rewrite Hlen.
  destruct (j <? Config.max_requests cfg) eqn:E.
  - eexists _, _. split; [reflexivity|]. cbn [allowed remaining].
    split; [split; [reflexivity|lia]|].
    cbn [spent SlidingWindowSteps.with_window SlidingWindowLimiter.config
           SlidingWindowLimiter.windows].
    rewrite lookup_insert_eq. repeat split; auto.
    + rewrite len_app, Hlen. reflexivity.
    + apply Forall_app. split; [exact Hall|]. repeat constructor.
  - apply Z.ltb_ge in E.
    destruct (SlidingWindowSteps.log s c) as [|w0 rest] eqn:El.
    { unfold len in Hlen. cbn in Hlen. lia. }
    eexists _, _. split; [reflexivity|]. cbn [allowed remaining].
    split; [split; reflexivity|].
    cbn [spent SlidingWindowSteps.with_window SlidingWindowLimiter.config
           SlidingWindowLimiter.windows].
    rewrite lookup_insert_eq. repeat split; auto.
Qed.

Lemma lb_burst_step (cfg : RateLimitConfig) (now : Q) (c : string) (j : Z)
    (s : LeakyBucketLimiter.t) :
  spent cfg now c j (LeakyBucket s) ->
  exists r s',
    LeakyBucketLimiter.is_allowed c (mkWorld (frozen now) s)
    = Ok (r, mkWorld (frozen now) s')
    /\ burst_answer cfg j r
    /\ spent cfg now c (if allowed r then j + 1 else j) (LeakyBucket s').
Proof.
  intros (Ha & Hcfg & Hnz & Hb).
  rewrite LeakyBucketFacts.lb_is_allowed_spec.
  assert (Hcap : burst_capacity cfg = Config.max_requests cfg)
    by (unfold burst_capacity; now rewrite Ha).
  unfold burst_answer. rewrite Hcap.
  assert (Hfetch : exists b,
    LeakyBucketSteps.fetch c (mkWorld (frozen now) s) = (b, frozen now)
    /\ len (LeakyBucketLimiter.queue b) = j
    /\ LeakyBucketSteps.leaked (LeakyBucketLimiter.leak_rate s) now b
       = LeakyBucketLimiter.mkBucket (LeakyBucketLimiter.queue b) now
           (LeakyBucketLimiter.total_leaked b)).
  { assert (Hstill : forall b,
      (LeakyBucketLimiter.last_leak_time b == now)%Q ->
      LeakyBucketSteps.leaked (LeakyBucketLimiter.leak_rate s) now b
      = LeakyBucketLimiter.mkBucket (LeakyBucketLimiter.queue b) now
          (LeakyBucketLimiter.total_leaked b)).
    { intros b Hlr. unfold LeakyBucketSteps.leaked.
      rewrite (py_int_zero _) by (rewrite Hlr; ring). reflexivity. }
    unfold LeakyBucketSteps.fetch. cbn [self clock].
    destruct (LeakyBucketLimiter.buckets s !! c) as [b|].
    - destruct Hb as [Hlen Hlr]. exists b. auto.
    - subst j. eexists. split; [reflexivity|]. split; [reflexivity|].
      apply Hstill. reflexivity. }
  destruct Hfetch as (b & -> & Hlen & Hleak). cbn zeta. cbn [self clock].
  change (frozen now 0%nat) with now. change (frozen now 1%nat) with now.
  change (frozen now 2%nat) with now.
  change (advance (frozen now)) with (frozen now).
  rewrite Hleak. cbn [LeakyBucketLimiter.queue]. rewrite Hlen, Hcfg.
  destruct (j <? Config.max_requests cfg) eqn:E.
  - eexists _, _. split; [reflexivity|]. cbn [allowed remaining].
    split; [split; [reflexivity|lia]|].
    cbn [spent LeakyBucketSteps.with_bucket LeakyBucketLimiter.config
           LeakyBucketLimiter.leak_rate LeakyBucketLimiter.buckets].
    rewrite lookup_insert_eq.
    cbn [LeakyBucketSteps.enqueue LeakyBucketLimiter.queue
           LeakyBucketLimiter.last_leak_time].
    repeat split; auto; try reflexivity.
    rewrite len_app, Hlen. reflexivity.
  - rewrite Hnz. eexists _, _. split; [reflexivity|]. cbn [allowed remaining].
    split; [split; reflexivity|].
    cbn [spent LeakyBucketSteps.with_bucket LeakyBucketLimiter.config
           LeakyBucketLimiter.leak_rate LeakyBucketLimiter.buckets].
    rewrite lookup_insert_eq.
    cbn [LeakyBucketLimiter.queue LeakyBucketLimiter.last_leak_time].
    repeat split; auto; try reflexivity.
Qed.

Lemma fw_burst_step (cfg : RateLimitConfig) (now : Q) (c : string) (j : Z)
    (s : FixedWindowLimiter.t) :
  valid cfg -> spent cfg now c j (FixedWindow s) ->
  exists r s',
    FixedWindowLimiter.is_allowed c (mkWorld (frozen now) s)
    = Ok (r, mkWorld (frozen now) s')
    /\ burst_answer cfg j r
    /\ spent cfg now c (if allowed r then j + 1 else j) (FixedWindow s').
Proof.
  intros [Hm Hw] (Ha & Hcfg & Hb).
  rewrite FixedWindowFacts.fw_is_allowed_spec. cbn zeta. cbn [self clock].
  assert (Hcap : burst_capacity cfg = Config.max_requests cfg)
    by (unfold burst_capacity; now rewrite Ha).
  unfold burst_answer. rewrite Hcap, Hcfg.
  pose proof (inject_Z_pos _ Hw) as Hw'.
  assert (Hfetch : exists win,
    FixedWindowSteps.fetch c (mkWorld (frozen now) s) = (win, frozen now)
    /\ FixedWindowLimiter.count win = j
    /\ (FixedWindowLimiter.window_start win == now)%Q).
  { unfold FixedWindowSteps.fetch. cbn [self clock].
    destruct (FixedWindowLimiter.windows s !! c) as [win|].
    - destruct Hb as [Hc Hws]. exists win. auto.
    - subst j. eexists. split; [reflexivity|]. split; reflexivity. }
  destruct Hfetch as (win & -> & Hc & Hws).
  change (frozen now 0%nat) with now.
  assert (Hroll : FixedWindowLimiter.roll cfg now win = win).
  { unfold FixedWindowLimiter.roll.
    assert (E : py_ge (now - FixedWindowLimiter.window_start win)
                      (inject_Z (Config.time_window cfg)) = false)
      by (apply py_ge_false; lra).
    now rewrite E. }
  rewrite Hroll, Hc.
  destruct (j <? Config.max_requests cfg) eqn:E.
  - eexists _, _. split; [reflexivity|]. cbn [allowed remaining].
    split; [split; [reflexivity|lia]|].
    cbn [spent FixedWindowSteps.with_window FixedWindowLimiter.config
           FixedWindowLimiter.windows].
    rewrite lookup_insert_eq.
    cbn [FixedWindowSteps.bump FixedWindowLimiter.count
           FixedWindowLimiter.window_start].
    repeat split; auto. now rewrite Hc.
  - eexists _, _. split; [reflexivity|]. cbn [allowed remaining].
    split; [split; reflexivity|].
    cbn [spent FixedWindowSteps.with_window FixedWindowLimiter.config
           FixedWindowLimiter.windows].
    rewrite lookup_insert_eq. repeat split; auto.
Qed.

Lemma burst_step (cfg : RateLimitConfig) (now : Q) (c : string) (j : Z)
    (l : Limiter) :
  valid cfg -> 0 <= j -> spent cfg now c j l ->
  exists r l',
    is_allowed c (mkWorld (frozen now) l) = Ok (r, mkWorld (frozen now) l')
    /\ burst_answer cfg j r
    /\ spent cfg now c (if allowed r then j + 1 else j) l'.
Proof.
  intros Hv Hj Hs.
  destruct l as [s|s|s|s];
    unfold is_allowed, lift, bind, get_self, id; cbn [self clock].
  - destruct (tb_burst_step cfg now c j s Hj Hs) as (r & s' & -> & H1 & H2).
    cbn [self clock]. eauto.
  - destruct (sw_burst_step cfg now c j s Hv Hs) as (r & s' & -> & H1 & H2).
    cbn [self clock]. eauto.
  - destruct (lb_burst_step cfg now c j s Hs) as (r & s' & -> & H1 & H2).
    cbn [self clock]. eauto.
  - destruct (fw_burst_step cfg now c j s Hv Hs) as (r & s' & -> & H1 & H2).
    cbn [self clock]. eauto.
Qed.

Lemma burst_answer_shift (cfg : RateLimitConfig) (js jn : Z)
    (r : RateLimitResponse) :
  js = jn \/ (burst_capacity cfg <= js /\ burst_capacity cfg <= jn) ->
  burst_answer cfg js r -> burst_answer cfg jn r.
Proof.
  intros [->|[H1 H2]]; [auto|]. unfold burst_answer.
  assert (E1 : (js <? burst_capacity cfg) = false) by (apply Z.ltb_ge; lia).
  assert (E2 : (jn <? burst_capacity cfg) = false) by (apply Z.ltb_ge; lia).
  now rewrite E1, E2.
Qed.

Lemma burst_run (cfg : RateLimitConfig) (now : Q) (c : string) (n : nat) :
  valid cfg ->
  forall (js jn : Z) (l : Limiter),
    0 <= js ->
    js = jn \/ (burst_capacity cfg <= js /\ burst_capacity cfg <= jn) ->
    spent cfg now c js l ->
    exists rs w',
      run (replicate n (IsAllowed c)) (mkWorld (frozen now) l)
      = Ok (map Decision rs, w')
      /\ length rs = n
      /\ forall (i : nat) r, rs !! i = Some r ->
           burst_answer cfg (jn + Z.of_nat i) r.
Proof.
  intros Hv. induction n as [|n IH]; intros js jn l Hjs Hrel Hs.
  - exists [], (mkWorld (frozen now) l). split; [reflexivity|].
    split; [reflexivity|]. intros i r H. destruct i; discriminate.
  - destruct (burst_step cfg now c js l Hv Hjs Hs) as (r & l' & Hr & Ha & Hs').
    assert (Hnext : let js' := if allowed r then js + 1 else js in
                    0 <= js'
                    /\ (js' = jn + 1
                        \/ (burst_capacity cfg <= js'
                            /\ burst_capacity cfg <= jn + 1))).
    { cbn zeta. unfold burst_answer in Ha.
      destruct (js <? burst_capacity cfg) eqn:E.
      - destruct Ha as [-> _]. apply Z.ltb_lt in E.
        split; [lia|]. left. destruct Hrel as [->|[H _]]; lia.
      - destruct Ha as [-> _]. apply Z.ltb_ge in E.
        split; [lia|]. right. destruct Hrel as [->|[_ H]]; lia. }
    destruct Hnext as [Hjs' Hrel'].
    destruct (IH _ (jn + 1) l' Hjs' Hrel' Hs') as (rs & w' & Hrun & Hlen & Hall).
    exists (r :: rs), w'. split; [|split].
    + cbn [replicate run call]. unfold bind, ret. rewrite Hr.
      unfold bind, ret in Hrun. rewrite Hrun. reflexivity.
    + cbn. now rewrite Hlen.
    + intros [|i] r' Hi; cbn in Hi.
      * injection Hi as <-. rewrite Z.add_0_r.
        now apply (burst_answer_shift cfg js jn).
      * specialize (Hall i r' Hi).
        replace (jn + Z.of_nat (S i)) with (jn + 1 + Z.of_nat i) by lia.
        exact Hall.
Qed.

Lemma create_spent (cfg : RateLimitConfig) (now : Q) (c : string) :
  valid cfg -> in_process cfg ->
  exists l, RateLimiterFactory.create cfg = Ok (RateLimiterFactory.Local l)
            /\ spent cfg now c 0 l.
Proof.
  intros [Hm Hw] [Hd Ha]. unfold RateLimiterFactory.create. rewrite Hd.
  assert (Hz : (Config.time_window cfg =? 0) = false) by lia.
  destruct (Config.algorithm cfg) eqn:E; cbn; try congruence.
  - unfold RateLimiterFactory.construct, TokenBucketLimiter.init.
    destruct (truthy_float (Config.refill_rate cfg)) as [r|] eqn:Er.
    + eexists. split; [reflexivity|]. cbn. rewrite lookup_empty.
      repeat split; auto.
      now apply truthy_float_nonzero with (o := Config.refill_rate cfg).
    + rewrite Hz. eexists. split; [reflexivity|]. cbn. rewrite lookup_empty.
      repeat split; auto. now apply ratio_nonzero.
  - eexists. split; [reflexivity|]. cbn. rewrite lookup_empty. auto.
  - unfold RateLimiterFactory.construct, LeakyBucketLimiter.init.
    rewrite Hz. eexists. split; [reflexivity|]. cbn. rewrite lookup_empty.
    repeat split; auto. now apply ratio_nonzero.
  - eexists. split; [reflexivity|]. cbn. rewrite lookup_empty. auto.
Qed.

(** X2.  At one instant a fresh limiter admits exactly [burst_capacity]
    calls of a client and rejects the rest: the [i]-th call (from 0) is
    admitted with [remaining = burst_capacity - i - 1] when
    [i < burst_capacity], and rejected with [remaining = 0] otherwise.  The
    capacity is [max_requests], and for the token bucket the smaller of
    [max_requests] and the burst size. *)
Theorem burst_at_one_instant (cfg : RateLimitConfig) (now : Q) (c : string)
    (n : nat) :
  valid cfg -> in_process cfg ->
  exists rs,
    session cfg (frozen now) (replicate n (IsAllowed c))
    = Ok (map Decision rs)
    /\ length rs = n
    /\ forall (i : nat) r, rs !! i = Some r ->
         burst_answer cfg (Z.of_nat i) r.
Proof.
  intros Hv Hp. unfold session.
  destruct (create_spent cfg now c Hv Hp) as (l & -> & Hs).
  destruct (burst_run cfg now c n Hv 0 0 l ltac:(lia) ltac:(now left) Hs)
    as (rs & w' & -> & Hlen & Hall).
  exists rs. split; [reflexivity|]. split; [exact Hlen|]. exact Hall.
Qed.

Lemma burst_at_one_instant_witness :
  exists rs,
    session (Config.mk 10 60 TOKEN_BUCKET (Some 5) None false "")
            (frozen 0) (replicate 7 (IsAllowed "client3"))
    = Ok (map Decision rs)
    /\ length rs = 7%nat
    /\ forall (i : nat) r, rs !! i = Some r ->
         burst_answer (Config.mk 10 60 TOKEN_BUCKET (Some 5) None false "")
                      (Z.of_nat i) r.
Proof.
  apply (burst_at_one_instant
           (Config.mk 10 60 TOKEN_BUCKET (Some 5) None false "")
           0 "client3" 7).
  - split; cbn; lia.
  - split; [reflexivity|discriminate].
Defined.

(** ** Reset, then decide *)

Lemma py_int_sub1 (x : Q) (a : Z) :
  (x == inject_Z a)%Q -> py_int (x - 1) = a - 1.
Proof.
  intros H. rewrite (py_int_comp (x - 1) (inject_Z (a - 1))).
  - apply py_int_Z.
  - rewrite H. unfold Z.sub. rewrite inject_Z_plus, inject_Z_opp. reflexivity.
Qed.

(** X3.  Right after [reset] the client is served as new: at the same
    clock reading [is_allowed] admits the call with
    [remaining = capacity - 1] and
    [requests_in_window = max_requests - remaining], whatever the client's
    record was before.  The capacity is [max_requests], and for the token
    bucket [min(max_requests, burst)], which must be at least 1. *)
Theorem reset_then_decide (l : Limiter) (now : Q) (c : string) :
  sound l -> 1 <= capacity_of l ->
  exists r w',
    (let* _ := reset c in is_allowed c) (mkWorld (frozen now) l) = Ok (r, w')
    /\ allowed r = true
    /\ remaining r = capacity_of l - 1
    /\ requests_in_window r
       = Config.max_requests (config_of l) - remaining r.
Proof.
  intros Hs Hcap.
  destruct l as [s|s|s|s]; cbn [sound capacity_of config_of] in *;
    unfold bind at 1; unfold reset, is_allowed, lift, bind, get_self, id;
    cbn [self clock].
  - rewrite TokenBucketFacts.tb_reset_spec. cbn [self clock].
    rewrite TokenBucketFacts.tb_is_allowed_spec.
    unfold TokenBucketSteps.fetch. cbn [self clock].
    unfold TokenBucketSteps.with_bucket at 1.
    cbn [TokenBucketLimiter.buckets]. rewrite lookup_insert_eq. cbn zeta.
    cbn [TokenBucketSteps.with_bucket TokenBucketLimiter.config
           TokenBucketLimiter.refill_rate].
    set (cfg := TokenBucketLimiter.config s) in *.
    match goal with
    | |- context [py_ge (TokenBucketLimiter.tokens ?b) 1] => set (b' := b)
    end.
    assert (Htk : (TokenBucketLimiter.tokens b'
                   == inject_Z (Z.min (Config.max_requests cfg)
                                  (TokenBucketLimiter.burst_or_max cfg)))%Q).
    { unfold b', TokenBucketSteps.refilled.
      cbn [TokenBucketLimiter.tokens TokenBucketLimiter.last_refill
             TokenBucketLimiter.burst_size].
      apply Qmin_eq_inject; [|reflexivity].
      apply still_adds_nothing; reflexivity. }
    assert (E : py_ge (TokenBucketLimiter.tokens b') 1 = true).
    { apply py_ge_true. rewrite Htk. change 1%Q with (inject_Z 1).
      now rewrite <- Zle_Qle. }
    rewrite E. eexists _, _. split; [reflexivity|].
    cbn [allowed remaining requests_in_window TokenBucketSteps.admit_response
           TokenBucketSteps.spend TokenBucketLimiter.tokens].
    rewrite (py_int_sub1 _ _ Htk). split; [reflexivity|]. split; reflexivity.
  - rewrite SlidingWindowFacts.sw_reset_spec. cbn [self clock].
    rewrite SlidingWindowFacts.sw_is_allowed_spec. cbn zeta. cbn [self clock].
    rewrite log_with_window.
    cbn [SlidingWindowLimiter.evict SlidingWindowSteps.with_window
           SlidingWindowLimiter.config].
    set (m := Config.max_requests (SlidingWindowLimiter.config s)) in *.
    assert (E : (len (@nil Q) <? m) = true)
      by (apply Z.ltb_lt; unfold len; cbn; lia).
    rewrite E. eexists _, _. split; [reflexivity|].
    cbn [allowed remaining requests_in_window]. unfold len. cbn.
    split; [reflexivity|]. split; lia.
  - rewrite LeakyBucketFacts.lb_reset_spec. cbn [self clock].
    rewrite LeakyBucketFacts.lb_is_allowed_spec.
    unfold LeakyBucketSteps.fetch. cbn [self clock].
    unfold LeakyBucketSteps.with_bucket at 1.
    cbn [LeakyBucketLimiter.buckets]. rewrite lookup_insert_eq. cbn zeta.
    cbn [LeakyBucketSteps.with_bucket LeakyBucketLimiter.config
           LeakyBucketLimiter.leak_rate].
    set (m := Config.max_requests (LeakyBucketLimiter.config s)) in *.
    assert (Hq : LeakyBucketLimiter.queue
                   (LeakyBucketSteps.leaked (LeakyBucketLimiter.leak_rate s)
                      (advance (frozen now) 0%nat)
                      (LeakyBucketLimiter.mkBucket [] (frozen now 0%nat) 0))
                 = []).
    { unfold LeakyBucketSteps.leaked. cbn [LeakyBucketLimiter.queue].
      destruct (leak_loop_facts
                  (Z.to_nat (py_int ((advance (frozen now) 0%nat
                     - LeakyBucketLimiter.last_leak_time
                         (LeakyBucketLimiter.mkBucket [] (frozen now 0%nat) 0))
                     * LeakyBucketLimiter.leak_rate s)))
                  (LeakyBucketLimiter.mkBucket [] (frozen now 0%nat) 0))
        as (_ & H2 & _).
      cbn [LeakyBucketLimiter.queue] in H2.
      destruct (LeakyBucketLimiter.queue _); [reflexivity|].
      unfold len in H2. cbn in H2. lia. }
    rewrite Hq.
    assert (E : (len (@nil Q) <? m) = true)
      by (apply Z.ltb_lt; unfold len; cbn; lia).
    rewrite E. eexists _, _. split; [reflexivity|].
    cbn [allowed remaining requests_in_window]. unfold len. cbn.
    split; [reflexivity|]. split; lia.
  - rewrite FixedWindowFacts.fw_reset_spec. cbn [self clock].
    rewrite FixedWindowFacts.fw_is_allowed_spec. cbn zeta.
    unfold FixedWindowSteps.fetch. cbn [self clock].
    unfold FixedWindowSteps.with_window at 1.
    cbn [FixedWindowLimiter.windows]. rewrite lookup_insert_eq.
    cbn [FixedWindowSteps.with_window FixedWindowLimiter.config].
    set (m := Config.max_requests (FixedWindowLimiter.config s)) in *.
    assert (Hroll : FixedWindowLimiter.count
                      (FixedWindowLimiter.roll (FixedWindowLimiter.config s)
                         (advance (frozen now) 0%nat)
                         (FixedWindowLimiter.mkWindow 0 (frozen now 0%nat)))
                    = 0).
    { unfold FixedWindowLimiter.roll. destruct (py_ge _ _); reflexivity. }
    rewrite Hroll.
    assert (E : (0 <? m) = true) by (apply Z.ltb_lt; lia).
    rewrite E. eexists _, _. split; [reflexivity|].
    cbn [allowed remaining requests_in_window].
    split; [reflexivity|]. split; lia.
Qed.

Lemma reset_then_decide_witness :
  exists r w',
    (let* _ := reset "c" in is_allowed "c") (mkWorld (frozen 3) spent_window)
    = Ok (r, w')
    /\ allowed r = true
    /\ remaining r = 1 - 1
    /\ requests_in_window r = 1 - remaining r.
Proof.
  apply (reset_then_decide spent_window 3 "c").
  - exact I.
  - cbn. lia.
Defined.

(** ** Two admissions in a row *)

Lemma Qfloor_sub1 (x : Q) : Qfloor (x - 1) = Qfloor x - 1.
Proof.
  pose proof (Qfloor_le x) as H1. pose proof (Qlt_floor x) as H2.
  pose proof (Qfloor_le (x - 1)) as H3. pose proof (Qlt_floor (x - 1)) as H4.
  rewrite inject_Z_plus in H2, H4. change (inject_Z 1) with 1%Q in H2, H4.
  assert (Ha : (inject_Z (Qfloor (x - 1)) < inject_Z (Qfloor x))%Q) by lra.
  assert (Hb : (inject_Z (Qfloor x - 1) < inject_Z (Qfloor (x - 1) + 1))%Q).
  { unfold Z.sub. rewrite !inject_Z_plus, inject_Z_opp.
    change (inject_Z 1) with 1%Q. lra. }
  rewrite <- Zlt_Qlt in Ha, Hb. lia.
Qed.

Lemma py_int_pred (x : Q) : (1 <= x)%Q -> py_int (x - 1) = py_int x - 1.
Proof.
  intros H. rewrite !py_int_nonneg by lra. apply Qfloor_sub1.
Qed.

Lemma tb_two_admissions (s : TokenBucketLimiter.t) (now : Q) (c : string)
    (r1 r2 : RateLimitResponse) (w1 w2 : World TokenBucketLimiter.t) :
  TokenBucketLimiter.is_allowed c (mkWorld (frozen now) s) = Ok (r1, w1) ->
  TokenBucketLimiter.is_allowed c w1 = Ok (r2, w2) ->
  allowed r1 = true -> allowed r2 = true ->
  remaining r2 = remaining r1 - 1
  /\ requests_in_window r2 = requests_in_window r1 + 1.
Proof.
  rewrite TokenBucketFacts.tb_is_allowed_spec.
  assert (Hfetch : exists b,
             TokenBucketSteps.fetch c (mkWorld (frozen now) s)
             = (b, frozen now)).
  { unfold TokenBucketSteps.fetch. cbn [self clock].
    destruct (TokenBucketLimiter.buckets s !! c); eauto. }
  destruct Hfetch as [b ->]. cbn zeta. cbn [self clock].
  change (frozen now 0%nat) with now. change (frozen now 1%nat) with now.
  set (rate := TokenBucketLimiter.refill_rate s).
  set (b1 := TokenBucketSteps.refilled rate now b).
  destruct (py_ge (TokenBucketLimiter.tokens b1) 1) eqn:E1.
  2:{ destruct (Qeq_bool rate 0); [discriminate|].
      intros [= <- _] _ H. discriminate H. }
  intros [= <- <-]. rewrite TokenBucketFacts.tb_is_allowed_spec.
  unfold TokenBucketSteps.fetch. cbn [self clock].
  unfold TokenBucketSteps.with_bucket at 1.
  cbn [TokenBucketLimiter.buckets]. rewrite lookup_insert_eq. cbn zeta.
  cbn [TokenBucketSteps.with_bucket TokenBucketLimiter.config
         TokenBucketLimiter.refill_rate].
  change (advance (advance (frozen now)) 0%nat) with now.
  change (advance (advance (frozen now)) 1%nat) with now.
  fold rate.
  set (b2 := TokenBucketSteps.refilled rate now (TokenBucketSteps.spend b1)).
  assert (Htk : (TokenBucketLimiter.tokens b2
                 == TokenBucketLimiter.tokens b1 - 1)%Q).
  { unfold b2, TokenBucketSteps.refilled, TokenBucketSteps.spend.
    cbn [TokenBucketLimiter.tokens TokenBucketLimiter.last_refill
           TokenBucketLimiter.burst_size].
    pose proof (refilled_le_burst rate now b) as Hle. fold b1 in Hle.
    assert (Hb1 : TokenBucketLimiter.burst_size b1
                  = TokenBucketLimiter.burst_size b) by reflexivity.
    assert (Hlr : TokenBucketLimiter.last_refill b1 = now) by reflexivity.
    rewrite Hb1, Hlr.
    rewrite Q.min_l;
      [ring|].
    rewrite Hb1 in Hle || idtac. lra. }
  destruct (py_ge (TokenBucketLimiter.tokens b2) 1) eqn:E2.
  2:{ destruct (Qeq_bool rate 0); [discriminate|].
      intros [= <- _] _ H. discriminate H. }
  intros [= <- _] _ _.
  cbn [remaining requests_in_window TokenBucketSteps.admit_response
         TokenBucketSteps.spend TokenBucketLimiter.tokens].
  apply py_ge_true in E2. rewrite Htk in E2.
  assert (Hrem : py_int (TokenBucketLimiter.tokens b2 - 1)
                 = py_int (TokenBucketLimiter.tokens b1 - 1) - 1).
  { rewrite (py_int_comp _ (TokenBucketLimiter.tokens b1 - 1 - 1))
      by (rewrite Htk; reflexivity).
    now apply py_int_pred. }
  rewrite Hrem. split; lia.
Qed.

Lemma evict_kept_and_new (cutoff x : Q) (d : list Q) :
  (cutoff <= x)%Q ->
  SlidingWindowLimiter.evict cutoff (SlidingWindowLimiter.evict cutoff d ++ [x])
  = SlidingWindowLimiter.evict cutoff d ++ [x].
Proof.
  intros Hx.
  destruct (SlidingWindowLimiter.evict cutoff d) as [|w0 rest] eqn:E.
  - cbn. now apply py_lt_false in Hx as ->.
  - apply evict_front in E. cbn. now apply py_lt_false in E as ->.
Qed.

Lemma sw_two_admissions (s : SlidingWindowLimiter.t) (now : Q) (c : string)
    (r1 r2 : RateLimitResponse) (w1 w2 : World SlidingWindowLimiter.t) :
  0 <= Config.time_window (SlidingWindowLimiter.config s) ->
  SlidingWindowLimiter.is_allowed c (mkWorld (frozen now) s) = Ok (r1, w1) ->
  SlidingWindowLimiter.is_allowed c w1 = Ok (r2, w2) ->
  allowed r1 = true -> allowed r2 = true ->
  remaining r2 = remaining r1 - 1
  /\ requests_in_window r2 = requests_in_window r1 + 1.
Proof.
  intros HW. rewrite SlidingWindowFacts.sw_is_allowed_spec.
  cbn zeta. cbn [self clock]. change (frozen now 0%nat) with now.
  set (cfg := SlidingWindowLimiter.config s) in *.
  set (cut := (now - inject_Z (Config.time_window cfg))%Q).
  set (l := SlidingWindowLimiter.evict cut (SlidingWindowSteps.log s c)).
  destruct (len l <? Config.max_requests cfg) eqn:E1.
  2:{ destruct l; [discriminate|]. intros [= <- _] _ H. discriminate H. }
  intros [= <- <-]. rewrite SlidingWindowFacts.sw_is_allowed_spec.
  cbn zeta. cbn [self clock]. rewrite log_with_window.
  cbn [SlidingWindowSteps.with_window SlidingWindowLimiter.config].
  change (advance (frozen now) 0%nat) with now. fold cfg. fold cut.
  assert (Hcut : (cut <= now)%Q).
  { unfold cut. rewrite Zle_Qle in HW. change (inject_Z 0) with 0%Q in HW.
    lra. }
  assert (Hev : SlidingWindowLimiter.evict cut (l ++ [now]) = l ++ [now])
    by (apply evict_kept_and_new; exact Hcut).
  rewrite !Hev.
  destruct (len (l ++ [now]) <? Config.max_requests cfg) eqn:E2.
  2:{ destruct (l ++ [now]); [discriminate|].
      intros [= <- _] _ H. discriminate H. }
  intros [= <- _] _ _. cbn [remaining requests_in_window].
  rewrite len_app. change (len [now]) with 1. split; lia.
Qed.

Lemma leaked_again (rate now : Q) (b : LeakyBucketLimiter.Bucket) :
  LeakyBucketLimiter.last_leak_time b = now ->
  LeakyBucketLimiter.queue (LeakyBucketSteps.leaked rate now b)
  = LeakyBucketLimiter.queue b.
Proof.
  intros <-. unfold LeakyBucketSteps.leaked. cbn [LeakyBucketLimiter.queue].
  assert (E : py_int ((LeakyBucketLimiter.last_leak_time b
                       - LeakyBucketLimiter.last_leak_time b) * rate) = 0).
  { apply py_int_zero. ring. }
  now rewrite E.
Qed.

Lemma lb_two_admissions (s : LeakyBucketLimiter.t) (now : Q) (c : string)
    (r1 r2 : RateLimitResponse) (w1 w2 : World LeakyBucketLimiter.t) :
  LeakyBucketLimiter.is_allowed c (mkWorld (frozen now) s) = Ok (r1, w1) ->
  LeakyBucketLimiter.is_allowed c w1 = Ok (r2, w2) ->
  allowed r1 = true -> allowed r2 = true ->
  remaining r2 = remaining r1 - 1
  /\ requests_in_window r2 = requests_in_window r1 + 1.
Proof.
  rewrite LeakyBucketFacts.lb_is_allowed_spec.
  assert (Hfetch : exists b,
             LeakyBucketSteps.fetch c (mkWorld (frozen now) s)
             = (b, frozen now)).
  { unfold LeakyBucketSteps.fetch. cbn [self clock].
    destruct (LeakyBucketLimiter.buckets s !! c); eauto. }
  destruct Hfetch as [b ->]. cbn zeta. cbn [self clock].
  change (frozen now 0%nat) with now. change (frozen now 1%nat) with now.
  change (frozen now 2%nat) with now.
  set (rate := LeakyBucketLimiter.leak_rate s).
  set (cfg := LeakyBucketLimiter.config s).
  set (b1 := LeakyBucketSteps.leaked rate now b).
  destruct (len (LeakyBucketLimiter.queue b1) <? Config.max_requests cfg)
    eqn:E1.
  2:{ destruct (Qeq_bool rate 0); [discriminate|].
      intros [= <- _] _ H. discriminate H. }
  intros [= <- <-]. rewrite LeakyBucketFacts.lb_is_allowed_spec.
  unfold LeakyBucketSteps.fetch. cbn [self clock].
  unfold LeakyBucketSteps.with_bucket at 1.
  cbn [LeakyBucketLimiter.buckets]. rewrite lookup_insert_eq. cbn zeta.
  cbn [LeakyBucketSteps.with_bucket LeakyBucketLimiter.config
         LeakyBucketLimiter.leak_rate].
  change (advance (advance (advance (frozen now))) 0%nat) with now.
  change (advance (advance (advance (frozen now))) 1%nat) with now.
  change (advance (advance (advance (frozen now))) 2%nat) with now.
  fold rate. fold cfg.
  rewrite (leaked_again rate now (LeakyBucketSteps.enqueue now b1))
    by reflexivity.
  cbn [LeakyBucketSteps.enqueue LeakyBucketLimiter.queue].
  destruct (len (LeakyBucketLimiter.queue b1 ++ [now])
            <? Config.max_requests cfg) eqn:E2.
  2:{ destruct (Qeq_bool rate 0); [discriminate|].
      intros [= <- _] _ H. discriminate H. }
  intros [= <- _] _ _. cbn [remaining requests_in_window].
  rewrite len_app. change (len [now]) with 1. split; lia.
Qed.

Lemma fw_two_admissions (s : FixedWindowLimiter.t) (now : Q) (c : string)
    (r1 r2 : RateLimitResponse) (w1 w2 : World FixedWindowLimiter.t) :
  0 < Config.time_window (FixedWindowLimiter.config s) ->
  FixedWindowLimiter.is_allowed c (mkWorld (frozen now) s) = Ok (r1, w1) ->
  FixedWindowLimiter.is_allowed c w1 = Ok (r2, w2) ->
  allowed r1 = true -> allowed r2 = true ->
  remaining r2 = remaining r1 - 1
  /\ requests_in_window r2 = requests_in_window r1 + 1.
Proof.
  intros HW. rewrite FixedWindowFacts.fw_is_allowed_spec.
  assert (Hfetch : exists win clk,
             FixedWindowSteps.fetch c (mkWorld (frozen now) s) = (win, clk)
             /\ clk 0%nat = now).
  { unfold FixedWindowSteps.fetch. cbn [self clock].
    destruct (FixedWindowLimiter.windows s !! c); eauto. }
  destruct Hfetch as (win & clk & -> & Hclk). cbn zeta. cbn [self clock].
  change (frozen now 0%nat) with now.
  set (cfg := FixedWindowLimiter.config s) in *.
  set (win1 := FixedWindowLimiter.roll cfg now win).
  assert (Hkeep : FixedWindowLimiter.roll cfg now (FixedWindowSteps.bump win1)
                  = FixedWindowSteps.bump win1).
  { unfold FixedWindowLimiter.roll at 1.
    cbn [FixedWindowSteps.bump FixedWindowLimiter.window_start].
    assert (E : py_ge (now - FixedWindowLimiter.window_start win1)
                      (inject_Z (Config.time_window cfg)) = false);
      [|now rewrite E].
    apply py_ge_false. rewrite Zlt_Qlt in HW.
    change (inject_Z 0) with 0%Q in HW.
    unfold win1, FixedWindowLimiter.roll.
    destruct (py_ge (now - FixedWindowLimiter.window_start win)
                    (inject_Z (Config.time_window cfg))) eqn:E.
    - cbn [FixedWindowLimiter.window_start]. lra.
    - now apply py_ge_false in E. }
  destruct (FixedWindowLimiter.count win1 <? Config.max_requests cfg) eqn:E1.
  2:{ intros [= <- _] _ H. discriminate H. }
  intros [= <- <-]. rewrite FixedWindowFacts.fw_is_allowed_spec.
  unfold FixedWindowSteps.fetch. cbn [self clock].
  unfold FixedWindowSteps.with_window at 1.
  cbn [FixedWindowLimiter.windows]. rewrite lookup_insert_eq. cbn zeta.
  cbn [FixedWindowSteps.with_window FixedWindowLimiter.config].
  fold cfg. rewrite Hclk, Hkeep.
  cbn [FixedWindowSteps.bump FixedWindowLimiter.count].
  destruct (FixedWindowLimiter.count win1 + 1 <? Config.max_requests cfg)
    eqn:E2.
  2:{ intros [= <- _] _ H. discriminate H. }
  intros [= <- _] _ _. cbn [remaining requests_in_window]. split; lia.
Qed.

(** X4.  Each admission costs one unit.  For any state of any of the four
    limiters with a positive window: if two calls of [is_allowed] for the
    same client, made one after the other while the clock stands still, are
    both admitted, the second reports one less [remaining] and one more
    [requests_in_window] than the first. *)
Theorem consecutive_admissions (l : Limiter) (now : Q) (c : string)
    (r1 r2 : RateLimitResponse) (w1 w2 : World Limiter) :
  0 < Config.time_window (config_of l) ->
  is_allowed c (mkWorld (frozen now) l) = Ok (r1, w1) ->
  is_allowed c w1 = Ok (r2, w2) ->
  allowed r1 = true -> allowed r2 = true ->
  remaining r2 = remaining r1 - 1
  /\ requests_in_window r2 = requests_in_window r1 + 1.
Proof.
  intros HW.
  destruct l as [s|s|s|s]; cbn [config_of] in HW;
    unfold is_allowed, bind, get_self, lift, id; cbn [self clock].
  - destruct (TokenBucketLimiter.is_allowed c _) as [[a [k s']]|] eqn:E1;
      [|discriminate].
    intros [= <- <-]. cbn [self clock].
    destruct (TokenBucketLimiter.is_allowed c {| clock := k |})
      as [[a' w']|] eqn:E2; [|discriminate].
    intros [= <- _]. exact (tb_two_admissions _ _ _ _ _ _ _ E1 E2).
  - destruct (SlidingWindowLimiter.is_allowed c _) as [[a [k s']]|] eqn:E1;
      [|discriminate].
    intros [= <- <-]. cbn [self clock].
    destruct (SlidingWindowLimiter.is_allowed c {| clock := k |})
      as [[a' w']|] eqn:E2; [|discriminate].
    intros [= <- _].
    exact (sw_two_admissions _ _ _ _ _ _ _ (Z.lt_le_incl _ _ HW) E1 E2).
  - destruct (LeakyBucketLimiter.is_allowed c _) as [[a [k s']]|] eqn:E1;
      [|discriminate].
    intros [= <- <-]. cbn [self clock].
    destruct (LeakyBucketLimiter.is_allowed c {| clock := k |})
      as [[a' w']|] eqn:E2; [|discriminate].
    intros [= <- _]. exact (lb_two_admissions _ _ _ _ _ _ _ E1 E2).
  - destruct (FixedWindowLimiter.is_allowed c _) as [[a [k s']]|] eqn:E1;
      [|discriminate].
    intros [= <- <-]. cbn [self clock].
    destruct (FixedWindowLimiter.is_allowed c {| clock := k |})
      as [[a' w']|] eqn:E2; [|discriminate].
    intros [= <- _]. exact (fw_two_admissions _ _ _ _ _ _ _ HW E1 E2).
Qed.

Lemma consecutive_admissions_witness :
  match is_allowed "c" (mkWorld (frozen 3) idle_limiter) with
  | Ok (r1, w1) =>
      match is_allowed "c" w1 with
      | Ok (r2, w2) =>
          remaining r2 = remaining r1 - 1
          /\ requests_in_window r2 = requests_in_window r1 + 1
      | Raise _ => False
      end
  | Raise _ => False
  end.
Proof.
  destruct (is_allowed "c" (mkWorld (frozen 3) idle_limiter))
    as [[r1 w1]|e] eqn:E1; [|vm_compute in E1; discriminate].
  destruct (is_allowed "c" w1) as [[r2 w2]|e] eqn:E2.
  - apply (consecutive_admissions idle_limiter 3 "c" r1 r2 w1 w2);
      [reflexivity|exact E1|exact E2| |].
    + vm_compute in E1. now injection E1 as <- _.
    + vm_compute in E1. injection E1 as <- <-. vm_compute in E2.
      now injection E2 as <- _.
  - vm_compute in E1. injection E1 as <- <-. vm_compute in E2. discriminate.
Defined.

(** ** The shape of a response *)

Lemma py_int_nonneg_le (x : Q) : (0 <= x)%Q -> 0 <= py_int x.
Proof.
  intros H. rewrite <- (py_int_Z 0). now apply py_int_mono.
Qed.

Lemma is_allowed_consistent (c : string) (w w' : World Limiter)
    (r : RateLimitResponse) :
  is_allowed c w = Ok (r, w') -> consistent (config_of (self w)) r.
Proof.
  destruct w as [clk [s|s|s|s]]; cbn [self config_of];
    unfold is_allowed, lift, bind, get_self, id, consistent;
    cbn [self clock].
  - rewrite TokenBucketFacts.tb_is_allowed_spec.
    destruct (TokenBucketSteps.fetch c _) as [b clk']. cbn zeta.
    cbn [self clock].
    destruct (py_ge _ 1) eqn:E.
    + intros [= <- _].
      cbn [allowed remaining requests_in_window retry_after
             TokenBucketSteps.admit_response TokenBucketSteps.spend
             TokenBucketLimiter.tokens].
      apply py_ge_true in E. split; [reflexivity|]. split; [|lia].
      apply py_int_nonneg_le. lra.
    + destruct (Qeq_bool _ 0); [discriminate|]. intros [= <- _].
      cbn [allowed remaining requests_in_window retry_after
             TokenBucketSteps.reject_response].
      split; [reflexivity|]. split; [lia|discriminate].
  - rewrite SlidingWindowFacts.sw_is_allowed_spec. cbn zeta. cbn [self clock].
    destruct (len _ <? _) eqn:E.
    + intros [= <- _]. cbn [allowed remaining requests_in_window retry_after].
      apply Z.ltb_lt in E. split; [reflexivity|]. split; lia.
    + destruct (SlidingWindowLimiter.evict _ _) as [|w0 rest]; [discriminate|].
      intros [= <- _]. cbn [allowed remaining requests_in_window retry_after].
      apply Z.ltb_ge in E. split; [reflexivity|]. split; [lia|discriminate].
  - rewrite LeakyBucketFacts.lb_is_allowed_spec.
    destruct (LeakyBucketSteps.fetch c _) as [b clk']. cbn zeta.
    cbn [self clock].
    set (b' := LeakyBucketSteps.leaked _ _ b). clearbody b'.
    destruct (len _ <? _) eqn:E.
    + intros [= <- _]. cbn [allowed remaining requests_in_window retry_after].
      apply Z.ltb_lt in E. split; [reflexivity|]. split; lia.
    + destruct (Qeq_bool _ 0); [discriminate|]. intros [= <- _].
      cbn [allowed remaining requests_in_window retry_after].
      apply Z.ltb_ge in E. split; [reflexivity|]. split; [lia|discriminate].
  - rewrite FixedWindowFacts.fw_is_allowed_spec. cbn zeta. cbn [self clock].
    destruct (FixedWindowSteps.fetch c _) as [win clk'].
    destruct (FixedWindowLimiter.count _ <? _) eqn:E.
    + intros [= <- _]. cbn [allowed remaining requests_in_window retry_after].
      apply Z.ltb_lt in E. split; [reflexivity|]. split; lia.
    + intros [= <- _]. cbn [allowed remaining requests_in_window retry_after].
      apply Z.ltb_ge in E. split; [reflexivity|]. split; [lia|discriminate].
Qed.

(** X5.  Whatever the state of the limiter and the clock, a response of
    [is_allowed] is consistent with the policy: an admitted call has no
    [retry_after], a [remaining] that is not negative, and
    [remaining + requests_in_window = max_requests]; a rejected call has
    [remaining = 0], a [retry_after], and
    [requests_in_window >= max_requests]. *)
Theorem responses_are_consistent (c : string) (w w' : World Limiter)
    (r : RateLimitResponse) :
  is_allowed c w = Ok (r, w') -> consistent (config_of (self w)) r.
Proof. apply is_allowed_consistent. Qed.

Lemma responses_are_consistent_witness :
  match is_allowed "c" (mkWorld (frozen 0) spent_window) with
  | Ok (r, _) => allowed r = false /\ consistent (config_of spent_window) r
  | Raise _ => False
  end.
Proof.
  destruct (is_allowed "c" (mkWorld (frozen 0) spent_window))
    as [[r w']|e] eqn:E.
  - split.
    + vm_compute in E. now injection E as <- _.
    + exact (responses_are_consistent "c" _ w' r E).
  - vm_compute in E. discriminate.
Defined.

(** ** What a status says about the next decision *)

Lemma tb_status_decision (c : string) (w w1 w2 : World TokenBucketLimiter.t)
    (d : TokenBucketLimiter.Status) (r : RateLimitResponse) :
  TokenBucketLimiter.get_status c w = Ok (d, w1) ->
  TokenBucketLimiter.is_allowed c w = Ok (r, w2) ->
  foretells (TokenBucketStatus d) r.
Proof.
  rewrite TokenBucketFacts.tb_get_status_spec,
    TokenBucketFacts.tb_is_allowed_spec.
  destruct (TokenBucketSteps.fetch c w) as [b clk]. cbn zeta.
  intros [= <- _]. cbn [foretells TokenBucketLimiter.st_tokens].
  destruct (py_ge _ 1).
  - intros [= <- _]. split; [reflexivity|]. intros _. reflexivity.
  - destruct (Qeq_bool _ 0); [discriminate|]. intros [= <- _].
    split; [reflexivity|]. intros H. discriminate H.
Qed.

Lemma sw_status_decision (c : string) (w w1 w2 : World SlidingWindowLimiter.t)
    (d : SlidingWindowLimiter.Status) (r : RateLimitResponse) :
  nondecreasing (SlidingWindowSteps.log (self w) c) = true ->
  SlidingWindowLimiter.get_status c w = Ok (d, w1) ->
  SlidingWindowLimiter.is_allowed c w = Ok (r, w2) ->
  foretells (SlidingWindowStatus d) r.
Proof.
  intros Hs.
  rewrite SlidingWindowFacts.sw_get_status_spec,
    SlidingWindowFacts.sw_is_allowed_spec.
  cbn zeta. rewrite (evict_sorted _ _ Hs).
  intros [= <- _].
  cbn [foretells SlidingWindowLimiter.st_requests_in_window
         SlidingWindowLimiter.st_max_requests].
  unfold counted. destruct (len _ <? _).
  - intros [= <- _]. split; reflexivity.
  - destruct (List.filter _ _); [discriminate|]. intros [= <- _].
    cbn [allowed requests_in_window]. split; [reflexivity|lia].
Qed.

Lemma lb_status_decision (c : string) (w w1 w2 : World LeakyBucketLimiter.t)
    (d : LeakyBucketLimiter.Status) (r : RateLimitResponse) :
  LeakyBucketLimiter.get_status c w = Ok (d, w1) ->
  LeakyBucketLimiter.is_allowed c w = Ok (r, w2) ->
  foretells (LeakyBucketStatus d) r.
Proof.
  rewrite LeakyBucketFacts.lb_get_status_spec,
    LeakyBucketFacts.lb_is_allowed_spec.
  destruct (LeakyBucketSteps.fetch c w) as [b clk]. cbn zeta.
  intros [= <- _].
  cbn [foretells LeakyBucketLimiter.st_queue_size
         LeakyBucketLimiter.st_max_capacity].
  unfold counted. destruct (len _ <? _).
  - intros [= <- _]. split; reflexivity.
  - destruct (Qeq_bool _ 0); [discriminate|]. intros [= <- _].
    cbn [allowed requests_in_window]. split; [reflexivity|lia].
Qed.

Lemma fw_status_decision (c : string) (w w1 w2 : World FixedWindowLimiter.t)
    (d : FixedWindowLimiter.Status) (r : RateLimitResponse) :
  FixedWindowLimiter.get_status c w = Ok (d, w1) ->
  FixedWindowLimiter.is_allowed c w = Ok (r, w2) ->
  foretells (FixedWindowStatus d) r.
Proof.
  rewrite FixedWindowFacts.fw_get_status_spec,
    FixedWindowFacts.fw_is_allowed_spec.
  cbn zeta. destruct (FixedWindowSteps.fetch c w) as [win clk].
  intros [= <- _].
  cbn [foretells FixedWindowLimiter.st_count
         FixedWindowLimiter.st_max_requests].
  unfold counted. destruct (FixedWindowLimiter.count _ <? _).
  - intros [= <- _]. split; reflexivity.
  - intros [= <- _]. cbn [allowed requests_in_window].
    split; [reflexivity|lia].
Qed.

Lemma answer_Ok {Self A} (m : result (A * World Self)) (a : A) :
  answer m = Ok a -> exists w, m = Ok (a, w).
Proof.
  destruct m as [[a' w]|e]; cbn; [|discriminate]. intros [= ->]. eauto.
Qed.

(** X6.  The status foretells the decision.  If [get_status] and then
    [is_allowed] are called for a client while the clock stands still, the
    call is admitted exactly when the status shows room: a token bucket
    with [tokens >= 1] (and then [remaining = int(tokens - 1)]), the other
    limiters with a count below the reported maximum; their response counts
    the reported requests, plus the new one if admitted.  The sliding
    window needs its log in arrival order. *)
Theorem status_foretells_decision (l : Limiter) (now : Q) (c : string)
    (d : Status) (r : RateLimitResponse) (w1 w2 : World Limiter) :
  in_order c l ->
  get_status c (mkWorld (frozen now) l) = Ok (d, w1) ->
  is_allowed c w1 = Ok (r, w2) ->
  foretells d r.
Proof.
  intros Ho.
  destruct l as [s|s|s|s]; cbn [in_order] in Ho;
    unfold get_status, is_allowed, lift, bind, get_self, id;
    cbn [self clock].
  - pose proof (tb_inspect_then_decide s now c) as Hsame. unfold bind in Hsame.
    destruct (TokenBucketLimiter.get_status c _) as [[d0 [k s1]]|] eqn:E1;
      [|discriminate].
    intros [= <- <-]. cbn [self clock].
    destruct (TokenBucketLimiter.is_allowed c {| clock := k |})
      as [[r0 w']|] eqn:E2; [|discriminate].
    intros [= <- _]. cbn [answer] in Hsame. symmetry in Hsame.
    apply answer_Ok in Hsame as [w0 Hw0].
    exact (tb_status_decision c _ _ _ _ _ E1 Hw0).
  - pose proof (sw_inspect_then_decide s now c) as Hsame. unfold bind in Hsame.
    destruct (SlidingWindowLimiter.get_status c _) as [[d0 [k s1]]|] eqn:E1;
      [|discriminate].
    intros [= <- <-]. cbn [self clock].
    destruct (SlidingWindowLimiter.is_allowed c {| clock := k |})
      as [[r0 w']|] eqn:E2; [|discriminate].
    intros [= <- _]. cbn [answer] in Hsame. symmetry in Hsame.
    apply answer_Ok in Hsame as [w0 Hw0].
    exact (sw_status_decision c (mkWorld (frozen now) s) _ _ _ _ Ho E1 Hw0).
  - pose proof (lb_inspect_then_decide s now c) as Hsame. unfold bind in Hsame.
    destruct (LeakyBucketLimiter.get_status c _) as [[d0 [k s1]]|] eqn:E1;
      [|discriminate].
    intros [= <- <-]. cbn [self clock].
    destruct (LeakyBucketLimiter.is_allowed c {| clock := k |})
      as [[r0 w']|] eqn:E2; [|discriminate].
    intros [= <- _]. cbn [answer] in Hsame. symmetry in Hsame.
    apply answer_Ok in Hsame as [w0 Hw0].
    exact (lb_status_decision c _ _ _ _ _ E1 Hw0).
  - pose proof (fw_inspect_then_decide s now c) as Hsame. unfold bind in Hsame.
    destruct (FixedWindowLimiter.get_status c _) as [[d0 [k s1]]|] eqn:E1;
      [|discriminate].
    intros [= <- <-]. cbn [self clock].
    destruct (FixedWindowLimiter.is_allowed c {| clock := k |})
      as [[r0 w']|] eqn:E2; [|discriminate].
    intros [= <- _]. cbn [answer] in Hsame. symmetry in Hsame.
    apply answer_Ok in Hsame as [w0 Hw0].
    exact (fw_status_decision c _ _ _ _ _ E1 Hw0).
Qed.

Lemma status_foretells_decision_witness :
  match get_status "c" (mkWorld (frozen 3) idle_limiter) with
  | Ok (d, w1) =>
      match is_allowed "c" w1 with
      | Ok (r, _) => foretells d r
      | Raise _ => False
      end
  | Raise _ => False
  end.
Proof.
  destruct (get_status "c" (mkWorld (frozen 3) idle_limiter))
    as [[d w1]|e] eqn:E1; [|vm_compute in E1; discriminate].
  destruct (is_allowed "c" w1) as [[r w2]|e] eqn:E2.
  - apply (status_foretells_decision idle_limiter 3 "c" d r w1 w2);
      [reflexivity|exact E1|exact E2].
  - vm_compute in E1. injection E1 as <- <-. vm_compute in E2. discriminate.
Defined.

(** ** Leaky bucket: where the admitted requests are *)

Lemma leak_loop_accounted (k : nat) (b : LeakyBucketLimiter.Bucket) :
  let b' := LeakyBucketLimiter.leak_loop k b in
  len (LeakyBucketLimiter.queue b') + LeakyBucketLimiter.total_leaked b'
  = len (LeakyBucketLimiter.queue b) + LeakyBucketLimiter.total_leaked b.
Proof.
  cbn zeta. revert b. induction k as [|k IH]; intros b; [reflexivity|].
  cbn [LeakyBucketLimiter.leak_loop]. rewrite IH.
  unfold LeakyBucketLimiter.leak_one.
  destruct (LeakyBucketLimiter.queue b) as [|x rest] eqn:E.
  - now rewrite E.
  - cbn [LeakyBucketLimiter.queue LeakyBucketLimiter.total_leaked].
    unfold len. cbn [length]. lia.
Qed.

Lemma leaked_accounted (rate now : Q) (b : LeakyBucketLimiter.Bucket) :
  let b' := LeakyBucketSteps.leaked rate now b in
  len (LeakyBucketLimiter.queue b') + LeakyBucketLimiter.total_leaked b'
  = len (LeakyBucketLimiter.queue b) + LeakyBucketLimiter.total_leaked b.
Proof.
  unfold LeakyBucketSteps.leaked.
  cbn [LeakyBucketLimiter.queue LeakyBucketLimiter.total_leaked].
  apply leak_loop_accounted.
Qed.

Lemma accounted_with_bucket (s : LeakyBucketLimiter.t) (c c' : string)
    (b : LeakyBucketLimiter.Bucket) :
  accounted c (LeakyBucket (LeakyBucketSteps.with_bucket s c' b))
  = if String.eqb c' c
    then len (LeakyBucketLimiter.queue b) + LeakyBucketLimiter.total_leaked b
    else accounted c (LeakyBucket s).
Proof.
  unfold accounted, LeakyBucketSteps.with_bucket.
  cbn [LeakyBucketLimiter.buckets].
  destruct (String.eqb_spec c' c) as [->|Hne].
  - now rewrite lookup_insert_eq.
  - now rewrite lookup_insert_ne by exact Hne.
Qed.

Lemma lb_fetch_accounted (c : string) (w : World LeakyBucketLimiter.t) :
  let b := fst (LeakyBucketSteps.fetch c w) in
  len (LeakyBucketLimiter.queue b) + LeakyBucketLimiter.total_leaked b
  = accounted c (LeakyBucket (self w)).
Proof.
  unfold LeakyBucketSteps.fetch, accounted.
  destruct (LeakyBucketLimiter.buckets (self w) !! c); reflexivity.
Qed.

Lemma lb_call_accounted (k : Call) (c : string) (clk : Clock)
    (s : LeakyBucketLimiter.t) (r : Reply) (w' : World Limiter) :
  k <> Reset c ->
  call k (mkWorld clk (LeakyBucket s)) = Ok (r, w') ->
  exists s', self w' = LeakyBucket s'
             /\ accounted c (LeakyBucket s')
                = accounted c (LeakyBucket s) + admission c k r.
Proof.
  intros Hk.
  destruct k as [c'|c'|c']; cbn [call admission];
    unfold is_allowed, reset, get_status, lift, bind, ret, get_self, id;
    cbn [self clock].
  - rewrite LeakyBucketFacts.lb_is_allowed_spec.
    pose proof (lb_fetch_accounted c' (mkWorld clk s)) as Hf.
    destruct (LeakyBucketSteps.fetch c' _) as [b clk']. cbn zeta in *.
    cbn [fst self clock] in *.
    pose proof (leaked_accounted (LeakyBucketLimiter.leak_rate s)
                  (clk' 0%nat) b) as Hl. cbn zeta in Hl.
    set (b' := LeakyBucketSteps.leaked _ _ b) in *. clearbody b'.
    destruct (len _ <? _).
    + intros [= <- <-]. eexists. split; [reflexivity|].
      rewrite accounted_with_bucket. cbn [admitted allowed].
      rewrite andb_true_r.
      destruct (String.eqb_spec c' c) as [->|Hne]; [|lia].
      cbn [LeakyBucketSteps.enqueue LeakyBucketLimiter.queue
             LeakyBucketLimiter.total_leaked].
      rewrite len_app. change (len [clk' 1%nat]) with 1. lia.
    + destruct (Qeq_bool _ 0); [discriminate|].
      intros [= <- <-]. eexists. split; [reflexivity|].
      rewrite accounted_with_bucket. cbn [admitted allowed].
      rewrite andb_false_r.
      destruct (String.eqb_spec c' c) as [->|Hne]; lia.
  - rewrite LeakyBucketFacts.lb_reset_spec. cbn [self clock].
    intros [= <- <-]. eexists. split; [reflexivity|].
    rewrite accounted_with_bucket.
    destruct (String.eqb_spec c' c) as [->|Hne]; [congruence|lia].
  - rewrite LeakyBucketFacts.lb_get_status_spec.
    pose proof (lb_fetch_accounted c' (mkWorld clk s)) as Hf.
    destruct (LeakyBucketSteps.fetch c' _) as [b clk']. cbn zeta in *.
    cbn [fst self clock] in *.
    pose proof (leaked_accounted (LeakyBucketLimiter.leak_rate s)
                  (clk' 0%nat) b) as Hl. cbn zeta in Hl.
    set (b' := LeakyBucketSteps.leaked _ _ b) in *. clearbody b'.
    intros [= <- <-]. eexists. split; [reflexivity|].
    rewrite accounted_with_bucket.
    destruct (String.eqb_spec c' c) as [->|Hne]; lia.
Qed.

(** X7.  The leaky bucket accounts for every admission.  Over any sequence
    of [is_allowed], [get_status] and [reset] calls that does not reset
    client [c], on any clock, the client's queue length plus its
    [total_leaked] grows by exactly the number of its admitted calls:
    leaking only moves a request from the queue to the counter, and a
    rejected call or a status query adds nothing. *)
Theorem leaky_bucket_accounts_for_admissions (ks : list Call) (c : string)
    (clk : Clock) (s : LeakyBucketLimiter.t) (rs : list Reply)
    (w' : World Limiter) :
  Forall (fun k => k <> Reset c) ks ->
  run ks (mkWorld clk (LeakyBucket s)) = Ok (rs, w') ->
  accounted c (self w')
  = accounted c (LeakyBucket s) + admissions c ks rs.
Proof.
  revert clk s rs w'. induction ks as [|k ks IH]; intros clk s rs w' Hks.
  - intros [= <- <-]. cbn [self admissions]. lia.
  - inversion Hks as [|k0 ks0 Hk Hks' Heq]; subst.
    cbn [run]. unfold bind at 1.
    destruct (call k _) as [[r [clk1 l1]]|e] eqn:Ek; [|discriminate].
    destruct (lb_call_accounted k c clk s r _ Hk Ek) as (s1 & Hs1 & Hacc).
    cbn [self] in Hs1. subst l1. unfold bind at 1.
    destruct (run ks _) as [[rs1 w1]|e] eqn:Er; [|discriminate].
    unfold ret. intros [= <- <-]. cbn [admissions].
    rewrite (IH clk1 s1 rs1 w1 Hks' Er), Hacc. lia.
Qed.

Lemma leaky_bucket_accounts_for_admissions_witness :
  match run [IsAllowed "c"; GetStatus "c"; IsAllowed "c"; Reset "a"]
            (mkWorld (scripted [1; 1; 1; 8; 8] 8)%Q (LeakyBucket used_bucket))
  with
  | Ok (rs, w') =>
      map admitted rs = [true; false; true; false]
      /\ accounted "c" (self w') = 4 + 2
  | Raise _ => False
  end.
Proof.
  assert (Hks : Forall (fun k => k <> Reset "c")
                  [IsAllowed "c"; GetStatus "c"; IsAllowed "c"; Reset "a"])
    by (repeat constructor; discriminate).
  destruct (run _ _) as [[rs w']|e] eqn:E.
  - split; [vm_compute in E; now injection E as <- _|].
    rewrite (leaky_bucket_accounts_for_admissions _ "c" _ _ rs w' Hks E).
    vm_compute in E. injection E as <- _. reflexivity.
  - vm_compute in E. discriminate.
Defined.

(** ** A client that stayed away for a window *)

Lemma evict_all_old (cutoff : Q) (d : list Q) :
  Forall (fun t => (t < cutoff)%Q) d -> SlidingWindowLimiter.evict cutoff d = [].
Proof.
  induction 1 as [|t d Ht _ IH]; [reflexivity|].
  cbn [SlidingWindowLimiter.evict]. now apply py_lt_true in Ht as ->.
Qed.

Lemma leak_loop_empty (k : nat) (b : LeakyBucketLimiter.Bucket) :
  len (LeakyBucketLimiter.queue b) <= Z.of_nat k ->
  LeakyBucketLimiter.queue (LeakyBucketLimiter.leak_loop k b) = [].
Proof.
  revert b. induction k as [|k IH]; intros b Hk.
  - cbn. destruct (LeakyBucketLimiter.queue b); [reflexivity|].
    unfold len in Hk. cbn in Hk. lia.
  - cbn [LeakyBucketLimiter.leak_loop]. apply IH.
    unfold LeakyBucketLimiter.leak_one.
    destruct (LeakyBucketLimiter.queue b) as [|x rest] eqn:E.
    + rewrite E. unfold len. cbn. lia.
    + cbn [LeakyBucketLimiter.queue]. unfold len in *. cbn [length] in Hk.
      lia.
Qed.

Lemma window_refills (rate elapsed : Q) (cfg : RateLimitConfig) :
  valid cfg -> (rate == default_rate cfg)%Q ->
  (inject_Z (Config.time_window cfg) <= elapsed)%Q ->
  (inject_Z (Config.max_requests cfg) <= elapsed * rate)%Q.
Proof.
  intros Hv Hr He.
  destruct (default_rate_facts cfg Hv) as (H0 & _ & _).
  pose proof Hv as [Hm Hw]. apply inject_Z_pos in Hw.
  assert (Hfull : (default_rate cfg * inject_Z (Config.time_window cfg)
                   == inject_Z (Config.max_requests cfg))%Q).
  { unfold default_rate. field. lra. }
  rewrite Hr, <- Hfull, (Qmult_comm elapsed). now apply scaled_le.
Qed.

Lemma tb_rested (s : TokenBucketLimiter.t) (now : Q) (c : string) :
  valid (TokenBucketLimiter.config s) ->
  1 <= capacity_of (TokenBucket s) ->
  rested now c (TokenBucket s) ->
  exists r w',
    TokenBucketLimiter.is_allowed c (mkWorld (frozen now) s) = Ok (r, w')
    /\ full_allowance (TokenBucket s) r.
Proof.
  intros Hv Hcap [Hrate Hb]. cbn [config_of capacity_of] in *.
  set (cfg := TokenBucketLimiter.config s) in *.
  set (W := inject_Z (Config.time_window cfg)) in *.
  rewrite TokenBucketFacts.tb_is_allowed_spec.
  assert (Hfetch : exists b,
             TokenBucketSteps.fetch c (mkWorld (frozen now) s)
             = (b, frozen now)
             /\ (0 <= TokenBucketLimiter.tokens b)%Q
             /\ (inject_Z (Config.max_requests cfg)
                 <= TokenBucketLimiter.tokens b
                    + (now - TokenBucketLimiter.last_refill b)
                      * TokenBucketLimiter.refill_rate s)%Q
             /\ TokenBucketLimiter.burst_size b
                = TokenBucketLimiter.burst_or_max cfg).
  { unfold TokenBucketSteps.fetch. cbn [self clock].
    destruct (TokenBucketLimiter.buckets s !! c) as [b|] eqn:E.
    - destruct (Hb b eq_refl) as (Ht & Hl & Hbs).
      exists b. split; [reflexivity|]. split; [exact Ht|]. split; [|exact Hbs].
      pose proof (window_refills (TokenBucketLimiter.refill_rate s)
                    (now - TokenBucketLimiter.last_refill b) cfg Hv Hrate)
        as Hre.
      fold W in Hre. lra.
    - eexists. split; [reflexivity|].
      cbn [TokenBucketLimiter.tokens TokenBucketLimiter.last_refill
             TokenBucketLimiter.burst_size].
      fold cfg. change (frozen now 0%nat) with now.
      destruct Hv as [Hm _]. apply inject_Z_pos in Hm.
      split; [lra|]. split; [|reflexivity].
      lra. }
  destruct Hfetch as (b & -> & Ht & Hfull & Hbs). cbn zeta. cbn [self clock].
  change (frozen now 0%nat) with now. change (frozen now 1%nat) with now.
  fold cfg.
  set (b' := TokenBucketSteps.refilled (TokenBucketLimiter.refill_rate s)
               now b).
  set (cap := Z.min (Config.max_requests cfg)
                    (TokenBucketLimiter.burst_or_max cfg)) in *.
  assert (Htk : (inject_Z cap <= TokenBucketLimiter.tokens b')%Q).
  { unfold b', TokenBucketSteps.refilled. cbn [TokenBucketLimiter.tokens].
    rewrite Hbs. apply Q.min_glb.
    - eapply Qle_trans; [|exact Hfull]. rewrite <- Zle_Qle. apply Z.le_min_l.
    - rewrite <- Zle_Qle. apply Z.le_min_r. }
  assert (H1 : (1 <= inject_Z cap)%Q).
  { change 1%Q with (inject_Z 1). now rewrite <- Zle_Qle. }
  assert (E : py_ge (TokenBucketLimiter.tokens b') 1 = true).
  { apply py_ge_true. lra. }
  rewrite E. eexists _, _. split; [reflexivity|].
  split; [reflexivity|].
  cbn [remaining TokenBucketSteps.admit_response TokenBucketSteps.spend
         TokenBucketLimiter.tokens].
  change (cap - 1 <= py_int (TokenBucketLimiter.tokens b' - 1)).
  rewrite <- (py_int_Z (cap - 1)). apply py_int_mono.
  - unfold Z.sub. rewrite inject_Z_plus, inject_Z_opp.
    change (inject_Z 1) with 1%Q. lra.
  - unfold Z.sub. rewrite inject_Z_plus, inject_Z_opp.
    change (inject_Z 1) with 1%Q. lra.
Qed.

Lemma sw_rested (s : SlidingWindowLimiter.t) (now : Q) (c : string) :
  valid (SlidingWindowLimiter.config s) ->
  rested now c (SlidingWindow s) ->
  exists r w',
    SlidingWindowLimiter.is_allowed c (mkWorld (frozen now) s) = Ok (r, w')
    /\ full_allowance (SlidingWindow s) r.
Proof.
  intros [Hm _] Hold. cbn [rested config_of] in Hold.
  rewrite SlidingWindowFacts.sw_is_allowed_spec. cbn zeta. cbn [self clock].
  change (frozen now 0%nat) with now.
  rewrite evict_all_old
    by (eapply Forall_impl; [exact Hold|]; cbn beta; intros t Ht; lra).
  assert (E : (len (@nil Q) <? Config.max_requests (SlidingWindowLimiter.config s))
              = true) by (apply Z.ltb_lt; unfold len; cbn; lia).
  rewrite E. eexists _, _. split; [reflexivity|].
  split; [reflexivity|]. cbn [remaining requests_in_window capacity_of config_of].
  unfold len. cbn. split; lia.
Qed.

Lemma lb_rested (s : LeakyBucketLimiter.t) (now : Q) (c : string) :
  valid (LeakyBucketLimiter.config s) ->
  rested now c (LeakyBucket s) ->
  exists r w',
    LeakyBucketLimiter.is_allowed c (mkWorld (frozen now) s) = Ok (r, w')
    /\ full_allowance (LeakyBucket s) r.
Proof.
  intros Hv [Hrate Hb]. cbn [config_of] in *.
  set (cfg := LeakyBucketLimiter.config s) in *.
  rewrite LeakyBucketFacts.lb_is_allowed_spec.
  assert (Hfetch : exists b,
             LeakyBucketSteps.fetch c (mkWorld (frozen now) s)
             = (b, frozen now)
             /\ LeakyBucketLimiter.queue
                  (LeakyBucketSteps.leaked (LeakyBucketLimiter.leak_rate s)
                     now b) = []).
  { unfold LeakyBucketSteps.fetch. cbn [self clock].
    destruct (LeakyBucketLimiter.buckets s !! c) as [b|] eqn:E.
    - destruct (Hb b eq_refl) as (Hq & Hl).
      exists b. split; [reflexivity|].
      unfold LeakyBucketSteps.leaked. cbn [LeakyBucketLimiter.queue].
      apply leak_loop_empty.
      pose proof (window_refills (LeakyBucketLimiter.leak_rate s)
                    (now - LeakyBucketLimiter.last_leak_time b) cfg Hv Hrate)
        as Hre.
      assert (Hge : Config.max_requests cfg
                    <= py_int ((now - LeakyBucketLimiter.last_leak_time b)
                               * LeakyBucketLimiter.leak_rate s)).
      { rewrite <- (py_int_Z (Config.max_requests cfg)) at 1.
        destruct Hv as [Hm _]. apply inject_Z_pos in Hm.
        apply py_int_mono; [lra|]. apply Hre. lra. }
      destruct Hv as [Hm _]. lia.
    - eexists. split; [reflexivity|].
      unfold LeakyBucketSteps.leaked. cbn [LeakyBucketLimiter.queue].
      apply leak_loop_empty. unfold len. cbn. lia. }
  destruct Hfetch as (b & -> & Hq). cbn zeta. cbn [self clock].
  change (frozen now 0%nat) with now. fold cfg. rewrite Hq.
  assert (E : (len (@nil Q) <? Config.max_requests cfg) = true)
    by (apply Z.ltb_lt; destruct Hv; unfold len; cbn; lia).
  rewrite E. eexists _, _. split; [reflexivity|].
  split; [reflexivity|]. cbn [remaining requests_in_window capacity_of config_of].
  fold cfg. unfold len. cbn. split; lia.
Qed.

Lemma fw_rested (s : FixedWindowLimiter.t) (now : Q) (c : string) :
  valid (FixedWindowLimiter.config s) ->
  rested now c (FixedWindow s) ->
  exists r w',
    FixedWindowLimiter.is_allowed c (mkWorld (frozen now) s) = Ok (r, w')
    /\ full_allowance (FixedWindow s) r.
Proof.
  intros [Hm Hw] Hb. cbn [rested config_of] in Hb.
  set (cfg := FixedWindowLimiter.config s) in *.
  rewrite FixedWindowFacts.fw_is_allowed_spec. cbn zeta. cbn [self clock].
  change (frozen now 0%nat) with now. fold cfg.
  assert (Hfetch : exists win clk,
             FixedWindowSteps.fetch c (mkWorld (frozen now) s) = (win, clk)
             /\ FixedWindowLimiter.count (FixedWindowLimiter.roll cfg now win)
                = 0).
  { unfold FixedWindowSteps.fetch. cbn [self clock].
    destruct (FixedWindowLimiter.windows s !! c) as [win|] eqn:E.
    - exists win, (advance (frozen now)). split; [reflexivity|].
      specialize (Hb win eq_refl). unfold FixedWindowLimiter.roll.
      assert (Hr : py_ge (now - FixedWindowLimiter.window_start win)
                         (inject_Z (Config.time_window cfg)) = true)
        by (apply py_ge_true; lra).
      now rewrite Hr.
    - eexists _, _. split; [reflexivity|]. unfold FixedWindowLimiter.roll.
      destruct (py_ge _ _); reflexivity. }
  destruct Hfetch as (win & clk & -> & Hc). rewrite Hc.
  assert (E : (0 <? Config.max_requests cfg) = true) by now apply Z.ltb_lt.
  rewrite E. eexists _, _. split; [reflexivity|].
  split; [reflexivity|]. cbn [remaining requests_in_window capacity_of config_of].
  fold cfg. split; lia.
Qed.



(** ** app.py: what a limited route answers *)

Lemma truthy_str_nonempty (o : option string) (s : string) :
  truthy_str o = Some s -> s <> EmptyString.
Proof.
  destruct o as [[|a t]|]; cbn; [discriminate| |discriminate].
  intros [= <-]. discriminate.
Qed.

Lemma default_client_id_nonempty (rq : Flask.Request) :
  RateLimitMiddleware._get_default_client_id rq <> EmptyString.
Proof.
  unfold RateLimitMiddleware._get_default_client_id.
  destruct (truthy_str (Flask.x_api_key rq)) as [k|] eqn:Ek;
    [now apply truthy_str_nonempty in Ek|].
  destruct (truthy_str (Flask.remote_addr rq)) as [a|] eqn:Ea;
    [now apply truthy_str_nonempty in Ea|].
  discriminate.
Qed.

Lemma after_request_headers (info : RateLimitResponse)
    (response : Flask.Response) :
  let out := RateLimitMiddleware._after_request (Some info) response in
  let h := Flask.headers out in
  Flask.status out = Flask.status response
  /\ h !! "X-RateLimit-Limit"%string = Some (requests_in_window info)
  /\ h !! "X-RateLimit-Remaining"%string = Some (remaining info)
  /\ h !! "X-RateLimit-Reset"%string = Some (reset_time info)
  /\ h !! "Retry-After"%string
     = match truthy_int (retry_after info) with
       | Some n => Some n
       | None => Flask.headers response !! "Retry-After"%string
       end.
Proof.
  unfold RateLimitMiddleware._after_request. cbn zeta.
  destruct (truthy_int (retry_after info)) as [n|];
    cbn [Flask.status Flask.headers]; repeat split;
    repeat first [ rewrite lookup_insert_eq
                 | rewrite lookup_insert_ne by discriminate ];
    reflexivity.
Qed.

(** X9.  What a limited route answers (bodies left out).  For a limiter
    with nonzero rates and a positive capacity, the check of a route
    wrapped by [limit] raises nothing: the limiter is asked once, about the key function's id or else
    the API key, the remote address or "unknown" (never the empty string);
    the view runs exactly when the call is admitted and otherwise the
    status is 429; the headers [X-RateLimit-Limit], [X-RateLimit-Remaining]
    and [X-RateLimit-Reset] carry [requests_in_window], [remaining] and
    [reset_time]; and [Retry-After] is set by the middleware only on a
    rejection whose [retry_after] is not zero. *)
Theorem limited_route_answers (key_func : option (Flask.Request -> string))
    (func : Flask.Request -> Flask.Response) (request : Flask.Request)
    (w : World Limiter) :
  sound (self w) ->
  exists r resp w',
    is_allowed (client_of_request key_func request) w = Ok (r, w')
    /\ RateLimitMiddleware.serve key_func func request w = Ok (resp, w')
    /\ answered func request r resp
    /\ (key_func = None ->
        client_of_request key_func request <> EmptyString).
Proof.
  intros Hs.
  destruct (is_allowed_total (client_of_request key_func request) w Hs)
    as (r & w' & Hr & _).
  pose proof (is_allowed_consistent _ _ _ _ Hr) as Hc. unfold consistent in Hc.
  unfold RateLimitMiddleware.serve, RateLimitMiddleware.wrapper.
  fold (client_of_request key_func request). unfold bind at 1 2.
  rewrite Hr.
  exists r.
  destruct (allowed r) eqn:Ea; cbn [negb]; unfold ret; cbn [fst snd];
    eexists _, w'; (split; [reflexivity|]); (split; [reflexivity|]);
    (split; [|intros ->; apply default_client_id_nonempty]);
    unfold answered; rewrite Ea; cbn zeta;
    destruct (after_request_headers r (func request)) as (H1 & H2 & H3 & H4 & H5);
    destruct (after_request_headers r (Flask.jsonify 429))
      as (G1 & G2 & G3 & G4 & G5); cbn zeta in *.
  - destruct Hc as (Hra & _). rewrite Hra in H5. cbn [truthy_int] in H5.
    auto.
  - rewrite G5. cbn [Flask.jsonify Flask.headers Flask.status] in *.
    rewrite lookup_empty.
    repeat split; try assumption.
    now destruct (truthy_int (retry_after r)).
Qed.

Lemma limited_route_answers_witness :
  exists r resp w',
    is_allowed "unknown" (mkWorld (frozen 0) spent_window) = Ok (r, w')
    /\ RateLimitMiddleware.serve None (fun _ => Flask.jsonify 200)
         (Flask.mkRequest (Some EmptyString) None None None)
         (mkWorld (frozen 0) spent_window) = Ok (resp, w')
    /\ answered (fun _ => Flask.jsonify 200)
         (Flask.mkRequest (Some EmptyString) None None None) r resp
    /\ (@None (Flask.Request -> string) = None ->
        "unknown"%string <> EmptyString).
Proof.
  apply (limited_route_answers None (fun _ => Flask.jsonify 200)
           (Flask.mkRequest (Some EmptyString) None None None)
           (mkWorld (frozen 0) spent_window)).
  exact I.
Defined.

Lemma py_int_small (x : Q) : (0 <= x)%Q -> (x < 1)%Q -> py_int x = 0.
Proof.
  intros H0 H1.
  pose proof (py_int_lower x) as Hl. pose proof (py_int_le x H0) as Hu.
  assert (Ha : (inject_Z (-1) < inject_Z (py_int x))%Q)
    by (change (inject_Z (-1)) with (-1)%Q; lra).
  assert (Hb : (inject_Z (py_int x) < inject_Z 1)%Q)
    by (change (inject_Z 1) with 1%Q; lra).
  rewrite <- Zlt_Qlt in Ha, Hb. lia.
Qed.

Lemma fast_retry_after (rate : Q) : (1 < rate)%Q -> py_int (1 / rate) = 0.
Proof.
  intros Hr. apply py_int_small.
  - apply Qle_shift_div_l; lra.
  - apply Qlt_shift_div_r; lra.
Qed.

Lemma fast_rejection (c : string) (w w' : World Limiter)
    (r : RateLimitResponse) :
  fast (self w) -> is_allowed c w = Ok (r, w') -> allowed r = false ->
  retry_after r = Some 0.
Proof.
  destruct w as [clk [s|s|s|s]]; cbn [self fast]; intros Hf;
    try contradiction;
    unfold is_allowed, lift, bind, get_self, id; cbn [self clock].
  - rewrite TokenBucketFacts.tb_is_allowed_spec.
    destruct (TokenBucketSteps.fetch c _) as [b clk']. cbn zeta.
    cbn [self clock].
    destruct (py_ge _ 1); [intros [= <- _] H; discriminate H|].
    destruct (Qeq_bool _ 0); [discriminate|]. intros [= <- _] _.
    cbn [retry_after TokenBucketSteps.reject_response].
    now rewrite fast_retry_after.
  - rewrite LeakyBucketFacts.lb_is_allowed_spec.
    destruct (LeakyBucketSteps.fetch c _) as [b clk']. cbn zeta.
    cbn [self clock].
    destruct (len _ <? _); [intros [= <- _] H; discriminate H|].
    destruct (Qeq_bool _ 0); [discriminate|]. intros [= <- _] _.
    cbn [retry_after]. now rewrite fast_retry_after.
Qed.

(** The token bucket [limit] builds in memory for more requests than
    seconds refills faster than one token per second. *)
Lemma limit_builds_fast_bucket (max_requests time_window : Z) :
  0 < time_window < max_requests ->
  exists s,
    RateLimitMiddleware.limit max_requests time_window TOKEN_BUCKET "memory"
    = Ok (RateLimiterFactory.Local (TokenBucket s))
    /\ TokenBucketLimiter.config s
       = policy max_requests time_window TOKEN_BUCKET
    /\ fast (TokenBucket s).
Proof.
  intros [Hw Hm]. unfold RateLimitMiddleware.limit, RateLimiterFactory.create.
  cbn. unfold RateLimiterFactory.construct, TokenBucketLimiter.init. cbn.
  assert (Hz : (time_window =? 0) = false) by lia. rewrite Hz.
  eexists. split; [reflexivity|]. split; [reflexivity|]. cbn.
  apply Qlt_shift_div_l.
  - change 0%Q with (inject_Z 0). now rewrite <- Zlt_Qlt.
  - rewrite Qmult_1_l. now rewrite <- Zlt_Qlt.
Qed.

(** X10.  No [Retry-After] from a fast bucket.  When the token bucket
    refills, or the leaky bucket leaks, more than one request per second
    (by default: [max_requests > time_window]), every rejection has
    [retry_after = int(1 / rate) = 0], and the 429 response of a limited
    route then carries no [Retry-After] header. *)
Theorem fast_bucket_gives_no_retry_after
    (key_func : option (Flask.Request -> string))
    (func : Flask.Request -> Flask.Response) (request : Flask.Request)
    (w w' : World Limiter) (r : RateLimitResponse) :
  fast (self w) ->
  is_allowed (client_of_request key_func request) w = Ok (r, w') ->
  allowed r = false ->
  exists resp,
    RateLimitMiddleware.serve key_func func request w = Ok (resp, w')
    /\ Flask.status resp = 429
    /\ retry_after r = Some 0
    /\ Flask.headers resp !! "Retry-After"%string = None.
Proof.
  intros Hf Hr Ha. pose proof (fast_rejection _ _ _ _ Hf Hr Ha) as H0.
  unfold RateLimitMiddleware.serve, RateLimitMiddleware.wrapper.
  fold (client_of_request key_func request). unfold bind at 1 2.
  rewrite Hr, Ha. cbn [negb]. unfold ret. cbn [fst snd].
  eexists. split; [reflexivity|].
  destruct (after_request_headers r (Flask.jsonify 429))
    as (G1 & _ & _ & _ & G5). cbn zeta in *.
  split; [exact G1|]. split; [exact H0|].
  rewrite G5, H0. reflexivity.
Qed.

Lemma fast_bucket_gives_no_retry_after_witness :
  match is_allowed "c" (mkWorld (frozen 0) public_route_drained) with
  | Ok (r, w') =>
      exists resp,
        RateLimitMiddleware.serve (Some (fun _ => "c"%string))
          (fun _ => Flask.jsonify 200)
          (Flask.mkRequest None None None None)
          (mkWorld (frozen 0) public_route_drained) = Ok (resp, w')
        /\ Flask.status resp = 429
        /\ retry_after r = Some 0
        /\ Flask.headers resp !! "Retry-After"%string = None
  | Raise _ => False
  end.
Proof.
  destruct (is_allowed "c" (mkWorld (frozen 0) public_route_drained))
    as [[r w']|e] eqn:E.
  - apply (fast_bucket_gives_no_retry_after (Some (fun _ => "c"%string))
             (fun _ => Flask.jsonify 200)
             (Flask.mkRequest None None None None)
             (mkWorld (frozen 0) public_route_drained) w' r).
    + cbn. unfold Qlt. cbn. lia.
    + exact E.
    + vm_compute in E. now injection E as <- _.
  - vm_compute in E. discriminate.
Defined.

(** ** DistributedRateLimiter: failing open *)

Lemma inject_Z_eq_bool_0 (n : Z) : Qeq_bool (inject_Z n) 0 = (n =? 0).
Proof.
  unfold Qeq_bool, inject_Z. cbn. now rewrite Z.mul_1_r.
Qed.

(** X11.  The distributed limiter fails open.  [is_allowed] never raises,
    reads the clock once and always reports
    [reset_time = int(now + time_window)].  It rejects only when the script
    returned [allowed = 0] with a nonzero count [n], and then with
    [remaining = 0] and [retry_after = int(time_window / n)].  When the
    script raised, or returned [allowed = 0] with a count of zero (the
    division fails inside the [try]), the call is admitted with
    [remaining = max_requests - 1] and [requests_in_window = 0]. *)
Theorem distributed_limiter_fails_open
    (lua_script : DistributedRateLimiter.Script) (client_id : string)
    (w : World RateLimitConfig) :
  let cfg := self w in
  let out := script_call lua_script client_id w in
  let reset := py_int (clock w 0%nat + inject_Z (Config.time_window cfg))%Q in
  exists r,
    DistributedRateLimiter.is_allowed lua_script client_id w
    = Ok (r, mkWorld (advance (clock w)) cfg)
    /\ reset_time r = reset
    /\ (allowed r = false <-> refused out)
    /\ (forall remaining n, out = Ok (0, remaining, n) -> n <> 0 ->
        r = mkResponse false 0 reset
              (Some (py_int (inject_Z (Config.time_window cfg) / inject_Z n)%Q))
              n)
    /\ (forall a remaining n, out = Ok (a, remaining, n) -> a <> 0 ->
        r = mkResponse true remaining reset None n)
    /\ ((forall t, out <> Ok t) \/ (exists remaining, out = Ok (0, remaining, 0)) ->
        r = DistributedRateLimiter.fallback cfg reset).
Proof.
  cbn zeta. unfold DistributedRateLimiter.is_allowed, script_call, refused.
  unfold bind at 1. unfold time_time. unfold bind at 1. unfold get_self.
  cbn [self clock]. unfold DistributedRateLimiter.try_except.
  unfold bind at 1.
  destruct (lua_script _ _ _ _) as [[[a rem] n]|e];
    cbn [DistributedRateLimiter.call_script]; unfold ret, raise.
  - destruct (Z.eqb_spec a 0) as [->|Ha]; cbn [negb].
    + unfold bind, py_truediv. rewrite inject_Z_eq_bool_0.
      destruct (Z.eqb_spec n 0) as [->|Hn]; unfold raise, ret.
      * eexists. split; [reflexivity|]. split; [reflexivity|].
        split; [|split; [|split]].
        -- split; [discriminate|]. intros (? & ? & [= _ <-] & H). congruence.
        -- intros ? ? [= _ <-] H. congruence.
        -- intros ? ? ? [= <- _ _] H. congruence.
        -- reflexivity.
      * eexists. split; [reflexivity|]. split; [reflexivity|].
        split; [|split; [|split]].
        -- split; [eauto|reflexivity].
        -- intros ? ? [= _ <-] _. reflexivity.
        -- intros ? ? ? [= <- _ _] H. congruence.
        -- intros [H|(? & [= _ ->])]; [|congruence]. now destruct (H (0, rem, n)).
    + eexists. split; [reflexivity|]. split; [reflexivity|].
      split; [|split; [|split]].
      * split; [discriminate|]. intros (? & ? & [= -> _ _] & _). congruence.
      * intros ? ? [= -> _ _] _. congruence.
      * intros ? ? ? [= <- <- <-] _. reflexivity.
      * intros [H|(? & [= -> _ _])]; [|congruence]. now destruct (H (a, rem, n)).
  - eexists. split; [reflexivity|]. split; [reflexivity|].
    split; [|split; [|split]].
    + split; [discriminate|]. intros (? & ? & [=] & _).
    + intros ? ? [=].
    + intros ? ? ? [=].
    + reflexivity.
Qed.

(** ** Sliding window: the logs stay in arrival order *)

Lemma call_keeps_order (k : Call) (w w' : World Limiter) (r : Reply) :
  monotone (clock w) -> logs_in_order w -> call k w = Ok (r, w') ->
  monotone (clock w') /\ logs_in_order w'.
Proof.
  unfold logs_in_order. destruct w as [clk [s|s|s|s]]; cbn [self clock];
    intros Hmono Ho; try contradiction.
  destruct k as [c|c|c]; cbn [call];
    unfold is_allowed, reset, get_status, lift, bind, ret, get_self, id;
    cbn [self clock].
  - destruct (SlidingWindowLimiter.is_allowed c _) as [[r0 [k1 s1]]|] eqn:E;
      [|discriminate].
    intros [= _ <-]. cbn [self clock].
    exact (sw_ordered_is_allowed c (mkWorld clk s) _ r0 Hmono Ho E).
  - destruct (SlidingWindowLimiter.reset c _) as [[[] [k1 s1]]|] eqn:E;
      [|discriminate].
    intros [= _ <-]. cbn [self clock].
    exact (sw_ordered_reset c (mkWorld clk s) _ Hmono Ho E).
  - destruct (SlidingWindowLimiter.get_status c _) as [[d [k1 s1]]|] eqn:E;
      [|discriminate].
    intros [= _ <-]. cbn [self clock].
    exact (sw_ordered_get_status c (mkWorld clk s) _ d Hmono Ho E).
Qed.

Lemma run_keeps_order (ks : list Call) (w w' : World Limiter)
    (rs : list Reply) :
  monotone (clock w) -> logs_in_order w -> run ks w = Ok (rs, w') ->
  monotone (clock w') /\ logs_in_order w'.
Proof.
  revert w rs. induction ks as [|k ks IH]; intros w rs Hmono Ho.
  - intros [= _ <-]. now split.
  - cbn [run]. unfold bind at 1.
    destruct (call k w) as [[r w1]|] eqn:Ek; [|discriminate].
    destruct (call_keeps_order k w w1 r Hmono Ho Ek) as [Hmono1 Ho1].
    unfold bind at 1.
    destruct (run ks w1) as [[rs1 w2]|] eqn:Er; [|discriminate].
    unfold ret. intros [= _ <-]. exact (IH w1 rs1 Hmono1 Ho1 Er).
Qed.

(** X12.  The sliding-window logs stay in arrival order.  On a clock that
    never goes back, after any sequence of [is_allowed], [reset] and
    [get_status] calls on a sliding-window limiter built by the factory,
    every client's log is nondecreasing and holds no timestamp later than
    the next clock reading; so evicting from the front removes exactly the
    entries older than the window. *)
Theorem sliding_window_logs_stay_in_order (cfg : RateLimitConfig)
    (clk : Clock) (ks : list Call) :
  Config.algorithm cfg = SLIDING_WINDOW -> Config.distributed cfg = false ->
  monotone clk ->
  exists s,
    RateLimiterFactory.create cfg
    = Ok (RateLimiterFactory.Local (SlidingWindow s))
    /\ forall rs w',
         run ks (mkWorld clk (SlidingWindow s)) = Ok (rs, w') ->
         exists s',
           self w' = SlidingWindow s'
           /\ sw_ordered (mkWorld (clock w') s')
           /\ forall c cutoff,
                SlidingWindowLimiter.evict cutoff (SlidingWindowSteps.log s' c)
                = List.filter (fun t => py_ge t cutoff)
                              (SlidingWindowSteps.log s' c).
Proof.
  intros Ha Hd Hmono. unfold RateLimiterFactory.create. rewrite Hd, Ha.
  cbn. eexists. split; [reflexivity|]. intros rs w' Hrun.
  destruct (run_keeps_order ks
              (mkWorld clk (SlidingWindow (SlidingWindowLimiter.mk cfg ∅)))
              w' rs Hmono (sw_ordered_fresh cfg clk) Hrun) as [_ Ho].
  unfold logs_in_order in Ho. destruct (self w') as [s'|s'|s'|s'];
    try contradiction.
  exists s'. split; [reflexivity|]. split; [exact Ho|].
  intros c cutoff. apply evict_sorted. apply (Ho c).
Qed.

Lemma sliding_window_logs_stay_in_order_witness :
  exists s,
    RateLimiterFactory.create (policy 3 10 SLIDING_WINDOW)
    = Ok (RateLimiterFactory.Local (SlidingWindow s))
    /\ forall rs w',
         run [IsAllowed "c"; GetStatus "c"]
             (mkWorld (frozen 0) (SlidingWindow s)) = Ok (rs, w') ->
         exists s',
           self w' = SlidingWindow s'
           /\ sw_ordered (mkWorld (clock w') s')
           /\ forall c cutoff,
                SlidingWindowLimiter.evict cutoff (SlidingWindowSteps.log s' c)
                = List.filter (fun t => py_ge t cutoff)
                              (SlidingWindowSteps.log s' c).
Proof.
  apply (sliding_window_logs_stay_in_order (policy 3 10 SLIDING_WINDOW)
           (frozen 0) [IsAllowed "c"; GetStatus "c"]).
  - reflexivity.
  - reflexivity.
  - intros n. apply Qle_refl.
Defined.

(** ** app.py: the reset endpoint *)

Lemma agree_on_refl (c : string) (l : Limiter) : agree_on c l l.
Proof. split; [reflexivity|]. destruct l; auto. Qed.

Lemma unauthorized_iff (request : Flask.Request) :
  Routes.unauthorized request = false
  <-> Flask.x_admin_key request = Some "admin-secret-key"%string.
Proof.
  unfold Routes.unauthorized.
  destruct (Flask.x_admin_key request) as [k|]; [|split; discriminate].
  rewrite negb_false_iff, String.eqb_eq. split; congruence.
Qed.

Lemma truthy_str_Some (o : option string) (s : string) :
  truthy_str o = Some s -> o = Some s.
Proof.
  destruct o as [[|a t]|]; cbn; [discriminate| |discriminate]. congruence.
Qed.

(** [reset] returns on any clock, leaves every other client's record and
    the policy as they were, and leaves the client a cleared record. *)
Lemma reset_clears (c : string) (clk : Clock) (l : Limiter) :
  exists w',
    reset c (mkWorld clk l) = Ok (tt, w')
    /\ cleared c (self w')
    /\ forall c', c <> c' -> agree_on c' l (self w').
Proof.
  destruct l as [s|s|s|s];
    unfold reset, lift, bind, get_self, id; cbn [self clock].
  - rewrite TokenBucketFacts.tb_reset_spec. eexists. split; [reflexivity|].
    cbn [self clock]. split; [|frame_solve].
    exists (clk 0%nat). cbn. now rewrite lookup_insert_eq.
  - rewrite SlidingWindowFacts.sw_reset_spec. eexists. split; [reflexivity|].
    cbn [self clock]. split; [|frame_solve].
    cbn. now rewrite lookup_insert_eq.
  - rewrite LeakyBucketFacts.lb_reset_spec. eexists. split; [reflexivity|].
    cbn [self clock]. split; [|frame_solve].
    exists (clk 0%nat). cbn. now rewrite lookup_insert_eq.
  - rewrite FixedWindowFacts.fw_reset_spec. eexists. split; [reflexivity|].
    cbn [self clock]. split; [|frame_solve].
    exists (clk 0%nat). cbn. now rewrite lookup_insert_eq.
Qed.

Lemma reset_each_clears (c : string) (ls : Routes.Limiters) (clk : Clock) :
  exists ls' clk',
    Routes.reset_each c ls clk = Ok (ls', clk')
    /\ map fst ls' = map fst ls
    /\ Forall (fun kl => cleared c (snd kl)) ls'
    /\ forall c', c <> c' ->
         Forall2 (fun kl kl' => agree_on c' (snd kl) (snd kl')) ls ls'.
Proof.
  revert clk. induction ls as [|[key l] ls IH]; intros clk.
  - exists [], clk. cbn. repeat split; constructor.
  - cbn [Routes.reset_each].
    destruct (reset_clears c clk l) as ([clk1 l1] & -> & Hc & Hf).
    cbn [self clock] in *.
    destruct (IH clk1) as (ls' & clk' & -> & Hk & Hcs & Hfs).
    eexists _, _. split; [reflexivity|]. cbn [map fst snd].
    split; [now rewrite Hk|]. split; [now constructor|].
    intros c' Hne. constructor; [now apply Hf|now apply Hfs].
Qed.

(** X13.  The reset endpoint.  A reset request always returns, keeps the
    limiters of the routes in place, and leaves the records of every
    client other than the requested one, and all policies, as they were.
    Without the admin key it answers 403 and with a missing or empty
    [client_id] 400, changing nothing; otherwise it answers 200 and the
    client has a cleared record in every limiter. *)
Theorem reset_endpoint_clears_one_client (request : Flask.Request)
    (w : World Routes.Limiters) :
  exists resp w',
    Routes.reset_endpoint request w = Ok (resp, w')
    /\ reset_outcome request resp (self w) (self w')
    /\ (Routes.unauthorized request = false
        <-> Flask.x_admin_key request = Some "admin-secret-key"%string).
Proof.
  enough (H : exists resp w',
             Routes.reset_endpoint request w = Ok (resp, w')
             /\ reset_outcome request resp (self w) (self w')).
  { destruct H as (resp & w' & HA & HB). exists resp, w'.
    split; [exact HA|]. split; [exact HB|]. apply unauthorized_iff. }
  assert (Hsame : forall c : string,
             Forall2 (fun kl kl' : string * Limiter =>
                        agree_on c (snd kl) (snd kl')) (self w) (self w)).
  { intros c. induction (self w); constructor; [apply agree_on_refl|auto]. }
  unfold Routes.reset_endpoint, reset_outcome.
  destruct (Routes.unauthorized request).
  - eexists _, w. split; [reflexivity|].
    split; [reflexivity|]. split; [auto|]. split; reflexivity.
  - destruct (truthy_str (Flask.arg_client_id request)) as [c|] eqn:Ec.
    + destruct (reset_each_clears c (self w) (clock w))
        as (ls' & clk' & -> & Hk & Hcs & Hfs).
      eexists _, _. split; [reflexivity|]. cbn [self].
      apply truthy_str_Some in Ec.
      split; [exact Hk|]. split.
      * intros c' Hne. apply Hfs. congruence.
      * split; [reflexivity|]. split; [exact Ec|exact Hcs].
    + eexists _, w. split; [reflexivity|].
      split; [reflexivity|]. split; [auto|]. split; reflexivity.
Qed.

(** ** Nothing above capacity *)

Lemma good_bucket_later (cfg : RateLimitConfig) (now now' : Q)
    (b : TokenBucketLimiter.Bucket) :
  (now <= now')%Q -> good_bucket cfg now b -> good_bucket cfg now' b.
Proof.
  intros Hle (H0 & H1 & H2). repeat split; try assumption. lra.
Qed.

Lemma refilled_good (cfg : RateLimitConfig) (rate now : Q)
    (b : TokenBucketLimiter.Bucket) :
  (0 <= rate)%Q -> 0 <= TokenBucketLimiter.burst_or_max cfg ->
  good_bucket cfg now b ->
  good_bucket cfg now (TokenBucketSteps.refilled rate now b)
  /\ (TokenBucketLimiter.tokens (TokenBucketSteps.refilled rate now b)
      <= inject_Z (TokenBucketLimiter.burst_or_max cfg))%Q.
Proof.
  intros Hr Hb (H0 & H1 & H2).
  pose proof (refilled_le_burst rate now b) as Hle. rewrite H2 in Hle.
  split; [|exact Hle].
  unfold good_bucket, TokenBucketSteps.refilled.
  cbn [TokenBucketLimiter.tokens TokenBucketLimiter.last_refill
         TokenBucketLimiter.burst_size].
  split; [|split; [apply Qle_refl|exact H2]].
  apply Q.min_glb.
  - pose proof (scaled_nonneg rate (now - TokenBucketLimiter.last_refill b) Hr)
      as Hs.
    rewrite (Qmult_comm rate) in Hs. specialize (Hs ltac:(lra)). lra.
  - rewrite H2. change 0%Q with (inject_Z 0). now rewrite <- Zle_Qle.
Qed.

Section TokenBucketCapacity.
Import TokenBucketLimiter TokenBucketSteps.

Variable w : World t.
Hypothesis Hmono : monotone (clock w).
Hypothesis Hrate : (0 <= refill_rate (self w))%Q.
Hypothesis Hburst : 0 <= burst_or_max (config (self w)).
Hypothesis Hmax : 0 <= Config.max_requests (config (self w)).
Hypothesis Hgood : forall c b, buckets (self w) !! c = Some b ->
                               good_bucket (config (self w)) (clock w 0%nat) b.

Lemma tb_fetch_good (c : string) :
  let (b, clk) := fetch c w in
  monotone clk /\ (clock w 0%nat <= clk 0%nat)%Q
  /\ good_bucket (config (self w)) (clk 0%nat) b.
Proof.
  unfold fetch. destruct (buckets (self w) !! c) as [b|] eqn:E.
  - split; [exact Hmono|]. split; [apply Qle_refl|]. now apply (Hgood c).
  - split; [now apply monotone_advance|]. split; [apply (Hmono 0%nat)|].
    unfold good_bucket. cbn [tokens last_refill burst_size].
    split; [|split; [apply (Hmono 0%nat)|reflexivity]].
    change 0%Q with (inject_Z 0). now rewrite <- Zle_Qle.
Qed.

Lemma tb_with_bucket_good (c : string) (b : Bucket) (clk' : Clock) :
  (clock w 0%nat <= clk' 0%nat)%Q -> good_bucket (config (self w)) (clk' 0%nat) b ->
  forall c' b', buckets (with_bucket (self w) c b) !! c' = Some b' ->
                good_bucket (config (self w)) (clk' 0%nat) b'.
Proof.
  intros Hle Hb c' b'. unfold with_bucket. cbn [buckets].
  destruct (decide (c = c')) as [<-|Hne].
  - rewrite lookup_insert_eq. now intros [= <-].
  - rewrite lookup_insert_ne by exact Hne. intros Hc'.
    eapply good_bucket_later; [exact Hle|]. now apply (Hgood c').
Qed.

End TokenBucketCapacity.

Lemma tb_call_within (k : Call) (clk : Clock) (s : TokenBucketLimiter.t) :
  within_capacity (mkWorld clk (TokenBucket s)) ->
  exists r w',
    call k (mkWorld clk (TokenBucket s)) = Ok (r, w')
    /\ within_capacity w' /\ reply_within r.
Proof.
  intros (Hmono & Hrate & Hnz & Hburst & Hmax & Hgood). cbn [self clock] in *.
  pose proof (tb_with_bucket_good (mkWorld clk s) Hgood) as Hupd.
  pose proof (tb_fetch_good (mkWorld clk s) Hmono Hmax Hgood) as Hfetch.
  cbn [self clock] in Hupd, Hfetch.
  destruct k as [c|c|c]; cbn [call];
    unfold is_allowed, reset, get_status, lift, bind, ret, get_self, id;
    cbn [self clock].
  - rewrite TokenBucketFacts.tb_is_allowed_spec. specialize (Hfetch c).
    destruct (TokenBucketSteps.fetch c _) as [b clk1].
    destruct Hfetch as (Hm1 & Hle1 & Hb). cbn zeta. cbn [self clock].
    destruct (refilled_good _ (TokenBucketLimiter.refill_rate s) _ b
                Hrate Hburst Hb) as (Hb' & _).
    set (b' := TokenBucketSteps.refilled _ _ b) in *.
    pose proof (monotone_le clk1 0 2 Hm1 ltac:(lia)) as H02.
    assert (Hle2 : (clk 0%nat <= advance (advance clk1) 0%nat)%Q)
      by (unfold advance; lra).
    destruct Hb' as (Ht & Hl & Hbs).
    destruct (py_ge (TokenBucketLimiter.tokens b') 1) eqn:E.
    + eexists _, _. split; [reflexivity|]. split; [|exact I].
      split; [cbn [clock]; now do 2 apply monotone_advance|].
      cbn [self clock TokenBucketSteps.with_bucket TokenBucketLimiter.config
             TokenBucketLimiter.refill_rate].
      repeat (split; [assumption|]).
      apply Hupd; [exact Hle2|]. apply py_ge_true in E.
      unfold good_bucket, TokenBucketSteps.spend.
      cbn [TokenBucketLimiter.tokens TokenBucketLimiter.last_refill
             TokenBucketLimiter.burst_size].
      split; [lra|]. split; [unfold advance; lra|exact Hbs].
    + rewrite Hnz. eexists _, _. split; [reflexivity|]. split; [|exact I].
      split; [cbn [clock]; now do 2 apply monotone_advance|].
      cbn [self clock TokenBucketSteps.with_bucket TokenBucketLimiter.config
             TokenBucketLimiter.refill_rate].
      repeat (split; [assumption|]).
      apply Hupd; [exact Hle2|].
      split; [exact Ht|]. split; [unfold advance; lra|exact Hbs].
  - rewrite TokenBucketFacts.tb_reset_spec. cbn [self clock].
    eexists _, _. split; [reflexivity|]. split; [|exact I].
    split; [cbn [clock]; now apply monotone_advance|].
    cbn [self clock TokenBucketSteps.with_bucket TokenBucketLimiter.config
           TokenBucketLimiter.refill_rate].
    repeat (split; [assumption|]).
    apply Hupd; [apply (Hmono 0%nat)|].
    unfold good_bucket.
    cbn [TokenBucketLimiter.tokens TokenBucketLimiter.last_refill
           TokenBucketLimiter.burst_size].
    split; [|split; [apply (Hmono 0%nat)|reflexivity]].
    change 0%Q with (inject_Z 0). now rewrite <- Zle_Qle.
  - rewrite TokenBucketFacts.tb_get_status_spec. specialize (Hfetch c).
    destruct (TokenBucketSteps.fetch c _) as [b clk1].
    destruct Hfetch as (Hm1 & Hle1 & Hb). cbn zeta. cbn [self clock].
    destruct (refilled_good _ (TokenBucketLimiter.refill_rate s) _ b
                Hrate Hburst Hb) as (Hb' & Htop).
    set (b' := TokenBucketSteps.refilled _ _ b) in *.
    pose proof (Hm1 0%nat) as H01.
    destruct Hb' as (Ht & Hl & Hbs).
    eexists _, _. split; [reflexivity|]. split.
    + split; [cbn [clock]; now apply monotone_advance|].
      cbn [self clock TokenBucketSteps.with_bucket TokenBucketLimiter.config
             TokenBucketLimiter.refill_rate].
      repeat (split; [assumption|]).
      apply Hupd; [unfold advance; lra|].
      split; [exact Ht|]. split; [unfold advance; lra|exact Hbs].
    + cbn [reply_within status_within TokenBucketLimiter.st_tokens
             TokenBucketLimiter.st_max_tokens].
      split; [exact Ht|]. now rewrite Hbs.
Qed.

Lemma log_with_window_len (s : SlidingWindowLimiter.t) (c : string)
    (d : list Q) (m : Z) :
  len d <= m ->
  (forall c', len (SlidingWindowSteps.log s c') <= m) ->
  forall c', len (SlidingWindowSteps.log
                    (SlidingWindowSteps.with_window s c d) c') <= m.
Proof.
  intros Hd Hs c'. destruct (decide (c = c')) as [<-|Hne].
  - now rewrite log_with_window.
  - now rewrite log_with_window_ne by exact Hne.
Qed.

Lemma filter_len_le {A} (f : A -> bool) (l : list A) :
  len (List.filter f l) <= len l.
Proof.
  unfold len. pose proof (List.filter_length_le f l). lia.
Qed.

Lemma sw_call_within (k : Call) (clk : Clock) (s : SlidingWindowLimiter.t) :
  within_capacity (mkWorld clk (SlidingWindow s)) ->
  exists r w',
    call k (mkWorld clk (SlidingWindow s)) = Ok (r, w')
    /\ within_capacity w' /\ reply_within r.
Proof.
  intros (Hmono & Hmax & Hlen). cbn [self clock] in *.
  destruct k as [c|c|c]; cbn [call];
    unfold is_allowed, reset, get_status, lift, bind, ret, get_self, id;
    cbn [self clock].
  - rewrite SlidingWindowFacts.sw_is_allowed_spec. cbn zeta. cbn [self clock].
    destruct (evict_split (clk 0%nat
                - inject_Z (Config.time_window (SlidingWindowLimiter.config s)))
                (SlidingWindowSteps.log s c)) as (old & Hsplit & _).
    set (l := SlidingWindowLimiter.evict _ _) in *.
    assert (Hl : len l <= Config.max_requests (SlidingWindowLimiter.config s)).
    { specialize (Hlen c). rewrite Hsplit, len_app in Hlen.
      pose proof (len_nonneg old). lia. }
    destruct (len l <? _) eqn:E.
    + eexists _, _. split; [reflexivity|]. split; [|exact I].
      split; [cbn [clock]; now apply monotone_advance|].
      cbn [self clock SlidingWindowSteps.with_window
             SlidingWindowLimiter.config].
      split; [exact Hmax|].
      apply (log_with_window_len s c); [|exact Hlen].
      apply Z.ltb_lt in E. rewrite len_app. change (len [clk 0%nat]) with 1.
      lia.
    + destruct l as [|w0 rest] eqn:El.
      { apply Z.ltb_ge in E. unfold len in E. cbn in E. lia. }
      eexists _, _. split; [reflexivity|]. split; [|exact I].
      split; [cbn [clock]; now apply monotone_advance|].
      cbn [self clock SlidingWindowSteps.with_window
             SlidingWindowLimiter.config].
      split; [exact Hmax|].
      apply (log_with_window_len s c); [exact Hl|exact Hlen].
  - rewrite SlidingWindowFacts.sw_reset_spec. cbn [self clock].
    eexists _, _. split; [reflexivity|]. split; [|exact I].
    split; [exact Hmono|].
    cbn [self clock SlidingWindowSteps.with_window
           SlidingWindowLimiter.config].
    split; [exact Hmax|].
    apply (log_with_window_len s c); [|exact Hlen]. unfold len. cbn. lia.
  - rewrite SlidingWindowFacts.sw_get_status_spec. cbn zeta. cbn [self clock].
    eexists _, _. split; [reflexivity|]. split.
    + split; [cbn [clock]; now apply monotone_advance|].
      cbn [self clock SlidingWindowSteps.with_window
             SlidingWindowLimiter.config].
      split; [exact Hmax|].
      apply (log_with_window_len s c); [apply Hlen|exact Hlen].
    + cbn [reply_within status_within
             SlidingWindowLimiter.st_requests_in_window
             SlidingWindowLimiter.st_max_requests].
      split; [apply len_nonneg|].
      eapply Z.le_trans; [apply filter_len_le|apply Hlen].
Qed.

Lemma leaked_within (rate now : Q) (b : LeakyBucketLimiter.Bucket) (m : Z) :
  len (LeakyBucketLimiter.queue b) <= m ->
  0 <= LeakyBucketLimiter.total_leaked b ->
  let b' := LeakyBucketSteps.leaked rate now b in
  len (LeakyBucketLimiter.queue b') <= m
  /\ 0 <= LeakyBucketLimiter.total_leaked b'.
Proof.
  intros Hq Ht. cbn zeta.
  pose proof (leaked_accounted rate now b) as Hacc. cbn zeta in Hacc.
  unfold LeakyBucketSteps.leaked in *.
  cbn [LeakyBucketLimiter.queue LeakyBucketLimiter.total_leaked] in *.
  destruct (leak_loop_facts
              (Z.to_nat (py_int ((now - LeakyBucketLimiter.last_leak_time b)
                                 * rate))) b) as (_ & Hle & _).
  cbn zeta in Hle. split; lia.
Qed.

Lemma lb_call_within (k : Call) (clk : Clock) (s : LeakyBucketLimiter.t) :
  within_capacity (mkWorld clk (LeakyBucket s)) ->
  exists r w',
    call k (mkWorld clk (LeakyBucket s)) = Ok (r, w')
    /\ within_capacity w' /\ reply_within r.
Proof.
  intros (Hmono & Hnz & Hmax & Hgood). cbn [self clock] in *.
  set (m := Config.max_requests (LeakyBucketLimiter.config s)) in *.
  assert (Hupd : forall c b,
             len (LeakyBucketLimiter.queue b) <= m ->
             0 <= LeakyBucketLimiter.total_leaked b ->
             forall c' b',
               LeakyBucketLimiter.buckets (LeakyBucketSteps.with_bucket s c b)
               !! c' = Some b' ->
               len (LeakyBucketLimiter.queue b') <= m
               /\ 0 <= LeakyBucketLimiter.total_leaked b').
  { intros c b Hq Ht c' b'. unfold LeakyBucketSteps.with_bucket.
    cbn [LeakyBucketLimiter.buckets].
    destruct (decide (c = c')) as [<-|Hne].
    - rewrite lookup_insert_eq. intros [= <-]. now split.
    - rewrite lookup_insert_ne by exact Hne. apply Hgood. }
  assert (Hfetch : forall c,
             let (b, clk1) := LeakyBucketSteps.fetch c (mkWorld clk s) in
             monotone clk1
             /\ len (LeakyBucketLimiter.queue b) <= m
             /\ 0 <= LeakyBucketLimiter.total_leaked b).
  { intros c. unfold LeakyBucketSteps.fetch. cbn [self clock].
    destruct (LeakyBucketLimiter.buckets s !! c) as [b|] eqn:E.
    - split; [exact Hmono|]. now apply (Hgood c).
    - split; [now apply monotone_advance|]. cbn. unfold len. cbn. lia. }
  destruct k as [c|c|c]; cbn [call];
    unfold is_allowed, reset, get_status, lift, bind, ret, get_self, id;
    cbn [self clock].
  - rewrite LeakyBucketFacts.lb_is_allowed_spec. specialize (Hfetch c).
    destruct (LeakyBucketSteps.fetch c _) as [b clk1].
    destruct Hfetch as (Hm1 & Hq & Ht). cbn zeta. cbn [self clock]. fold m.
    destruct (leaked_within (LeakyBucketLimiter.leak_rate s) (clk1 0%nat)
                b m Hq Ht) as (Hq' & Ht').
    set (b' := LeakyBucketSteps.leaked _ _ b) in *. clearbody b'.
    destruct (len _ <? m) eqn:E.
    + eexists _, _. split; [reflexivity|]. split; [|exact I].
      split; [cbn [clock]; now do 3 apply monotone_advance|].
      cbn [self clock LeakyBucketSteps.with_bucket LeakyBucketLimiter.config
             LeakyBucketLimiter.leak_rate].
      fold m. split; [exact Hnz|]. split; [exact Hmax|].
      apply Hupd.
      * cbn [LeakyBucketSteps.enqueue LeakyBucketLimiter.queue].
        apply Z.ltb_lt in E. rewrite len_app. change (len [clk1 1%nat]) with 1.
        lia.
      * exact Ht'.
    + rewrite Hnz. eexists _, _. split; [reflexivity|]. split; [|exact I].
      split; [cbn [clock]; now do 2 apply monotone_advance|].
      cbn [self clock LeakyBucketSteps.with_bucket LeakyBucketLimiter.config
             LeakyBucketLimiter.leak_rate].
      fold m. split; [exact Hnz|]. split; [exact Hmax|].
      now apply Hupd.
  - rewrite LeakyBucketFacts.lb_reset_spec. cbn [self clock].
    eexists _, _. split; [reflexivity|]. split; [|exact I].
    split; [cbn [clock]; now apply monotone_advance|].
    cbn [self clock LeakyBucketSteps.with_bucket LeakyBucketLimiter.config
           LeakyBucketLimiter.leak_rate].
    fold m. split; [exact Hnz|]. split; [exact Hmax|].
    apply Hupd; cbn; [unfold len; cbn|]; lia.
  - rewrite LeakyBucketFacts.lb_get_status_spec. specialize (Hfetch c).
    destruct (LeakyBucketSteps.fetch c _) as [b clk1].
    destruct Hfetch as (Hm1 & Hq & Ht). cbn zeta. cbn [self clock]. fold m.
    destruct (leaked_within (LeakyBucketLimiter.leak_rate s) (clk1 0%nat)
                b m Hq Ht) as (Hq' & Ht').
    set (b' := LeakyBucketSteps.leaked _ _ b) in *. clearbody b'.
    eexists _, _. split; [reflexivity|]. split.
    + split; [cbn [clock]; now apply monotone_advance|].
      cbn [self clock LeakyBucketSteps.with_bucket LeakyBucketLimiter.config
             LeakyBucketLimiter.leak_rate].
      fold m. split; [exact Hnz|]. split; [exact Hmax|].
      now apply Hupd.
    + cbn [reply_within status_within LeakyBucketLimiter.st_queue_size
             LeakyBucketLimiter.st_max_capacity
             LeakyBucketLimiter.st_total_leaked].
      split; [split; [apply len_nonneg|exact Hq']|exact Ht'].
Qed.

Lemma fw_call_within (k : Call) (clk : Clock) (s : FixedWindowLimiter.t) :
  within_capacity (mkWorld clk (FixedWindow s)) ->
  exists r w',
    call k (mkWorld clk (FixedWindow s)) = Ok (r, w')
    /\ within_capacity w' /\ reply_within r.
Proof.
  intros (Hmono & Hmax & Hgood). cbn [self clock] in *.
  set (cfg := FixedWindowLimiter.config s) in *.
  set (m := Config.max_requests cfg) in *.
  assert (Hupd : forall c win,
             0 <= FixedWindowLimiter.count win <= m ->
             forall c' win',
               FixedWindowLimiter.windows (FixedWindowSteps.with_window s c win)
               !! c' = Some win' ->
               0 <= FixedWindowLimiter.count win' <= m).
  { intros c win Hc c' win'. unfold FixedWindowSteps.with_window.
    cbn [FixedWindowLimiter.windows].
    destruct (decide (c = c')) as [<-|Hne].
    - rewrite lookup_insert_eq. now intros [= <-].
    - rewrite lookup_insert_ne by exact Hne. apply Hgood. }
  assert (Hfetch : forall c now,
             let (win, clk1) := FixedWindowSteps.fetch c (mkWorld clk s) in
             monotone clk1
             /\ 0 <= FixedWindowLimiter.count
                       (FixedWindowLimiter.roll cfg now win) <= m).
  { intros c now. unfold FixedWindowSteps.fetch. cbn [self clock].
    destruct (FixedWindowLimiter.windows s !! c) as [win|] eqn:E.
    - split; [now apply monotone_advance|]. unfold FixedWindowLimiter.roll.
      destruct (py_ge _ _); [cbn; lia|now apply (Hgood c)].
    - split; [now do 2 apply monotone_advance|].
      unfold FixedWindowLimiter.roll. destruct (py_ge _ _); cbn; lia. }
  destruct k as [c|c|c]; cbn [call];
    unfold is_allowed, reset, get_status, lift, bind, ret, get_self, id;
    cbn [self clock].
  - rewrite FixedWindowFacts.fw_is_allowed_spec. cbn zeta. cbn [self clock].
    specialize (Hfetch c (clk 0%nat)).
    destruct (FixedWindowSteps.fetch c _) as [win clk1].
    destruct Hfetch as (Hm1 & Hc). fold cfg. fold m.
    set (win' := FixedWindowLimiter.roll cfg _ win) in *. clearbody win'.
    destruct (FixedWindowLimiter.count win' <? m) eqn:E.
    + eexists _, _. split; [reflexivity|]. split; [|exact I].
      split; [exact Hm1|].
      cbn [self clock FixedWindowSteps.with_window FixedWindowLimiter.config].
      fold cfg. fold m. split; [exact Hmax|].
      apply Hupd. apply Z.ltb_lt in E. cbn. lia.
    + eexists _, _. split; [reflexivity|]. split; [|exact I].
      split; [exact Hm1|].
      cbn [self clock FixedWindowSteps.with_window FixedWindowLimiter.config].
      fold cfg. fold m. split; [exact Hmax|]. now apply Hupd.
  - rewrite FixedWindowFacts.fw_reset_spec. cbn [self clock].
    eexists _, _. split; [reflexivity|]. split; [|exact I].
    split; [cbn [clock]; now apply monotone_advance|].
    cbn [self clock FixedWindowSteps.with_window FixedWindowLimiter.config].
    fold cfg. fold m. split; [exact Hmax|]. apply Hupd. cbn. lia.
  - rewrite FixedWindowFacts.fw_get_status_spec. cbn zeta. cbn [self clock].
    specialize (Hfetch c (clk 0%nat)).
    destruct (FixedWindowSteps.fetch c _) as [win clk1].
    destruct Hfetch as (Hm1 & Hc). fold cfg. fold m.
    set (win' := FixedWindowLimiter.roll cfg _ win) in *. clearbody win'.
    eexists _, _. split; [reflexivity|]. split.
    + split; [exact Hm1|].
      cbn [self clock FixedWindowSteps.with_window FixedWindowLimiter.config].
      fold cfg. fold m. split; [exact Hmax|]. now apply Hupd.
    + cbn [reply_within status_within FixedWindowLimiter.st_count
             FixedWindowLimiter.st_max_requests].
      exact Hc.
Qed.

Lemma call_within (k : Call) (w : World Limiter) :
  within_capacity w ->
  exists r w',
    call k w = Ok (r, w') /\ within_capacity w' /\ reply_within r.
Proof.
  destruct w as [clk [s|s|s|s]].
  - apply tb_call_within.
  - apply sw_call_within.
  - apply lb_call_within.
  - apply fw_call_within.
Qed.

Lemma run_within (ks : list Call) (w : World Limiter) :
  within_capacity w ->
  exists rs w',
    run ks w = Ok (rs, w') /\ length rs = length ks
    /\ within_capacity w' /\ Forall reply_within rs.
Proof.
  revert w. induction ks as [|k ks IH]; intros w Hw.
  - exists [], w. split; [reflexivity|]. split; [reflexivity|].
    split; [exact Hw|constructor].
  - destruct (call_within k w Hw) as (r & w1 & Hk & Hw1 & Hr).
    destruct (IH w1 Hw1) as (rs & w2 & Hrun & Hlen & Hw2 & Hrs).
    exists (r :: rs), w2. cbn [run]. unfold bind, ret. rewrite Hk, Hrun.
    split; [reflexivity|]. split; [cbn; now rewrite Hlen|].
    split; [exact Hw2|now constructor].
Qed.

Lemma create_within (cfg : RateLimitConfig) (clk : Clock) :
  valid cfg -> in_process cfg -> tame cfg -> monotone clk ->
  exists l,
    RateLimiterFactory.create cfg = Ok (RateLimiterFactory.Local l)
    /\ within_capacity (mkWorld clk l).
Proof.
  intros Hv [Hd Ha] Ht Hmono. pose proof Hv as [Hm Hw].
  destruct (default_rate_facts cfg Hv) as (Hr0 & Hrnz & _).
  assert (Hz : (Config.time_window cfg =? 0) = false) by lia.
  unfold RateLimiterFactory.create. rewrite Hd.
  destruct (Config.algorithm cfg) eqn:E; cbn; try congruence.
  - destruct (Ht E) as [Hb Hrate].
    unfold RateLimiterFactory.construct, TokenBucketLimiter.init.
    destruct (truthy_float (Config.refill_rate cfg)) as [r|] eqn:Er.
    + eexists. split; [reflexivity|]. split; [exact Hmono|].
      cbn [self TokenBucketLimiter.config TokenBucketLimiter.refill_rate
             TokenBucketLimiter.buckets].
      split; [now apply Hrate|].
      split; [now apply truthy_float_nonzero with (o := Config.refill_rate cfg)|].
      split; [exact Hb|]. split; [lia|].
      intros c b. now rewrite lookup_empty.
    + rewrite Hz. eexists. split; [reflexivity|]. split; [exact Hmono|].
      cbn [self TokenBucketLimiter.config TokenBucketLimiter.refill_rate
             TokenBucketLimiter.buckets].
      split; [exact Hr0|]. split; [exact Hrnz|].
      split; [exact Hb|]. split; [lia|].
      intros c b. now rewrite lookup_empty.
  - eexists. split; [reflexivity|]. split; [exact Hmono|].
    cbn [self SlidingWindowLimiter.config]. split; [exact Hm|].
    intros c. unfold SlidingWindowSteps.log. cbn. rewrite lookup_empty.
    unfold len. cbn. lia.
  - unfold RateLimiterFactory.construct, LeakyBucketLimiter.init.
    rewrite Hz. eexists. split; [reflexivity|]. split; [exact Hmono|].
    cbn [self LeakyBucketLimiter.config LeakyBucketLimiter.leak_rate
           LeakyBucketLimiter.buckets].
    split; [exact Hrnz|]. split; [lia|].
    intros c b. now rewrite lookup_empty.
  - eexists. split; [reflexivity|]. split; [exact Hmono|].
    cbn [self FixedWindowLimiter.config FixedWindowLimiter.windows].
    split; [lia|]. intros c win. now rewrite lookup_empty.
Qed.

(** X14.  Nothing above capacity.  For a valid policy (a token bucket
    with burst and explicit rate not negative) and a clock that never goes
    back, any sequence of [is_allowed], [reset] and [get_status] calls on a
    limiter built by the factory returns, and every status reported on the
    way is within bounds: the token bucket has
    [0 <= tokens <= max_tokens], the sliding window
    [0 <= requests_in_window <= max_requests], the leaky bucket
    [0 <= queue_size <= max_capacity] and [total_leaked >= 0], the fixed
    window [0 <= count <= max_requests]. *)
Theorem nothing_above_capacity (cfg : RateLimitConfig) (clk : Clock)
    (ks : list Call) :
  valid cfg -> in_process cfg -> tame cfg -> monotone clk ->
  exists rs,
    session cfg clk ks = Ok rs
    /\ length rs = length ks
    /\ Forall reply_within rs.
Proof.
  intros Hv Hp Ht Hmono. unfold session.
  destruct (create_within cfg clk Hv Hp Ht Hmono) as (l & -> & Hw).
  destruct (run_within ks _ Hw) as (rs & w' & -> & Hlen & _ & Hrs).
  exists rs. auto.
Qed.

Lemma nothing_above_capacity_witness :
  exists rs,
    session (Config.mk 3 10 TOKEN_BUCKET (Some 2) None false "")
            (scripted [0; 1; 1; 2; 4; 4]%Q 9)
            [IsAllowed "c"; GetStatus "c"; Reset "c"; GetStatus "c"] = Ok rs
    /\ length rs = 4%nat
    /\ Forall reply_within rs.
Proof.
  apply (nothing_above_capacity
           (Config.mk 3 10 TOKEN_BUCKET (Some 2) None false "")
           (scripted [0; 1; 1; 2; 4; 4]%Q 9)
           [IsAllowed "c"; GetStatus "c"; Reset "c"; GetStatus "c"]).
  - split; reflexivity.
  - split; [reflexivity|discriminate].
  - intros _. split; [cbn; lia|]. cbn. discriminate.
  - intros n. unfold scripted.
    do 7 (destruct n as [|n]; [cbn; unfold Qle; cbn; lia|]).
    cbn. destruct n; apply Qle_refl.
Defined.

(** ** A rejected call costs nothing *)

Lemma evict_twice (cutoff : Q) (d : list Q) :
  SlidingWindowLimiter.evict cutoff (SlidingWindowLimiter.evict cutoff d)
  = SlidingWindowLimiter.evict cutoff d.
Proof.
  destruct (SlidingWindowLimiter.evict cutoff d) as [|w0 rest] eqn:E;
    [reflexivity|].
  apply evict_front in E. cbn. now apply py_lt_false in E as ->.
Qed.

Lemma tb_rejection_stable (s : TokenBucketLimiter.t) (now : Q) (c : string)
    (r : RateLimitResponse) (w1 : World TokenBucketLimiter.t) :
  TokenBucketLimiter.is_allowed c (mkWorld (frozen now) s) = Ok (r, w1) ->
  allowed r = false ->
  answer (TokenBucketLimiter.is_allowed c w1) = Ok r.
Proof.
  rewrite TokenBucketFacts.tb_is_allowed_spec.
  assert (Hfetch : exists b,
             TokenBucketSteps.fetch c (mkWorld (frozen now) s)
             = (b, frozen now)).
  { unfold TokenBucketSteps.fetch. cbn [self clock].
    destruct (TokenBucketLimiter.buckets s !! c); eauto. }
  destruct Hfetch as [b ->]. cbn zeta. cbn [self clock].
  change (frozen now 0%nat) with now. change (frozen now 1%nat) with now.
  set (rate := TokenBucketLimiter.refill_rate s).
  set (b1 := TokenBucketSteps.refilled rate now b).
  destruct (py_ge (TokenBucketLimiter.tokens b1) 1) eqn:E1;
    [intros [= <- _] H; discriminate H|].
  destruct (Qeq_bool rate 0) eqn:Ez; [discriminate|].
  intros [= <- <-] _. rewrite TokenBucketFacts.tb_is_allowed_spec.
  unfold TokenBucketSteps.fetch. cbn [self clock].
  unfold TokenBucketSteps.with_bucket at 1.
  cbn [TokenBucketLimiter.buckets]. rewrite lookup_insert_eq. cbn zeta.
  cbn [TokenBucketSteps.with_bucket TokenBucketLimiter.config
         TokenBucketLimiter.refill_rate].
  change (advance (advance (frozen now)) 0%nat) with now.
  change (advance (advance (frozen now)) 1%nat) with now.
  fold rate.
  assert (Htk : (TokenBucketLimiter.tokens
                   (TokenBucketSteps.refilled rate now b1)
                 == TokenBucketLimiter.tokens b1)%Q).
  { pose proof (refilled_le_burst rate now b) as Hle. fold b1 in Hle.
    unfold TokenBucketSteps.refilled at 1.
    cbn [TokenBucketLimiter.tokens].
    assert (Hlr : TokenBucketLimiter.last_refill b1 = now) by reflexivity.
    assert (Hbs : TokenBucketLimiter.burst_size b1
                  = TokenBucketLimiter.burst_size b) by reflexivity.
    rewrite Hlr, Hbs. rewrite Q.min_l; [ring|]. lra. }
  rewrite (py_ge_comp _ _ _ _ Htk (Qeq_refl 1)), E1, Ez. reflexivity.
Qed.

Lemma sw_rejection_stable (s : SlidingWindowLimiter.t) (now : Q) (c : string)
    (r : RateLimitResponse) (w1 : World SlidingWindowLimiter.t) :
  SlidingWindowLimiter.is_allowed c (mkWorld (frozen now) s) = Ok (r, w1) ->
  allowed r = false ->
  answer (SlidingWindowLimiter.is_allowed c w1) = Ok r.
Proof.
  rewrite SlidingWindowFacts.sw_is_allowed_spec. cbn zeta. cbn [self clock].
  change (frozen now 0%nat) with now.
  set (cfg := SlidingWindowLimiter.config s).
  set (cut := (now - inject_Z (Config.time_window cfg))%Q).
  destruct (len _ <? _) eqn:E1; [intros [= <- _] H; discriminate H|].
  destruct (SlidingWindowLimiter.evict cut _) as [|w0 rest] eqn:El;
    [discriminate|].
  intros [= <- <-] _. rewrite SlidingWindowFacts.sw_is_allowed_spec.
  cbn zeta. cbn [self clock]. rewrite log_with_window.
  cbn [SlidingWindowSteps.with_window SlidingWindowLimiter.config].
  change (advance (frozen now) 0%nat) with now. fold cfg. fold cut.
  rewrite <- El, evict_twice, El, E1. reflexivity.
Qed.

Lemma lb_rejection_stable (s : LeakyBucketLimiter.t) (now : Q) (c : string)
    (r : RateLimitResponse) (w1 : World LeakyBucketLimiter.t) :
  LeakyBucketLimiter.is_allowed c (mkWorld (frozen now) s) = Ok (r, w1) ->
  allowed r = false ->
  answer (LeakyBucketLimiter.is_allowed c w1) = Ok r.
Proof.
  rewrite LeakyBucketFacts.lb_is_allowed_spec.
  assert (Hfetch : exists b,
             LeakyBucketSteps.fetch c (mkWorld (frozen now) s)
             = (b, frozen now)).
  { unfold LeakyBucketSteps.fetch. cbn [self clock].
    destruct (LeakyBucketLimiter.buckets s !! c); eauto. }
  destruct Hfetch as [b ->]. cbn zeta. cbn [self clock].
  change (frozen now 0%nat) with now. change (frozen now 1%nat) with now.
  set (rate := LeakyBucketLimiter.leak_rate s).
  set (cfg := LeakyBucketLimiter.config s).
  destruct (len _ <? _) eqn:E1; [intros [= <- _] H; discriminate H|].
  destruct (Qeq_bool rate 0) eqn:Ez; [discriminate|].
  intros [= <- <-] _. rewrite LeakyBucketFacts.lb_is_allowed_spec.
  unfold LeakyBucketSteps.fetch. cbn [self clock].
  unfold LeakyBucketSteps.with_bucket at 1.
  cbn [LeakyBucketLimiter.buckets]. rewrite lookup_insert_eq. cbn zeta.
  cbn [LeakyBucketSteps.with_bucket LeakyBucketLimiter.config
         LeakyBucketLimiter.leak_rate].
  change (advance (advance (frozen now)) 0%nat) with now.
  change (advance (advance (frozen now)) 1%nat) with now.
  fold rate. fold cfg. rewrite leaked_twice, E1, Ez. reflexivity.
Qed.

Lemma fw_roll_twice (cfg : RateLimitConfig) (now : Q)
    (win : FixedWindowLimiter.Window) :
  FixedWindowLimiter.roll cfg now (FixedWindowLimiter.roll cfg now win)
  = FixedWindowLimiter.roll cfg now win.
Proof.
  unfold FixedWindowLimiter.roll.
  destruct (py_ge (now - FixedWindowLimiter.window_start win) _) eqn:E.
  - cbn [FixedWindowLimiter.window_start].
    destruct (py_ge (now - now) _); reflexivity.
  - now rewrite E.
Qed.

Lemma fw_rejection_stable (s : FixedWindowLimiter.t) (now : Q) (c : string)
    (r : RateLimitResponse) (w1 : World FixedWindowLimiter.t) :
  FixedWindowLimiter.is_allowed c (mkWorld (frozen now) s) = Ok (r, w1) ->
  allowed r = false ->
  answer (FixedWindowLimiter.is_allowed c w1) = Ok r.
Proof.
  rewrite FixedWindowFacts.fw_is_allowed_spec.
  assert (Hfetch : exists win clk,
             FixedWindowSteps.fetch c (mkWorld (frozen now) s) = (win, clk)
             /\ clk 0%nat = now).
  { unfold FixedWindowSteps.fetch. cbn [self clock].
    destruct (FixedWindowLimiter.windows s !! c); eauto. }
  destruct Hfetch as (win & clk & -> & Hclk). cbn zeta. cbn [self clock].
  change (frozen now 0%nat) with now.
  set (cfg := FixedWindowLimiter.config s).
  destruct (FixedWindowLimiter.count _ <? _) eqn:E1;
    [intros [= <- _] H; discriminate H|].
  intros [= <- <-] _. rewrite FixedWindowFacts.fw_is_allowed_spec.
  unfold FixedWindowSteps.fetch. cbn [self clock].
  unfold FixedWindowSteps.with_window at 1.
  cbn [FixedWindowLimiter.windows]. rewrite lookup_insert_eq. cbn zeta.
  cbn [FixedWindowSteps.with_window FixedWindowLimiter.config].
  fold cfg. rewrite Hclk, fw_roll_twice, E1. reflexivity.
Qed.



(** ** Leaky bucket: calls that come faster than the leak *)

Lemma leaked_nothing (rate now : Q) (b : LeakyBucketLimiter.Bucket) :
  (0 <= rate)%Q -> (LeakyBucketLimiter.last_leak_time b <= now)%Q ->
  ((now - LeakyBucketLimiter.last_leak_time b) * rate < 1)%Q ->
  LeakyBucketSteps.leaked rate now b
  = LeakyBucketLimiter.mkBucket (LeakyBucketLimiter.queue b) now
      (LeakyBucketLimiter.total_leaked b).
Proof.
  intros Hr Hl Hlt. unfold LeakyBucketSteps.leaked.
  rewrite py_int_small; [reflexivity| |exact Hlt].
  rewrite Qmult_comm. apply scaled_nonneg; lra.
Qed.

Lemma hurried_step (clk : Clock) (c : string) (s : LeakyBucketLimiter.t) :
  hurried clk c s ->
  exists r s',
    is_allowed c (mkWorld clk (LeakyBucket s))
    = Ok (r, mkWorld (advance (advance clk)) (LeakyBucket s'))
    /\ allowed r = false
    /\ hurried (advance (advance clk)) c s'.
Proof.
  intros (Hrate & Hmono & Hgap & b & Hb & Hfull & Hle & Hlt).
  unfold is_allowed, lift, bind, get_self, id. cbn [self clock].
  rewrite LeakyBucketFacts.lb_is_allowed_spec.
  unfold LeakyBucketSteps.fetch. cbn [self clock]. rewrite Hb. cbn zeta.
  rewrite leaked_nothing by (try assumption; lra).
  cbn [LeakyBucketLimiter.queue].
  assert (E : (len (LeakyBucketLimiter.queue b)
               <? Config.max_requests (LeakyBucketLimiter.config s)) = false)
    by (apply Z.ltb_ge; exact Hfull).
  assert (Ez : Qeq_bool (LeakyBucketLimiter.leak_rate s) 0 = false).
  { destruct (Qeq_bool _ 0) eqn:Ez; [|reflexivity].
    apply Qeq_bool_iff in Ez. lra. }
  rewrite E, Ez. eexists _, _. split; [reflexivity|]. split; [reflexivity|].
  unfold hurried.
  cbn [LeakyBucketSteps.with_bucket LeakyBucketLimiter.leak_rate
         LeakyBucketLimiter.config LeakyBucketLimiter.buckets].
  split; [exact Hrate|]. split; [now do 2 apply monotone_advance|].
  split; [intros i; apply (Hgap (S (S i)))|].
  eexists. split; [apply lookup_insert_eq|].
  cbn [LeakyBucketLimiter.queue LeakyBucketLimiter.last_leak_time].
  split; [exact Hfull|]. split.
  - apply (monotone_le clk 0 2 Hmono). lia.
  - apply (Hgap 0%nat).
Qed.

(** X16.  Calls that come faster than the leak.  [_leak] moves
    [last_leak_time] to [now] even when nothing leaked.  So a client with a
    full queue whose calls are never a whole leak interval ([1 / leak_rate]
    seconds) apart is rejected on every call, however many calls it makes
    and however much time passes in total; the queue never drains. *)
Theorem hurried_client_is_never_admitted (n : nat) (clk : Clock) (c : string)
    (s : LeakyBucketLimiter.t) :
  hurried clk c s ->
  exists rs w',
    run (replicate n (IsAllowed c)) (mkWorld clk (LeakyBucket s))
    = Ok (rs, w')
    /\ length rs = n
    /\ Forall (fun r => admitted r = false) rs
    /\ clock w' 0%nat = clk (2 * n)%nat.
Proof.
  revert clk s. induction n as [|n IH]; intros clk s Hh.
  - eexists _, _. split; [reflexivity|]. repeat split. constructor.
  - destruct (hurried_step clk c s Hh) as (r & s1 & Hr & Ha & Hh1).
    destruct (IH _ _ Hh1) as (rs & w' & Hrun & Hlen & Hrs & Hclk).
    exists (Decision r :: rs), w'.
    cbn [replicate run call]. unfold bind at 1 2. rewrite Hr.
    unfold ret at 1. unfold bind at 1. rewrite Hrun. unfold ret.
    split; [reflexivity|]. split; [cbn; now rewrite Hlen|].
    split; [constructor; [exact Ha|exact Hrs]|].
    rewrite Hclk. unfold advance. f_equal. lia.
Qed.

Lemma hurried_client_is_never_admitted_witness :
  exists rs w',
    run (replicate 20 (IsAllowed "c"))
        (mkWorld every_two_seconds (LeakyBucket full_queue)) = Ok (rs, w')
    /\ length rs = 20%nat
    /\ Forall (fun r => admitted r = false) rs
    /\ clock w' 0%nat = every_two_seconds (2 * 20)%nat.
Proof.
  apply hurried_client_is_never_admitted. unfold hurried.
  split; [reflexivity|]. split; [|split].
  - intros n. unfold every_two_seconds. rewrite <- Zle_Qle. lia.
  - intros i. unfold every_two_seconds, Qlt, Qminus, Qplus, Qmult, Qopp.
    cbn -[Z.of_nat Z.mul Z.add]. lia.
  - eexists. split; [apply lookup_singleton_eq|].
    split; [cbn; unfold len; cbn; lia|].
    split; [unfold Qle|unfold Qlt]; cbn; lia.
Defined.
